(** * PeerShare: the client-side transfer engine, embedded in Rocq

    A shallow embedding of the pure and state-passing parts of PeerShare's
    client: the integrity helpers (transfer-integrity), the adaptive chunk
    planner (adaptive-chunk), the send queue reducer (send-queue), the
    structured event envelope (structured-event), the persistent transfer
    store (transfer-store), the streaming finalizer (transfer-finalizer),
    the receive side of the transfer engine (webrtc-transfer, webrtc) and,
    of the send side, the cutting of a file into chunks and its checksum.

    Conventions.
    - A JavaScript [number] that carries a byte size, a chunk count or a chunk
      index is an integer and is modelled as [Z].  A number that arrives from
      outside and that the code itself guards with [Number.isFinite],
      [typeof] or [Math.floor] is modelled as [number]: NaN, the two
      infinities, or an exact rational.
    - A product or a quotient of numbers is rounded as IEEE 754 binary64
      rounds it ([Double]).  The chunk arithmetic is given twice: on
      numbers, with that rounding ([NumberIntegrity]), and on integers
      without it ([Integrity]); the two agree for sizes up to [2 ^ 53], the
      range of the sizes of real files.
    - [Date.now()] is an explicit argument [now].
    - A [Map] or an IndexedDB object store is a [gmap]; the IndexedDB requests
      are taken to succeed, so store operations are total functions.
    - An [async] method of the connection is a function from the connection
      state to the connection state.  A handler that the code queues on a
      transfer's write queue has run before the next message is handled.
    - An object held in a [Map] and updated in place (an incoming transfer)
      is written back under its key by the function that updates it.
    - The calls of [onFileProgress] and [onFileComplete] are returned beside
      the new state.  The progress percentage of the receive side, and the
      milestone test on it, are left uninterpreted.
    - An [ArrayBuffer], a [Blob] and the content of a [File] are the list of
      their bytes. *)

From Stdlib Require Import ZArith QArith Qround Qminmax Lia Lqa Bool Ascii String List.
From Stdlib Require Import Strings.Byte.
From Stdlib Require Import Sorting.Sorted.
From Stdlib Require Floats.SpecFloat.
From stdpp Require Import gmap strings list fin_maps.

Local Open Scope Z_scope.

(** ** JavaScript numbers and values *)

Module Js.

(** An IEEE number as the code observes it: comparisons with NaN are false,
    [Number.isFinite] separates the rationals from the rest. *)
Inductive number : Type :=
| NaN
| NegInfinity
| PosInfinity
| Finite (q : Q).

Definition ofZ (z : Z) : number := Finite (inject_Z z).

Definition isFinite (x : number) : bool :=
  match x with Finite _ => true | _ => false end.

(** [x <= y] *)
Definition leb (x y : number) : bool :=
  match x, y with
  | NaN, _ | _, NaN => false
  | NegInfinity, _ => true
  | _, PosInfinity => true
  | Finite a, Finite b => Qle_bool a b
  | _, _ => false
  end.

(** [x < y] *)
Definition ltb (x y : number) : bool :=
  match x, y with
  | NaN, _ | _, NaN => false
  | NegInfinity, NegInfinity => false
  | PosInfinity, PosInfinity => false
  | NegInfinity, _ => true
  | _, PosInfinity => true
  | Finite a, Finite b => negb (Qle_bool b a)
  | _, _ => false
  end.

(** [x >= y] and [x > y] *)
Definition geb (x y : number) : bool := leb y x.
Definition gtb (x y : number) : bool := ltb y x.

(** [x === y] on numbers *)
Definition eqb (x y : number) : bool :=
  match x, y with
  | NegInfinity, NegInfinity => true
  | PosInfinity, PosInfinity => true
  | Finite a, Finite b => Qeq_bool a b
  | _, _ => false
  end.

(** [Math.floor] of a finite number, as an integer. *)
Definition floor (q : Q) : Z := Qfloor q.

(** A value of unknown type, as [JSON.parse] or a caller hands it over.
    An object is the finite map of its own properties; a missing property
    reads as [undefined]. *)
#[warnings="-register-all"]
Inductive value : Type :=
| VUndefined
| VNull
| VBool (b : bool)
| VNumber (n : number)
| VString (s : string)
| VArray (elements : list value)
| VObject (fields : gmap string value).

Definition get (fields : gmap string value) (key : string) : value :=
  match fields !! key with
  | Some v => v
  | None => VUndefined
  end.

(** [Math.ceil], and [Math.max] and [Math.min] of two arguments. *)
Definition ceil (x : number) : number :=
  match x with
  | Finite q => Finite (inject_Z (Qceiling q))
  | _ => x
  end.

Definition max (x y : number) : number :=
  match x, y with
  | NaN, _ | _, NaN => NaN
  | _, _ => if leb x y then y else x
  end.

Definition min (x y : number) : number :=
  match x, y with
  | NaN, _ | _, NaN => NaN
  | _, _ => if leb x y then x else y
  end.

End Js.

(** ** Double precision: the arithmetic of IEEE 754 binary64 *)

Module Double.

(** A JavaScript [number] is a binary64 value, and [x * y] and [x / y]
    return the exact product or quotient rounded to the nearest binary64
    value, ties to the even significand.  A positive rational [n / d] with
    [2 ^ e <= n / d < 2 ^ (e + 1)] is rounded to a multiple of the quantum
    [2 ^ (e - 52)] (of [2 ^ -1074] in the subnormal range), and a result of
    [2 ^ 1024] or more is an infinity.  The one zero of [Js.number] stands
    for both zeros. *)

(** [2 ^ e <= n / d], for [n, d > 0] and any integer [e]. *)
Definition atLeastPow2 (n d e : Z) : bool :=
  d * 2 ^ Z.max 0 e <=? n * 2 ^ Z.max 0 (- e).

(** The [e] with [2 ^ e <= n / d < 2 ^ (e + 1)]. *)
Definition binade (n d : Z) : Z :=
  let e := Z.log2 n - Z.log2 d in
  if atLeastPow2 n d e then e else e - 1.

(** The integer nearest to [n / d], the even one of two that are equally
    near. *)
Definition nearestEven (n d : Z) : Z :=
  let quotient := n / d in
  match 2 * (n mod d) ?= d with
  | Lt => quotient
  | Gt => quotient + 1
  | Eq => if Z.even quotient then quotient else quotient + 1
  end.

(** [n / d / 2 ^ quantum], rounded to an integer. *)
Definition significand (n d quantum : Z) : Z :=
  nearestEven (n * 2 ^ Z.max 0 (- quantum)) (d * 2 ^ Z.max 0 quantum).

(** [m * 2 ^ quantum], in lowest terms. *)
Definition scaled (m quantum : Z) : Q :=
  Qred (m * 2 ^ Z.max 0 quantum # Z.to_pos (2 ^ Z.max 0 (- quantum))).

(** The binary64 value nearest to [n / d], for [n, d > 0]; [None] is an
    overflow. *)
Definition roundMagnitude (n d : Z) : option Q :=
  let quantum := Z.max (binade n d - 52) (-1074) in
  let m := significand n d quantum in
  if 2 ^ 1024 * 2 ^ Z.max 0 (- quantum) <=? m * 2 ^ Z.max 0 quantum then None
  else Some (scaled m quantum).

Definition round (q : Q) : Js.number :=
  let d := Zpos (Qden q) in
  match Qnum q with
  | 0 => Js.Finite 0
  | Zpos n =>
      match roundMagnitude (Zpos n) d with
      | Some y => Js.Finite y
      | None => Js.PosInfinity
      end
  | Zneg n =>
      match roundMagnitude (Zpos n) d with
      | Some y => Js.Finite (- y)
      | None => Js.NegInfinity
      end
  end.

(** The rationals that are binary64 values. *)
Definition representable (q : Q) : Prop := round q = Js.Finite (Qred q).

Definition isZero (x : Js.number) : bool := Js.eqb x (Js.ofZ 0).

Definition isNegative (x : Js.number) : bool := Js.ltb x (Js.ofZ 0).

Definition infinity (negative : bool) : Js.number :=
  if negative then Js.NegInfinity else Js.PosInfinity.

(** [x * y] *)
Definition mul (x y : Js.number) : Js.number :=
  match x, y with
  | Js.NaN, _ | _, Js.NaN => Js.NaN
  | Js.Finite a, Js.Finite b => round (a * b)
  | _, _ =>
      if isZero x || isZero y then Js.NaN
      else infinity (xorb (isNegative x) (isNegative y))
  end.

(** [x / y].  Where the sign of a zero divisor decides between the two
    infinities the zero is read as [+0]; the code below divides only behind
    a guard that excludes a zero divisor. *)
Definition div (x y : Js.number) : Js.number :=
  match x, y with
  | Js.NaN, _ | _, Js.NaN => Js.NaN
  | Js.Finite a, Js.Finite b =>
      if isZero y then
        if isZero x then Js.NaN else infinity (isNegative x)
      else round (a / b)
  | Js.Finite _, _ => Js.ofZ 0
  | _, Js.Finite _ => infinity (xorb (isNegative x) (isNegative y))
  | _, _ => Js.NaN
  end.

(** *** The same operations in the Standard Library's binary64

    [SpecFloat] is the executable specification that Rocq's primitive
    floats are held to; it is used below to compare the two definitions of
    a product and a quotient on samples. *)

Definition binary64 (z : Z) : SpecFloat.spec_float :=
  SpecFloat.binary_normalize 53 1024 z 0 false.

Definition ofBinary64 (x : SpecFloat.spec_float) : Js.number :=
  match x with
  | SpecFloat.S754_zero _ => Js.Finite 0
  | SpecFloat.S754_infinity negative => infinity negative
  | SpecFloat.S754_nan => Js.NaN
  | SpecFloat.S754_finite negative m e =>
      Js.Finite (scaled (if negative then Zneg m else Zpos m) e)
  end.

Definition binary64Mul (x y : Z) : Js.number :=
  ofBinary64 (SpecFloat.SFmul 53 1024 (binary64 x) (binary64 y)).

Definition binary64Div (x y : Z) : Js.number :=
  ofBinary64 (SpecFloat.SFdiv 53 1024 (binary64 x) (binary64 y)).

End Double.

(** ** transfer-integrity: chunk arithmetic *)

Module Integrity.

(** The functions of this module are the integer reading of the chunk
    arithmetic: the ceiling and the product are exact.  That is what the
    code computes as long as the file size is at most [2 ^ 53]
    ([calculateTotalChunks_exact], [bytesForChunkIndex_exact]); for what it
    computes on any numbers see [NumberIntegrity]. *)

(** [Math.ceil(a / b)] for integers [a] and [b > 0], without rounding. *)
Definition ceilDiv (a b : Z) : Z := - ((- a) / b).

Definition calculateTotalChunks (fileSize chunkSize : Z) : Z :=
  if chunkSize <=? 0 then 0 else ceilDiv fileSize chunkSize.

Definition bytesForChunkIndex (chunkIndex chunkSize fileSize : Z) : Z :=
  let bytes := Z.max 0 chunkIndex * Z.max 0 chunkSize in
  Z.min bytes (Z.max 0 fileSize).

Definition normalizeChunkIndex (value : Js.number) (totalChunks : Z) : Z :=
  match value with
  | Js.Finite q =>
      if Js.leb value (Js.ofZ 0) then 0
      else if Js.geb value (Js.ofZ totalChunks) then totalChunks
      else Js.floor q
  | _ => 0
  end.

(** *** Hashing *)

Definition byteValue (b : byte) : Z := Z.of_N (Byte.to_N b).

Definition hexDigit (d : Z) : ascii :=
  nth (Z.to_nat d) (list_ascii_of_string "0123456789abcdef") "0"%char.

(** [z.toString(16).padStart(width, "0")] for [0 <= z < 16 ^ width]. *)
Fixpoint hexFixed (width : nat) (z : Z) : string :=
  match width with
  | O => EmptyString
  | S w =>
      String.append (hexFixed w (z / 16))
        (String (hexDigit (z mod 16)) EmptyString)
  end.

Definition toHex (buffer : list byte) : string :=
  fold_left (fun hex b => String.append hex (hexFixed 2 (byteValue b)))
    buffer EmptyString.

(** [hash ^= b; hash = Math.imul(hash, 0x01000193); hash >>>= 0] keeps the
    low 32 bits of the product. *)
Definition fnv1a32Step (hash : Z) (b : byte) : Z :=
  (Z.lxor hash (byteValue b) * 16777619) mod 2 ^ 32.

Definition fnv1a32Hex (data : list byte) : string :=
  hexFixed 8 (fold_left fnv1a32Step data 2166136261).

Section Hashing.

(** [crypto.subtle.digest("SHA-256", _)] when the runtime has it. *)
Variable subtleDigest : option (list byte -> list byte).

Definition hashArrayBuffer (data : list byte) : string :=
  match subtleDigest with
  | Some sha256 => toHex (sha256 data)
  | None => fnv1a32Hex data
  end.

(** A string is the sequence of its UTF-8 bytes, which is what
    [TextEncoder.encode] returns. *)
Definition hashText (text : string) : string :=
  hashArrayBuffer (list_byte_of_string text).

Definition newline : string := String "010"%char EmptyString.

Definition deriveFileChecksumFromChunkChecksums
    (chunkChecksums : list string) : string :=
  hashText (String.concat newline chunkChecksums).

End Hashing.

(** *** The shape of a checksum *)

Definition isHexDigit (c : ascii) : bool :=
  existsb (Ascii.eqb c) (list_ascii_of_string "0123456789abcdef").

(** A non-empty string of lower-case hexadecimal digits. *)
Definition isChecksumText (text : string) : bool :=
  negb (String.eqb text EmptyString)
  && forallb isHexDigit (list_ascii_of_string text).

(** The character that separates the chunk checksums in the text that
    [deriveFileChecksumFromChunkChecksums] hashes. *)
Definition lineFeed : ascii := "010"%char.

End Integrity.

(** ** transfer-integrity on numbers

    [calculateTotalChunks] and [bytesForChunkIndex] once more, now on the
    [number]s that the callers hand over (a size or a chunk size read from
    a peer's offer is whatever number the peer sent) and with the division
    and the product in double precision.  On integers up to [2 ^ 53] they
    agree with the integer functions of [Integrity], which the rest of the
    development uses: see [calculateTotalChunks_exact] and
    [bytesForChunkIndex_exact]. *)

Module NumberIntegrity.

Definition calculateTotalChunks (fileSize chunkSize : Js.number) : Js.number :=
  if Js.leb chunkSize (Js.ofZ 0) then Js.ofZ 0
  else Js.ceil (Double.div fileSize chunkSize).

Definition bytesForChunkIndex (chunkIndex chunkSize fileSize : Js.number)
    : Js.number :=
  let bytes :=
    Double.mul (Js.max (Js.ofZ 0) chunkIndex) (Js.max (Js.ofZ 0) chunkSize) in
  Js.min bytes (Js.max (Js.ofZ 0) fileSize).

End NumberIntegrity.

(** ** adaptive-chunk: the chunk size planner *)

Module AdaptiveChunk.

(** Chunk sizes and message limits are byte counts ([Z]); an RTT sample is a
    finite number of milliseconds, not necessarily an integer ([Q]), or
    [null]. *)

Definition MIN_CHUNK_SIZE_BYTES : Z := 16 * 1024.
Definition CHUNK_SIZE_STEP_BYTES : Z := 4 * 1024.
Definition MESSAGE_OVERHEAD_BYTES : Z := 1024.

Definition RTT_FAST_MS : Q := 60.
Definition RTT_MEDIUM_MS : Q := 140.
Definition RTT_SLOW_MS : Q := 280.

Inductive PlanReason : Set :=
| ReasonDefault
| ReasonRttAdaptive
| ReasonMaxMessageSize.

Record AdaptiveChunkPlan : Type := {
  chunkSize : Z;
  rttMs : option Q;
  messageLimit : option Z;
  reason : PlanReason
}.

Definition roundChunkSize (value : Z) : Z :=
  let rounded := value / CHUNK_SIZE_STEP_BYTES * CHUNK_SIZE_STEP_BYTES in
  Z.max MIN_CHUNK_SIZE_BYTES rounded.

(** [raw] is what the transport reports: absent, or any number. *)
Definition normalizeMaxMessageSize (raw : option Js.number) : option Z :=
  match raw with
  | Some (Js.Finite q) => if Qle_bool q 0 then None else Some (Qfloor q)
  | _ => None
  end.

(** [!maxMessageSize] holds for [null] and for the number 0. *)
Definition clampChunkSizeByMaxMessageSize
    (desiredChunkSize : Z) (maxMessageSize : option Z) : Z :=
  let desired := roundChunkSize desiredChunkSize in
  match maxMessageSize with
  | None => desired
  | Some m =>
      if m =? 0 then desired
      else
        let safeLimit := Z.max MIN_CHUNK_SIZE_BYTES (m - MESSAGE_OVERHEAD_BYTES) in
        Z.min desired (roundChunkSize safeLimit)
  end.

Definition chooseChunkSizeByRtt (baseChunkSize : Z) (rttMs : option Q) : Z :=
  match rttMs with
  | None => roundChunkSize baseChunkSize
  | Some rtt =>
      if Qle_bool rtt RTT_FAST_MS then roundChunkSize baseChunkSize
      else if Qle_bool rtt RTT_MEDIUM_MS then
        roundChunkSize (Z.min baseChunkSize (48 * 1024))
      else if Qle_bool rtt RTT_SLOW_MS then
        roundChunkSize (Z.min baseChunkSize (32 * 1024))
      else roundChunkSize (Z.min baseChunkSize MIN_CHUNK_SIZE_BYTES)
  end.

Definition buildAdaptiveChunkPlan
    (baseChunkSize : Z) (maxMessageSize : option Z) (rttMs : option Q)
    : AdaptiveChunkPlan :=
  let byRtt := chooseChunkSizeByRtt baseChunkSize rttMs in
  let byMessageLimit := clampChunkSizeByMaxMessageSize byRtt maxMessageSize in
  let reason :=
    match rttMs with
    | Some _ =>
        if negb (byRtt =? roundChunkSize baseChunkSize)
        then ReasonRttAdaptive else ReasonDefault
    | None => ReasonDefault
    end in
  let reason :=
    if byMessageLimit <? byRtt then ReasonMaxMessageSize else reason in
  {| chunkSize := byMessageLimit;
     rttMs := rttMs;
     messageLimit := maxMessageSize;
     reason := reason |}.

(** The policy in the words of the specification: a size rounded down to a
    multiple of 4 KiB and floored at 16 KiB ... *)
Definition flooredTo4KiB (v : Z) : Z := Z.max 16384 (4096 * (v / 4096)).

(** ... the RTT tier: no sample or at most 60 ms keeps the base, at most
    140 ms caps at 48 KiB, at most 280 ms caps at 32 KiB, above that caps
    at 16 KiB ... *)
Definition rttTieredSize (base : Z) (rtt : option Q) : Z :=
  match rtt with
  | None => flooredTo4KiB base
  | Some r =>
      if Qle_bool r 60 then flooredTo4KiB base
      else if Qle_bool r 140 then flooredTo4KiB (Z.min base 49152)
      else if Qle_bool r 280 then flooredTo4KiB (Z.min base 32768)
      else flooredTo4KiB (Z.min base 16384)
  end.

(** ... and the message limit: [maxMessageSize - 1024], rounded down to
    4 KiB and floored at 16 KiB. *)
Definition messageLimitSize (maxMessageSize : Z) : Z :=
  flooredTo4KiB (maxMessageSize - 1024).

End AdaptiveChunk.

(** ** send-queue: the serial send queue reducer *)

Module SendQueue.

(** The browser [File] handle, by the attributes the client reads. *)
Record File : Type := {
  fileName : string;
  fileSize : Z;
  fileType : string;
  lastModified : Z
}.

Inductive OutgoingQueueItemStatus : Set :=
| Queued
| Sending
| Completed
| Failed.

Definition statusEqb (a b : OutgoingQueueItemStatus) : bool :=
  match a, b with
  | Queued, Queued | Sending, Sending
  | Completed, Completed | Failed, Failed => true
  | _, _ => false
  end.

Record OutgoingQueueItem : Type := {
  id : string;
  file : File;
  status : OutgoingQueueItemStatus;
  sentBytes : Z;
  totalBytes : Z;
  progressPercent : Q;
  attempts : Z;
  errorMessage : option string;
  addedAt : Z;
  startedAt : option Z;
  finishedAt : option Z
}.

Record SendQueueState : Type := {
  items : list OutgoingQueueItem;
  activeItemId : option string;
  revision : Z
}.

Inductive SendQueueAction : Type :=
| Enqueue (newItems : list OutgoingQueueItem)
| MarkSending (itemId : string)
| UpdateProgress (itemId : string) (sent total : Z)
| MarkCompleted (itemId : string)
| MarkFailed (itemId : string) (message : string)
| Retry (itemId : string)
| Remove (itemId : string)
| ClearCompleted
| Reset.

Definition clampProgress (progress : Js.number) : Q :=
  match progress with
  | Js.Finite p => Qmax 0 (Qmin 100 p)
  | _ => 0%Q
  end.

(** [a === b] on [string | null] *)
Definition sameId (a b : option string) : bool :=
  match a, b with
  | None, None => true
  | Some x, Some y => String.eqb x y
  | _, _ => false
  end.

(** [items !== state.items] compares array identities.  [sameArray] says
    whether the caller passes the very array of the state; [map], [filter]
    and a spread always build a new one. *)
Definition withRevision (state : SendQueueState)
    (newItems : list OutgoingQueueItem) (sameArray : bool)
    (newActive : option string) : SendQueueState :=
  let itemsChanged := negb sameArray in
  let activeChanged := negb (sameId newActive (activeItemId state)) in
  if negb itemsChanged && negb activeChanged then state
  else {| items := newItems;
          activeItemId := newActive;
          revision := revision state + 1 |}.

Definition createInitialSendQueueState : SendQueueState :=
  {| items := []; activeItemId := None; revision := 0 |}.

Definition selectNextQueuedItem (state : SendQueueState)
    : option OutgoingQueueItem :=
  List.find (fun item => statusEqb (status item) Queued) (items state).

Definition hasQueuedItems (state : SendQueueState) : bool :=
  existsb (fun item => statusEqb (status item) Queued) (items state).

Definition hasId (itemId : string) (item : OutgoingQueueItem) : bool :=
  String.eqb (id item) itemId.

Definition markSendingItem (now : Z) (itemId : string)
    (item : OutgoingQueueItem) : OutgoingQueueItem :=
  if hasId itemId item then
    {| id := id item; file := file item;
       status := Sending;
       sentBytes := sentBytes item; totalBytes := totalBytes item;
       progressPercent := progressPercent item;
       attempts := attempts item + 1;
       errorMessage := None;
       addedAt := addedAt item;
       startedAt := Some now;
       finishedAt := None |}
  else if statusEqb (status item) Sending then
    {| id := id item; file := file item;
       status := Queued;
       sentBytes := sentBytes item; totalBytes := totalBytes item;
       progressPercent := progressPercent item;
       attempts := attempts item;
       errorMessage := None;
       addedAt := addedAt item;
       startedAt := None;
       finishedAt := None |}
  else item.

(** The byte counts of an action are integers; the percentage is computed
    in double precision, as the code computes it. *)
Definition updateProgressItem (itemId : string) (sent total : Z)
    (item : OutgoingQueueItem) : OutgoingQueueItem :=
  if negb (hasId itemId item) || negb (statusEqb (status item) Sending)
  then item
  else
    let normalizedTotalBytes := Z.max 0 total in
    let normalizedSentBytes := Z.max 0 (Z.min sent normalizedTotalBytes) in
    let percent :=
      if 0 <? normalizedTotalBytes then
        clampProgress
          (Double.mul
             (Double.div (Js.ofZ normalizedSentBytes)
                (Js.ofZ normalizedTotalBytes))
             (Js.ofZ 100))
      else 0%Q in
    {| id := id item; file := file item;
       status := status item;
       sentBytes := normalizedSentBytes;
       totalBytes := normalizedTotalBytes;
       progressPercent := percent;
       attempts := attempts item;
       errorMessage := errorMessage item;
       addedAt := addedAt item;
       startedAt := startedAt item;
       finishedAt := finishedAt item |}.

Definition markCompletedItem (now : Z) (itemId : string)
    (item : OutgoingQueueItem) : OutgoingQueueItem :=
  if negb (hasId itemId item) then item
  else
    {| id := id item; file := file item;
       status := Completed;
       sentBytes := totalBytes item;
       totalBytes := totalBytes item;
       progressPercent := 100;
       attempts := attempts item;
       errorMessage := None;
       addedAt := addedAt item;
       startedAt := startedAt item;
       finishedAt := Some now |}.

Definition markFailedItem (now : Z) (itemId message : string)
    (item : OutgoingQueueItem) : OutgoingQueueItem :=
  if negb (hasId itemId item) then item
  else
    {| id := id item; file := file item;
       status := Failed;
       sentBytes := sentBytes item; totalBytes := totalBytes item;
       progressPercent := progressPercent item;
       attempts := attempts item;
       errorMessage := Some message;
       addedAt := addedAt item;
       startedAt := startedAt item;
       finishedAt := Some now |}.

Definition retryMatches (itemId : string) (item : OutgoingQueueItem) : bool :=
  hasId itemId item && statusEqb (status item) Failed.

Definition retryItem (itemId : string)
    (item : OutgoingQueueItem) : OutgoingQueueItem :=
  if negb (retryMatches itemId item) then item
  else
    {| id := id item; file := file item;
       status := Queued;
       sentBytes := 0; totalBytes := totalBytes item;
       progressPercent := 0;
       attempts := attempts item;
       errorMessage := None;
       addedAt := addedAt item;
       startedAt := None;
       finishedAt := None |}.

(** [state.activeItemId === itemId ? null : state.activeItemId] *)
Definition releaseActive (state : SendQueueState) (itemId : string)
    : option string :=
  if sameId (activeItemId state) (Some itemId) then None
  else activeItemId state.

Definition sendQueueReducer (now : Z) (state : SendQueueState)
    (action : SendQueueAction) : SendQueueState :=
  match action with
  | Enqueue newItems =>
      if (Z.of_nat (length newItems) =? 0) then state
      else withRevision state (items state ++ newItems) false
             (activeItemId state)
  | MarkSending itemId =>
      let found := existsb (hasId itemId) (items state) in
      let mapped := map (markSendingItem now itemId) (items state) in
      if negb found then state
      else withRevision state mapped false (Some itemId)
  | UpdateProgress itemId sent total =>
      let mapped := map (updateProgressItem itemId sent total) (items state) in
      withRevision state mapped false (activeItemId state)
  | MarkCompleted itemId =>
      let found := existsb (hasId itemId) (items state) in
      let mapped := map (markCompletedItem now itemId) (items state) in
      if negb found then state
      else withRevision state mapped false (releaseActive state itemId)
  | MarkFailed itemId message =>
      let found := existsb (hasId itemId) (items state) in
      let mapped := map (markFailedItem now itemId message) (items state) in
      if negb found then state
      else withRevision state mapped false (releaseActive state itemId)
  | Retry itemId =>
      let found := existsb (retryMatches itemId) (items state) in
      let mapped := map (retryItem itemId) (items state) in
      if negb found then state
      else withRevision state mapped false (activeItemId state)
  | Remove itemId =>
      match List.find (hasId itemId) (items state) with
      | None => state
      | Some target =>
          if statusEqb (status target) Sending then state
          else
            let kept :=
              List.filter (fun item => negb (hasId itemId item)) (items state) in
            withRevision state kept false (releaseActive state itemId)
      end
  | ClearCompleted =>
      let kept :=
        List.filter (fun item => negb (statusEqb (status item) Completed))
          (items state) in
      if Z.of_nat (length kept) =? Z.of_nat (length (items state)) then state
      else withRevision state kept false (activeItemId state)
  | Reset =>
      if (Z.of_nat (length (items state)) =? 0)
         && sameId (activeItemId state) None
      then state
      else {| items := []; activeItemId := None;
              revision := revision state + 1 |}
  end.

(** The number of items being sent, as [getSendQueueSummary] counts them. *)
Definition sendingCount (queue : list OutgoingQueueItem) : nat :=
  length (List.filter (fun item => statusEqb (status item) Sending) queue).

(** The states reached from the initial one by any
    actions whatever. *)
Inductive reachable : SendQueueState -> Prop :=
| reachable_initial : reachable createInitialSendQueueState
| reachable_step now state action :
    reachable state -> reachable (sendQueueReducer now state action).

(** An [enqueue] as the client issues it: the new items are not being sent
    and their ids are new to the queue and pairwise distinct. *)
Definition freshEnqueue (state : SendQueueState)
    (action : SendQueueAction) : Prop :=
  match action with
  | Enqueue newItems =>
      Forall (fun item => status item <> Sending) newItems /\
      NoDup (map id (items state ++ newItems))
  | _ => True
  end.

Inductive reachableFresh : SendQueueState -> Prop :=
| reachableFresh_initial : reachableFresh createInitialSendQueueState
| reachableFresh_step now state action :
    reachableFresh state -> freshEnqueue state action ->
    reachableFresh (sendQueueReducer now state action).

(** The queue invariant: ids are pairwise distinct and at most one item
    is being sent. *)
Definition queueInvariant (state : SendQueueState) : Prop :=
  NoDup (map id (items state)) /\ (sendingCount (items state) <= 1)%nat.


(** *** Creating items, and the summary shown to the user *)

Record SendQueueSummary : Type := {
  total : Z;
  queued : Z;
  sending : Z;
  completed : Z;
  failed : Z
}.

(** One round of the [for] loop of [getSendQueueSummary]. *)
Definition countItem (summary : SendQueueSummary) (item : OutgoingQueueItem)
    : SendQueueSummary :=
  let bump (counted : OutgoingQueueItemStatus) (count : Z) : Z :=
    if statusEqb (status item) counted then count + 1 else count in
  {| total := total summary;
     queued := bump Queued (queued summary);
     sending := bump Sending (sending summary);
     completed := bump Completed (completed summary);
     failed := bump Failed (failed summary) |}.

Definition getSendQueueSummary (state : SendQueueState) : SendQueueSummary :=
  fold_left countItem (items state)
    {| total := Z.of_nat (length (items state));
       queued := 0; sending := 0; completed := 0; failed := 0 |}.

(** Each file comes with the id that [createQueueItemId] returns for it
    (a timestamp and a random number). *)
Definition createOutgoingQueueItems (now : Z) (files : list (string * File))
    : list OutgoingQueueItem :=
  imap
    (fun index entry =>
       {| id := fst entry;
          file := snd entry;
          status := Queued;
          sentBytes := 0;
          totalBytes := fileSize (snd entry);
          progressPercent := 0;
          attempts := 0;
          errorMessage := None;
          addedAt := now + Z.of_nat index;
          startedAt := None;
          finishedAt := None |})
    files.

(** [activeItemId] names the item that is being sent, and nothing else. *)
Definition activeIsSending (state : SendQueueState) : Prop :=
  forall itemId,
    activeItemId state = Some itemId <->
    exists item, In item (items state) /\ id item = itemId /\
                 status item = Sending.

End SendQueue.

(** ** structured-event: the event envelope *)

Module StructuredEvent.

Definition STRUCTURED_EVENT_KIND : string := "peershare.event".
Definition STRUCTURED_EVENT_VERSION : Js.number := Js.ofZ 1.

Record StructuredEventEnvelope : Type := {
  kind : string;
  version : Js.number;
  event : string;
  timestamp : Js.number;
  payload : gmap string Js.value
}.

(** The [timestamp = Date.now()] default is left to the caller. *)
Definition createStructuredEventEnvelope (eventName : string)
    (eventPayload : gmap string Js.value) (time : Js.number)
    : StructuredEventEnvelope :=
  {| kind := STRUCTURED_EVENT_KIND;
     version := STRUCTURED_EVENT_VERSION;
     event := eventName;
     timestamp := time;
     payload := eventPayload |}.

(** The envelope object seen as an untyped value. *)
Definition envelopeValue (envelope : StructuredEventEnvelope) : Js.value :=
  Js.VObject
    (<["kind" := Js.VString (kind envelope)]>
       (<["version" := Js.VNumber (version envelope)]>
          (<["event" := Js.VString (event envelope)]>
             (<["timestamp" := Js.VNumber (timestamp envelope)]>
                (<["payload" := Js.VObject (payload envelope)]> ∅))))).

(** The first [if] of the parser: the standard envelope. *)
Definition standardEnvelope (raw : gmap string Js.value)
    : option StructuredEventEnvelope :=
  match Js.get raw "kind", Js.get raw "version", Js.get raw "event",
        Js.get raw "timestamp", Js.get raw "payload" with
  | Js.VString k, Js.VNumber v, Js.VString e, Js.VNumber t, Js.VObject p =>
      if String.eqb k STRUCTURED_EVENT_KIND
         && Js.eqb v STRUCTURED_EVENT_VERSION
         && Js.isFinite t
      then Some {| kind := k; version := v; event := e;
                   timestamp := t; payload := p |}
      else None
  | _, _, _, _, _ => None
  end.

(** The second [if]: the historical shape [{ event, timestamp, ...payload }]. *)
Definition legacyEnvelope (raw : gmap string Js.value)
    : option StructuredEventEnvelope :=
  match Js.get raw "event", Js.get raw "timestamp" with
  | Js.VString e, Js.VNumber t =>
      if Js.isFinite t then
        let legacyPayload := delete "timestamp" (delete "event" raw) in
        Some (createStructuredEventEnvelope e legacyPayload t)
      else None
  | _, _ => None
  end.

Definition parseStructuredEventEnvelope (raw : Js.value)
    : option StructuredEventEnvelope :=
  match raw with
  | Js.VObject fields =>
      match standardEnvelope fields with
      | Some envelope => Some envelope
      | None => legacyEnvelope fields
      end
  | _ => None
  end.

End StructuredEvent.

(** ** common/types: the wire description of a file *)

Module Types.

Record FileMetadata : Type := {
  id : string;
  name : string;
  size : Z;
  type : string;
  totalChunks : Z;
  chunkSize : Z;
  uploadId : option string;
  protocolVersion : option Z;
  fileChecksum : option string;
  fingerprint : option string
}.

(** [a || b] on an optional string and a string *)
Definition orElse (a : option string) (b : string) : string :=
  match a with
  | Some s => if String.eqb s "" then b else s
  | None => b
  end.

End Types.

(** ** transfer-store: sessions and chunks in IndexedDB *)

Module TransferStore.

Inductive PersistedTransferDirection : Set :=
| Incoming
| Outgoing.

Definition directionName (direction : PersistedTransferDirection) : string :=
  match direction with
  | Incoming => "incoming"
  | Outgoing => "outgoing"
  end.

Inductive PersistedTransferStatus : Set :=
| Active
| Completed
| Failed.

Definition statusEqb (a b : PersistedTransferStatus) : bool :=
  match a, b with
  | Active, Active | Completed, Completed | Failed, Failed => true
  | _, _ => false
  end.

Record PersistedTransferSession : Type := {
  sessionKey : string;
  direction : PersistedTransferDirection;
  status : PersistedTransferStatus;
  uploadId : string;
  fileId : string;
  fileName : string;
  fileType : string;
  fileSize : Z;
  chunkSize : Z;
  totalChunks : Z;
  nextChunkIndex : Z;
  bytesTransferred : Z;
  remotePeerId : string;
  fingerprint : option string;
  fileChecksum : option string;
  createdAt : Z;
  updatedAt : Z
}.

(** The chunk record; its [uploadId], [chunkIndex] and [updatedAt] are
    prefixed so that they do not clash with the session's. *)
Record PersistedChunkRecord : Type := {
  chunkUploadId : string;
  chunkIndex : Z;
  data : list byte;
  checksum : string;
  chunkSizeBytes : Z;
  chunkUpdatedAt : Z
}.

Definition MAX_SAFE_INTEGER : Z := 2 ^ 53 - 1.

Definition createTransferSessionKey
    (direction : PersistedTransferDirection) (uploadId : string) : string :=
  String.append (directionName direction) (String.append ":" uploadId).

(** The database: whether IndexedDB exists in the runtime, the session
    store keyed by [sessionKey] and the chunk store keyed by
    [[uploadId, chunkIndex]]. *)
Record TransferStore : Type := {
  supported : bool;
  sessions : gmap string PersistedTransferSession;
  chunks : gmap (string * Z) PersistedChunkRecord
}.

Definition isSupported (store : TransferStore) : bool := supported store.

Definition putSession (store : TransferStore)
    (session : PersistedTransferSession) : TransferStore :=
  if negb (isSupported store) then store
  else {| supported := supported store;
          sessions := <[sessionKey session := session]> (sessions store);
          chunks := chunks store |}.

Definition getSession (store : TransferStore) (key : string)
    : option PersistedTransferSession :=
  if negb (isSupported store) then None
  else sessions store !! key.

(** [index("by_upload_id").getAll(uploadId)], in key order. *)
Definition getSessionsByUploadId (store : TransferStore) (upload : string)
    : list PersistedTransferSession :=
  if negb (isSupported store) then []
  else
    List.filter (fun session => String.eqb (uploadId session) upload)
      (map snd (map_to_list (sessions store))).

Definition putChunk (now : Z) (store : TransferStore) (upload : string)
    (index : Z) (bytes : list byte) (sum : string) : TransferStore :=
  if negb (isSupported store) then store
  else
    let record :=
      {| chunkUploadId := upload;
         chunkIndex := index;
         data := bytes;
         checksum := sum;
         chunkSizeBytes := Z.of_nat (length bytes);
         chunkUpdatedAt := now |} in
    {| supported := supported store;
       sessions := sessions store;
       chunks := <[(upload, index) := record]> (chunks store) |}.

Definition getChunk (store : TransferStore) (upload : string) (index : Z)
    : option PersistedChunkRecord :=
  if negb (isSupported store) then None
  else chunks store !! (upload, index).

(** [IDBKeyRange.bound([uploadId, lower], [uploadId, MAX_SAFE_INTEGER])] *)
Definition inKeyRange (upload : string) (lower : Z) (key : string * Z) : bool :=
  String.eqb (fst key) upload
  && (lower <=? snd key) && (snd key <=? MAX_SAFE_INTEGER).

(** The records a cursor over the upload's key range visits.  The cursor
    visits them by ascending key; the list here has them in the order of
    the map, and only its members are used below. *)
Definition getChunks (store : TransferStore) (upload : string)
    : list PersistedChunkRecord :=
  if negb (isSupported store) then []
  else
    map snd
      (List.filter (fun entry => inKeyRange upload 0 (fst entry))
         (map_to_list (chunks store))).

Definition getChunkCount (store : TransferStore) (upload : string) : Z :=
  if negb (isSupported store) then 0
  else
    Z.of_nat
      (length
         (List.filter (fun entry => inKeyRange upload 0 (fst entry))
            (map_to_list (chunks store)))).

(** The [while (contiguous < totalChunks)] loop; it runs at most
    [totalChunks] times, which [remaining] counts down. *)
Fixpoint contiguousFrom (store : TransferStore) (upload : string)
    (contiguous : Z) (remaining : nat) : Z :=
  match remaining with
  | O => contiguous
  | S rest =>
      match getChunk store upload contiguous with
      | None => contiguous
      | Some _ => contiguousFrom store upload (contiguous + 1) rest
      end
  end.

Definition getContiguousChunkCount (store : TransferStore) (upload : string)
    (total : Z) : Z :=
  contiguousFrom store upload 0 (Z.to_nat total).

(** Deleting under a cursor over a key range. *)
Definition deleteKeyRange (upload : string) (lower : Z)
    (table : gmap (string * Z) PersistedChunkRecord)
    : gmap (string * Z) PersistedChunkRecord :=
  filter (fun entry => inKeyRange upload lower (fst entry) = false) table.

Definition deleteChunksFrom (store : TransferStore) (upload : string)
    (fromChunk : Z) : TransferStore :=
  if negb (isSupported store) then store
  else {| supported := supported store;
          sessions := sessions store;
          chunks := deleteKeyRange upload (Z.max 0 fromChunk) (chunks store) |}.

Definition deleteUpload (store : TransferStore) (upload : string)
    : TransferStore :=
  if negb (isSupported store) then store
  else
    let stale := getSessionsByUploadId store upload in
    {| supported := supported store;
       sessions :=
         fold_left (fun table session => delete (sessionKey session) table)
           stale (sessions store);
       chunks := deleteKeyRange upload 0 (chunks store) |}.


(** *** Looking up a session to resume, and pruning *)

(** [candidates.sort((a, b) => b.updatedAt - a.updatedAt)]: the sort is
    stable, most recently updated first. *)
Fixpoint insertByUpdatedAt (session : PersistedTransferSession)
    (sorted : list PersistedTransferSession) : list PersistedTransferSession :=
  match sorted with
  | [] => [session]
  | head :: rest =>
      if updatedAt head <? updatedAt session then session :: sorted
      else head :: insertByUpdatedAt session rest
  end.

Definition sortByUpdatedAt (candidates : list PersistedTransferSession)
    : list PersistedTransferSession :=
  fold_left (fun sorted session => insertByUpdatedAt session sorted)
    candidates [].

Definition hasFingerprint (print : string)
    (session : PersistedTransferSession) : bool :=
  match fingerprint session with
  | Some held => String.eqb held print
  | None => false
  end.

Definition isResumeCandidate (session : PersistedTransferSession) : bool :=
  match direction session with
  | Outgoing => negb (statusEqb (status session) Completed)
  | Incoming => false
  end.

(** [index("by_fingerprint").getAll(fingerprint)], then the choice among
    what it returns.  [getAll] lists the sessions by key, the map in its
    own order: among candidates with the same [updatedAt] the session
    chosen here may be another one than the code's. *)
Definition findOutgoingSessionByFingerprint (store : TransferStore)
    (print remote : string) : option PersistedTransferSession :=
  if negb (isSupported store) || String.eqb print EmptyString then None
  else
    let matched :=
      List.filter (hasFingerprint print)
        (map snd (map_to_list (sessions store))) in
    let candidates := sortByUpdatedAt (List.filter isResumeCandidate matched) in
    match candidates with
    | [] => None
    | first :: _ =>
        match
          List.find (fun item => String.eqb (remotePeerId item) remote)
            candidates
        with
        | Some samePeer => Some samePeer
        | None => Some first
        end
    end.

(** [staleUploads.add(uploadId)] on a [Set], which keeps the order of the
    first insertions. *)
Definition addUpload (uploads : list string) (upload : string) : list string :=
  if existsb (String.eqb upload) uploads then uploads else uploads ++ [upload].

Definition staleUploads (now maxAgeMs : Z)
    (allSessions : list PersistedTransferSession) : list string :=
  fold_left
    (fun uploads session =>
       if maxAgeMs <? now - updatedAt session
       then addUpload uploads (uploadId session) else uploads)
    allSessions [].

Definition pruneStaleSessions (now : Z) (store : TransferStore)
    (maxAgeMs : Z) : TransferStore :=
  if negb (isSupported store) then store
  else
    fold_left deleteUpload
      (staleUploads now maxAgeMs (map snd (map_to_list (sessions store))))
      store.

(** The order that the sort establishes. *)
Definition newerFirst (a b : PersistedTransferSession) : Prop :=
  updatedAt b <= updatedAt a.

(** The session store has [sessionKey] as its key path: every session is
    stored under its own key. *)
Definition keyedBySessionKey (store : TransferStore) : Prop :=
  forall key session,
    sessions store !! key = Some session -> sessionKey session = key.

End TransferStore.

(** ** transfer-finalizer: reassembling a received file *)

Module Finalizer.
Import Types.

Inductive FinalizeStorageMode : Set :=
| Opfs
| Memory.

Record Blob : Type := {
  blobBytes : list byte;
  blobType : string
}.

Inductive FinalizeFromStoreResult : Type :=
| MissingChunk (missingChunk : Z)
| ChecksumMismatch (fileChecksum : string)
| Success (blob : Blob) (fileChecksum : string)
          (storageMode : FinalizeStorageMode).

(** A chunk sink with what it holds: the chunks written so far (the
    in-memory array, or the temporary OPFS file), whether it was closed and
    whether it was aborted. *)
Record ChunkSink : Type := {
  mode : FinalizeStorageMode;
  sinkType : string;
  written : list (list byte);
  closed : bool;
  aborted : bool
}.

Definition createInMemoryChunkSink (mimeType : string) : ChunkSink :=
  {| mode := Memory; sinkType := mimeType; written := [];
     closed := false; aborted := false |}.

(** [opfs] is [None] when the runtime has no origin-private file system
    (or opening the temporary file fails), and [Some t] when it has one
    that reports the finished file with type [t]. *)
Definition createOpfsChunkSink (opfs : option string) (upload : string)
    : option ChunkSink :=
  match opfs with
  | None => None
  | Some reportedType =>
      Some {| mode := Opfs; sinkType := reportedType; written := [];
              closed := false; aborted := false |}
  end.

Definition sinkWrite (sink : ChunkSink) (chunk : list byte) : ChunkSink :=
  {| mode := mode sink; sinkType := sinkType sink;
     written := written sink ++ [chunk];
     closed := closed sink; aborted := aborted sink |}.

(** [new Blob(parts, { type })] keeps a type made of the characters
    U+0020..U+007E, in lower case, and takes the empty string for any other
    type.  A string is the sequence of its UTF-8 bytes, so a character
    outside that range shows as a byte outside it. *)
Definition isPrintable (c : ascii) : bool :=
  let code := N_of_ascii c in (32 <=? code)%N && (code <=? 126)%N.

Definition toLowerCase (c : ascii) : ascii :=
  let code := N_of_ascii c in
  if (65 <=? code)%N && (code <=? 90)%N then ascii_of_N (code + 32) else c.

Definition blobTypeOf (type : string) : string :=
  if forallb isPrintable (list_ascii_of_string type)
  then string_of_list_ascii (map toLowerCase (list_ascii_of_string type))
  else EmptyString.

(** The memory sink builds a [Blob] of its type; the OPFS sink hands over
    the [File] of its handle, with the type that the file system reports. *)
Definition sinkClose (sink : ChunkSink) : Blob * ChunkSink :=
  ({| blobBytes := concat (written sink);
      blobType := match mode sink with
                  | Memory => blobTypeOf (sinkType sink)
                  | Opfs => sinkType sink
                  end |},
   {| mode := mode sink; sinkType := sinkType sink;
      written := written sink; closed := true; aborted := aborted sink |}).

(** The memory sink empties its array, the OPFS sink removes its file. *)
Definition sinkAbort (sink : ChunkSink) : ChunkSink :=
  {| mode := mode sink; sinkType := sinkType sink;
     written := []; closed := closed sink; aborted := true |}.

(** The [for] loop from index [i], with [remaining] iterations to go.  It
    stops at the first index without a chunk. *)
Fixpoint readChunks (store : TransferStore.TransferStore) (upload : string)
    (i : Z) (remaining : nat) (sink : ChunkSink) (chunkChecksums : list string)
    : option Z * ChunkSink * list string :=
  match remaining with
  | O => (None, sink, chunkChecksums)
  | S rest =>
      match TransferStore.getChunk store upload i with
      | None => (Some i, sink, chunkChecksums)
      | Some chunk =>
          readChunks store upload (i + 1) rest
            (sinkWrite sink (TransferStore.data chunk))
            (chunkChecksums ++ [TransferStore.checksum chunk])
      end
  end.

Section Finalize.

Variable subtleDigest : option (list byte -> list byte).
Variable opfs : option string.

(** The result, and the sink as the call leaves it. *)
Definition finalizeIncomingTransferFromStore
    (transferStore : TransferStore.TransferStore) (upload : string)
    (metadata : FileMetadata) (expectedChecksum : option string)
    : FinalizeFromStoreResult * ChunkSink :=
  let sink :=
    match createOpfsChunkSink opfs upload with
    | Some opfsSink => opfsSink
    | None => createInMemoryChunkSink (type metadata)
    end in
  match readChunks transferStore upload 0
          (Z.to_nat (totalChunks metadata)) sink [] with
  | (Some i, sink, _) => (MissingChunk i, sinkAbort sink)
  | (None, sink, chunkChecksums) =>
      let fileChecksum :=
        Integrity.deriveFileChecksumFromChunkChecksums subtleDigest
          chunkChecksums in
      let mismatch :=
        match expectedChecksum with
        | Some expected =>
            negb (String.eqb expected "")
            && negb (String.eqb fileChecksum expected)
        | None => false
        end in
      if mismatch then (ChecksumMismatch fileChecksum, sinkAbort sink)
      else
        let (blob, sink) := sinkClose sink in
        (Success blob fileChecksum (mode sink), sink)
  end.

End Finalize.

(** What the store holds for an upload, by index: used to state what the
    finalizer computes. *)
Definition checksumAt (store : TransferStore.TransferStore)
    (upload : string) (i : Z) : string :=
  match TransferStore.getChunk store upload i with
  | Some chunk => TransferStore.checksum chunk
  | None => EmptyString
  end.

Definition dataAt (store : TransferStore.TransferStore)
    (upload : string) (i : Z) : list byte :=
  match TransferStore.getChunk store upload i with
  | Some chunk => TransferStore.data chunk
  | None => []
  end.

Definition storedChecksums (store : TransferStore.TransferStore)
    (upload : string) (total : Z) : list string :=
  map (checksumAt store upload) (seqZ 0 total).

Definition storedBytes (store : TransferStore.TransferStore)
    (upload : string) (total : Z) : list byte :=
  concat (map (dataAt store upload) (seqZ 0 total)).

End Finalizer.

(** ** webrtc, webrtc-transfer: the receive side of the transfer engine *)

Module Transfer.

Definition MIN_CHUNK_SIZE : Z := 16 * 1024.
Definition MEMORY_GUARD_THRESHOLD_BYTES : Z := 256 * 1024 * 1024.

Inductive ReadyState : Set :=
| Connecting
| Open
| Closing
| Closed.

(** A control message, before [JSON.stringify]. *)
Inductive TransferMessage : Type :=
| FileOffer (offered : Types.FileMetadata)
| ReceiverReady (fileId uploadId : string) (resumeFromChunk : Z)
| TransferComplete (fileId uploadId checksum : string)
| TransferError (fileId code message : string)
| RequestRetransmit (fileId uploadId : string) (fromChunk : Z)
                    (reason : string).

Inductive Frame : Type :=
| Control (message : TransferMessage)
| Binary (bytes : list byte).

(** The data channel: its state and what was sent over it, oldest first. *)
Record DataChannel : Type := {
  readyState : ReadyState;
  sentFrames : list Frame
}.

(** The runtime state of one incoming file.  The [writeQueue] promise only
    orders the chunk handlers and has no counterpart here. *)
Record IncomingTransferState : Type := {
  metadata : Types.FileMetadata;
  receivedChunks : Z;
  bytesReceived : Z;
  expectedChunkIndex : Z;
  ready : bool;
  uploadId : string;
  expectedFileChecksum : option string;
  chunkChecksums : list (option string);
  hasPersistenceError : bool
}.

(** The fields of [P2PConnection] that the receive side reads or writes,
    with the calls of [callbacks.onFileOffer] and the names of the
    structured events written to the console, oldest first. *)
Record P2PConnection : Type := {
  dataChannel : option DataChannel;
  remotePeerId : string;
  currentReceivingFileId : option string;
  incomingTransfers : gmap string IncomingTransferState;
  inMemoryIncomingChunks : gmap string (list (option (list byte)));
  transferStore : TransferStore.TransferStore;
  fileOffers : list Types.FileMetadata;
  console : list string
}.

Definition withDataChannel (conn : P2PConnection)
    (channel : option DataChannel) : P2PConnection :=
  {| dataChannel := channel;
     remotePeerId := remotePeerId conn;
     currentReceivingFileId := currentReceivingFileId conn;
     incomingTransfers := incomingTransfers conn;
     inMemoryIncomingChunks := inMemoryIncomingChunks conn;
     transferStore := transferStore conn;
     fileOffers := fileOffers conn;
     console := console conn |}.

Definition withCurrentReceivingFileId (conn : P2PConnection)
    (current : option string) : P2PConnection :=
  {| dataChannel := dataChannel conn;
     remotePeerId := remotePeerId conn;
     currentReceivingFileId := current;
     incomingTransfers := incomingTransfers conn;
     inMemoryIncomingChunks := inMemoryIncomingChunks conn;
     transferStore := transferStore conn;
     fileOffers := fileOffers conn;
     console := console conn |}.

Definition withIncomingTransfers (conn : P2PConnection)
    (transfers : gmap string IncomingTransferState) : P2PConnection :=
  {| dataChannel := dataChannel conn;
     remotePeerId := remotePeerId conn;
     currentReceivingFileId := currentReceivingFileId conn;
     incomingTransfers := transfers;
     inMemoryIncomingChunks := inMemoryIncomingChunks conn;
     transferStore := transferStore conn;
     fileOffers := fileOffers conn;
     console := console conn |}.

Definition withInMemoryIncomingChunks (conn : P2PConnection)
    (buffers : gmap string (list (option (list byte)))) : P2PConnection :=
  {| dataChannel := dataChannel conn;
     remotePeerId := remotePeerId conn;
     currentReceivingFileId := currentReceivingFileId conn;
     incomingTransfers := incomingTransfers conn;
     inMemoryIncomingChunks := buffers;
     transferStore := transferStore conn;
     fileOffers := fileOffers conn;
     console := console conn |}.

Definition withTransferStore (conn : P2PConnection)
    (store : TransferStore.TransferStore) : P2PConnection :=
  {| dataChannel := dataChannel conn;
     remotePeerId := remotePeerId conn;
     currentReceivingFileId := currentReceivingFileId conn;
     incomingTransfers := incomingTransfers conn;
     inMemoryIncomingChunks := inMemoryIncomingChunks conn;
     transferStore := store;
     fileOffers := fileOffers conn;
     console := console conn |}.

(** [callbacks.onFileOffer(metadata)] *)
Definition onFileOffer (conn : P2PConnection)
    (offered : Types.FileMetadata) : P2PConnection :=
  {| dataChannel := dataChannel conn;
     remotePeerId := remotePeerId conn;
     currentReceivingFileId := currentReceivingFileId conn;
     incomingTransfers := incomingTransfers conn;
     inMemoryIncomingChunks := inMemoryIncomingChunks conn;
     transferStore := transferStore conn;
     fileOffers := fileOffers conn ++ [offered];
     console := console conn |}.

(** [console.log(stringifyStructuredEvent({ event, ... }))] *)
Definition logEvent (conn : P2PConnection) (eventName : string)
    : P2PConnection :=
  {| dataChannel := dataChannel conn;
     remotePeerId := remotePeerId conn;
     currentReceivingFileId := currentReceivingFileId conn;
     incomingTransfers := incomingTransfers conn;
     inMemoryIncomingChunks := inMemoryIncomingChunks conn;
     transferStore := transferStore conn;
     fileOffers := fileOffers conn;
     console := console conn ++ [eventName] |}.

Definition isDataChannelReady (conn : P2PConnection) : bool :=
  match dataChannel conn with
  | Some channel =>
      match readyState channel with
      | Open => true
      | _ => false
      end
  | None => false
  end.

(** What went out over the data channel so far. *)
Definition sent (conn : P2PConnection) : list Frame :=
  match dataChannel conn with
  | Some channel => sentFrames channel
  | None => []
  end.

(** [this.dataChannel!.send(frame)]; every caller has checked the channel. *)
Definition channelSend (conn : P2PConnection) (frame : Frame)
    : P2PConnection :=
  match dataChannel conn with
  | Some channel =>
      withDataChannel conn
        (Some {| readyState := readyState channel;
                 sentFrames := sentFrames channel ++ [frame] |})
  | None => conn
  end.

Definition sendTransferError (conn : P2PConnection)
    (fileId code message : string) : P2PConnection :=
  if negb (isDataChannelReady conn) then conn
  else channelSend conn (Control (TransferError fileId code message)).

Definition markReady (transfer : IncomingTransferState)
    : IncomingTransferState :=
  {| metadata := metadata transfer;
     receivedChunks := receivedChunks transfer;
     bytesReceived := bytesReceived transfer;
     expectedChunkIndex := expectedChunkIndex transfer;
     ready := true;
     uploadId := uploadId transfer;
     expectedFileChecksum := expectedFileChecksum transfer;
     chunkChecksums := chunkChecksums transfer;
     hasPersistenceError := hasPersistenceError transfer |}.

Definition sendReceiverReady (conn : P2PConnection)
    (fileId upload : string) (resumeFromChunk : Z) : P2PConnection :=
  if negb (isDataChannelReady conn) then conn
  else
    let conn :=
      withIncomingTransfers conn
        (alter markReady fileId (incomingTransfers conn)) in
    let conn :=
      channelSend conn (Control (ReceiverReady fileId upload resumeFromChunk)) in
    logEvent conn "transfer_receiver_ready_sent".

Definition getUploadId (meta : Types.FileMetadata) : string :=
  Types.orElse (Types.uploadId meta) (Types.id meta).

Definition buildPersistedSession (now : Z)
    (direction : TransferStore.PersistedTransferDirection)
    (meta : Types.FileMetadata) (remote : string)
    (status : TransferStore.PersistedTransferStatus)
    (nextChunkIndex bytesTransferred : Z)
    (fingerprint fileChecksum : option string)
    : TransferStore.PersistedTransferSession :=
  let upload := getUploadId meta in
  {| TransferStore.sessionKey :=
       TransferStore.createTransferSessionKey direction upload;
     TransferStore.direction := direction;
     TransferStore.status := status;
     TransferStore.uploadId := upload;
     TransferStore.fileId := Types.id meta;
     TransferStore.fileName := Types.name meta;
     TransferStore.fileType := Types.type meta;
     TransferStore.fileSize := Types.size meta;
     TransferStore.chunkSize := Types.chunkSize meta;
     TransferStore.totalChunks := Types.totalChunks meta;
     TransferStore.nextChunkIndex := nextChunkIndex;
     TransferStore.bytesTransferred := bytesTransferred;
     TransferStore.remotePeerId := remote;
     TransferStore.fingerprint := fingerprint;
     TransferStore.fileChecksum := fileChecksum;
     TransferStore.createdAt := now;
     TransferStore.updatedAt := now |}.

Definition withCreatedAt (session : TransferStore.PersistedTransferSession)
    (created : Z) : TransferStore.PersistedTransferSession :=
  {| TransferStore.sessionKey := TransferStore.sessionKey session;
     TransferStore.direction := TransferStore.direction session;
     TransferStore.status := TransferStore.status session;
     TransferStore.uploadId := TransferStore.uploadId session;
     TransferStore.fileId := TransferStore.fileId session;
     TransferStore.fileName := TransferStore.fileName session;
     TransferStore.fileType := TransferStore.fileType session;
     TransferStore.fileSize := TransferStore.fileSize session;
     TransferStore.chunkSize := TransferStore.chunkSize session;
     TransferStore.totalChunks := TransferStore.totalChunks session;
     TransferStore.nextChunkIndex := TransferStore.nextChunkIndex session;
     TransferStore.bytesTransferred := TransferStore.bytesTransferred session;
     TransferStore.remotePeerId := TransferStore.remotePeerId session;
     TransferStore.fingerprint := TransferStore.fingerprint session;
     TransferStore.fileChecksum := TransferStore.fileChecksum session;
     TransferStore.createdAt := created;
     TransferStore.updatedAt := TransferStore.updatedAt session |}.

(** [option ?? existing?.field] *)
Definition nullish (supplied : option string)
    (existing : option TransferStore.PersistedTransferSession)
    (field : TransferStore.PersistedTransferSession -> option string)
    : option string :=
  match supplied with
  | Some given => Some given
  | None =>
      match existing with
      | Some session => field session
      | None => None
      end
  end.

(** [options] is the pair of its optional [fingerprint] and [fileChecksum]. *)
Definition upsertPersistedSession (now : Z) (conn : P2PConnection)
    (direction : TransferStore.PersistedTransferDirection)
    (meta : Types.FileMetadata)
    (status : TransferStore.PersistedTransferStatus)
    (nextChunkIndex bytesTransferred : Z)
    (optionFingerprint optionFileChecksum : option string) : P2PConnection :=
  if negb (TransferStore.isSupported (transferStore conn)) then conn
  else
    let existing :=
      TransferStore.getSession (transferStore conn)
        (TransferStore.createTransferSessionKey direction (getUploadId meta)) in
    let session :=
      buildPersistedSession now direction meta (remotePeerId conn) status
        nextChunkIndex bytesTransferred
        (nullish optionFingerprint existing TransferStore.fingerprint)
        (nullish optionFileChecksum existing TransferStore.fileChecksum) in
    let session :=
      match existing with
      | Some old => withCreatedAt session (TransferStore.createdAt old)
      | None => session
      end in
    withTransferStore conn
      (TransferStore.putSession (transferStore conn) session).

(** The metadata of a [file-offer] as it arrives: the three fields that the
    handler checks are of unknown type, the others are as the interface
    declares them. *)
Record FileOfferMetadata : Type := {
  offerId : Js.value;
  offerName : string;
  offerSize : Js.value;
  offerType : string;
  offerTotalChunks : Z;
  offerChunkSize : Js.value;
  offerUploadId : option string;
  offerProtocolVersion : option Z;
  offerFileChecksum : option string;
  offerFingerprint : option string
}.

(** The integer that a number is, if it is one. *)
Definition toInteger (x : Js.number) : option Z :=
  match x with
  | Js.Finite q =>
      if Qeq_bool q (inject_Z (Qfloor q)) then Some (Qfloor q) else None
  | _ => None
  end.

(** The body of [handleIncomingFileOffer] after its two validation steps,
    for an offer with file id [fileId], [chunkSize] and [size]. *)
Definition acceptFileOffer (now : Z) (conn : P2PConnection)
    (offer : FileOfferMetadata) (fileId : string) (chunkSize size : Z)
    : P2PConnection :=
  let upload := Types.orElse (offerUploadId offer) fileId in
  let total := Integrity.calculateTotalChunks size chunkSize in
  let normalizedMetadata :=
    {| Types.id := fileId;
       Types.name := offerName offer;
       Types.size := size;
       Types.type := offerType offer;
       Types.totalChunks := total;
       Types.chunkSize := chunkSize;
       Types.uploadId := Some upload;
       Types.protocolVersion :=
         Some (match offerProtocolVersion offer with
               | Some v => v
               | None => 1
               end);
       Types.fileChecksum := offerFileChecksum offer;
       Types.fingerprint := offerFingerprint offer |} in
  let conn := withCurrentReceivingFileId conn (Some fileId) in
  let conn :=
    if MEMORY_GUARD_THRESHOLD_BYTES <? size
    then logEvent conn "transfer_receive_memory_guard_warning"
    else conn in
  let store := transferStore conn in
  let '(resumeFromChunk, received, conn) :=
    if TransferStore.isSupported store then
      let sessionKey :=
        TransferStore.createTransferSessionKey TransferStore.Incoming upload in
      let fresh := (0, 0, withTransferStore conn
                            (TransferStore.deleteUpload store upload)) in
      match TransferStore.getSession store sessionKey with
      | Some existing =>
          if (TransferStore.fileSize existing =? size)
             && (TransferStore.chunkSize existing =? chunkSize)
             && (TransferStore.totalChunks existing =? total)
             && negb (TransferStore.statusEqb (TransferStore.status existing)
                        TransferStore.Completed)
          then
            let contiguous :=
              TransferStore.getContiguousChunkCount store upload total in
            let resume :=
              Integrity.normalizeChunkIndex
                (Js.ofZ (Z.min (TransferStore.nextChunkIndex existing)
                           contiguous))
                total in
            (resume, Integrity.bytesForChunkIndex resume chunkSize size, conn)
          else fresh
      | None => fresh
      end
    else
      (0, 0, withInMemoryIncomingChunks conn
               (<[fileId := []]> (inMemoryIncomingChunks conn))) in
  let transfer :=
    {| metadata := normalizedMetadata;
       receivedChunks := resumeFromChunk;
       bytesReceived := received;
       expectedChunkIndex := resumeFromChunk;
       ready := false;
       uploadId := upload;
       expectedFileChecksum := Types.fileChecksum normalizedMetadata;
       chunkChecksums := [];
       hasPersistenceError := false |} in
  let conn :=
    withIncomingTransfers conn (<[fileId := transfer]> (incomingTransfers conn)) in
  let conn :=
    if 0 <? resumeFromChunk then logEvent conn "transfer_resume_available"
    else conn in
  let conn :=
    upsertPersistedSession now conn TransferStore.Incoming normalizedMetadata
      TransferStore.Active resumeFromChunk received None None in
  let conn := sendReceiverReady conn fileId upload resumeFromChunk in
  onFileOffer conn normalizedMetadata.

(** [None] marks an offer outside this model: one whose [chunkSize] or
    [size] passes the checks without being an integer.  The chunk count and
    the byte counts are the integer ones of [Integrity], which are the
    code's for sizes up to [2 ^ 53]. *)
Definition handleIncomingFileOffer (now : Z) (conn : P2PConnection)
    (offer : FileOfferMetadata) : option P2PConnection :=
  match offerId offer with
  | Js.VString fileId =>
      if String.eqb fileId "" then
        Some (sendTransferError conn "" "INVALID_FILE_ID" "Invalid fileId")
      else
        match offerChunkSize offer, offerSize offer with
        | Js.VNumber chunk, Js.VNumber size =>
            if Js.leb chunk (Js.ofZ 0)
               || Js.ltb chunk (Js.ofZ MIN_CHUNK_SIZE)
               || Js.ltb size (Js.ofZ 0)
            then
              Some (sendTransferError conn fileId "INVALID_METADATA"
                      "Invalid metadata")
            else
              match toInteger chunk, toInteger size with
              | Some chunkSize, Some fileSize =>
                  Some (acceptFileOffer now conn offer fileId chunkSize fileSize)
              | _, _ => None
              end
        | _, _ =>
            Some (sendTransferError conn fileId "INVALID_METADATA"
                    "Invalid metadata")
        end
  | _ => Some (sendTransferError conn "" "INVALID_FILE_ID" "Invalid fileId")
  end.

(** [array.slice(0, end)] *)
Definition sliceTo {A : Type} (array : list A) (stop : Z) : list A :=
  if stop <? 0 then take (Z.to_nat (Z.of_nat (length array) + stop)) array
  else take (Z.to_nat stop) array.

(** [array.length = n] for [n >= 0]: cut, or pad with holes. *)
Definition setLength {A : Type} (array : list (option A)) (n : Z)
    : list (option A) :=
  take (Z.to_nat n) array
  ++ replicate (Z.to_nat n - length array)%nat None.

(** The transfer object is passed by reference; the first component of the
    result is that object after the call. *)
Definition requestRetransmit (now : Z) (conn : P2PConnection)
    (transfer : IncomingTransferState) (fromChunk : Js.number)
    (reason : string) : IncomingTransferState * P2PConnection :=
  let meta := metadata transfer in
  let startChunk :=
    Integrity.normalizeChunkIndex fromChunk (Types.totalChunks meta) in
  let transfer :=
    {| metadata := meta;
       receivedChunks := startChunk;
       bytesReceived :=
         Integrity.bytesForChunkIndex startChunk (Types.chunkSize meta)
           (Types.size meta);
       expectedChunkIndex := startChunk;
       ready := ready transfer;
       uploadId := uploadId transfer;
       expectedFileChecksum := expectedFileChecksum transfer;
       chunkChecksums := sliceTo (chunkChecksums transfer) startChunk;
       hasPersistenceError := hasPersistenceError transfer |} in
  let conn :=
    if TransferStore.isSupported (transferStore conn) then
      withTransferStore conn
        (TransferStore.deleteChunksFrom (transferStore conn)
           (uploadId transfer) startChunk)
    else
      let buffers :=
        match inMemoryIncomingChunks conn !! Types.id meta with
        | Some held => held
        | None => []
        end in
      withInMemoryIncomingChunks conn
        (<[Types.id meta := setLength buffers startChunk]>
           (inMemoryIncomingChunks conn)) in
  let conn :=
    upsertPersistedSession now conn TransferStore.Incoming meta
      TransferStore.Active startChunk (bytesReceived transfer) None None in
  let conn :=
    if isDataChannelReady conn then
      channelSend conn
        (Control (RequestRetransmit (Types.id meta) (uploadId transfer)
                    startChunk reason))
    else conn in
  (transfer, logEvent conn "transfer_retransmit_requested").

(** Every incoming transfer of the connection expects a chunk count that is
    not negative. *)
Definition chunkCountsValid (conn : P2PConnection) : Prop :=
  forall fileId transfer,
    incomingTransfers conn !! fileId = Some transfer ->
    0 <= Types.totalChunks (metadata transfer).

(** In the words of the specification: an id that is missing or is not a
    non-empty string ... *)
Definition invalidFileId (offer : FileOfferMetadata) : Prop :=
  forall text, offerId offer = Js.VString text -> text = EmptyString.

(** ... a chunk size that is not a number, is at most 0 or is below the
    16 KiB minimum, or a size that is not a number or is negative. *)
Definition invalidMetadata (offer : FileOfferMetadata) : Prop :=
  (forall n, offerChunkSize offer <> Js.VNumber n) \/
  (exists n, offerChunkSize offer = Js.VNumber n /\
             (Js.leb n (Js.ofZ 0) = true \/ Js.ltb n (Js.ofZ 16384) = true)) \/
  (forall n, offerSize offer <> Js.VNumber n) \/
  (exists n, offerSize offer = Js.VNumber n /\ Js.ltb n (Js.ofZ 0) = true).


(** *** Receiving the chunks and completing a transfer *)

Definition MAX_CHUNK_SEQUENCE_GAP : Z := 10.

(** [array[index] = item]: a write past the end pads with holes; a
    negative index sets a property and leaves the elements alone. *)
Definition setIndex {A : Type} (array : list (option A)) (index : Z)
    (item : A) : list (option A) :=
  if index <? 0 then array
  else if index <? Z.of_nat (length array)
  then <[Z.to_nat index := Some item]> array
  else array ++ replicate (Z.to_nat index - length array)%nat None
       ++ [Some item].

(** The calls of [callbacks.onFileProgress] and [callbacks.onFileComplete]. *)
Inductive Callback : Type :=
| OnFileProgress (progress : Js.number)
| OnFileComplete (blob : Finalizer.Blob) (meta : Types.FileMetadata).

(** [Math.floor] on a number *)
Definition floorNumber (x : Js.number) : Js.number :=
  match x with
  | Js.Finite q => Js.ofZ (Js.floor q)
  | other => other
  end.

Definition withExpectedFileChecksum (transfer : IncomingTransferState)
    (expected : option string) : IncomingTransferState :=
  {| metadata := metadata transfer;
     receivedChunks := receivedChunks transfer;
     bytesReceived := bytesReceived transfer;
     expectedChunkIndex := expectedChunkIndex transfer;
     ready := ready transfer;
     uploadId := uploadId transfer;
     expectedFileChecksum := expected;
     chunkChecksums := chunkChecksums transfer;
     hasPersistenceError := hasPersistenceError transfer |}.

(** [a || b] on [string | undefined] *)
Definition orString (a b : option string) : option string :=
  match a with
  | Some text => if String.eqb text EmptyString then b else Some text
  | None => b
  end.

(** The buffers of an array without holes. *)
Fixpoint allBuffers (array : list (option (list byte)))
    : option (list (list byte)) :=
  match array with
  | [] => Some []
  | Some buffer :: rest =>
      match allBuffers rest with
      | Some buffers => Some (buffer :: buffers)
      | None => None
      end
  | None :: _ => None
  end.

Section Receive.

Variable subtleDigest : option (list byte -> list byte).
Variable opfs : option string.

(** The two computations of [processFileChunkInternal] in double
    precision, left uninterpreted: [(a / b) * 100], and the test that the
    progress has just come within 0.01 of a quarter, a half, three
    quarters or the whole. *)
Variable percentOf : Z -> Z -> Js.number.
Variable reachedMilestone : Z -> Z -> bool.

(** The transfer object is passed by reference: the first component of
    the result is that object after the call. *)
Definition processFileChunkInternal (now : Z) (conn : P2PConnection)
    (fileId : string) (transfer : IncomingTransferState)
    (chunkData : list byte)
    : IncomingTransferState * P2PConnection * list Callback :=
  let meta := metadata transfer in
  if Types.totalChunks meta <=? receivedChunks transfer then
    (transfer, logEvent conn "transfer_chunk_overflow", [])
  else
    let chunkIndex := receivedChunks transfer in
    let chunkGap := chunkIndex - expectedChunkIndex transfer in
    let conn :=
      if MAX_CHUNK_SEQUENCE_GAP <? chunkGap
      then logEvent conn "transfer_chunk_sequence_warning" else conn in
    let chunkChecksum := Integrity.hashArrayBuffer subtleDigest chunkData in
    let conn :=
      if TransferStore.isSupported (transferStore conn) then
        withTransferStore conn
          (TransferStore.putChunk now (transferStore conn) (uploadId transfer)
             chunkIndex chunkData chunkChecksum)
      else
        let held :=
          match inMemoryIncomingChunks conn !! fileId with
          | Some buffers => buffers
          | None => []
          end in
        withInMemoryIncomingChunks conn
          (<[fileId := setIndex held chunkIndex chunkData]>
             (inMemoryIncomingChunks conn)) in
    let transfer :=
      {| metadata := meta;
         receivedChunks := receivedChunks transfer + 1;
         bytesReceived :=
           bytesReceived transfer + Z.of_nat (length chunkData);
         expectedChunkIndex := receivedChunks transfer + 1;
         ready := ready transfer;
         uploadId := uploadId transfer;
         expectedFileChecksum := expectedFileChecksum transfer;
         chunkChecksums :=
           setIndex (chunkChecksums transfer) chunkIndex chunkChecksum;
         hasPersistenceError := hasPersistenceError transfer |} in
    let conn :=
      upsertPersistedSession now conn TransferStore.Incoming meta
        TransferStore.Active (receivedChunks transfer)
        (bytesReceived transfer) None None in
    let progress :=
      percentOf (receivedChunks transfer) (Types.totalChunks meta) in
    let previousProgress :=
      percentOf (receivedChunks transfer - 1) (Types.totalChunks meta) in
    let shouldEmitProgress :=
      (receivedChunks transfer =? Types.totalChunks meta)
      || Js.gtb (floorNumber progress) (floorNumber previousProgress) in
    let calls :=
      if shouldEmitProgress then [OnFileProgress progress] else [] in
    let conn :=
      if reachedMilestone (receivedChunks transfer) (Types.totalChunks meta)
      then logEvent conn "transfer_receive_progress" else conn in
    (transfer, conn, calls).

(** The handler is queued on the transfer's write queue; here it has run
    before the next message is handled.  The transfer it updates is the
    object held in [incomingTransfers]. *)
Definition processFileChunk (now : Z) (conn : P2PConnection)
    (data : list byte) : P2PConnection * list Callback :=
  match currentReceivingFileId conn with
  | None => (conn, [])
  | Some fileId =>
      if String.eqb fileId EmptyString then (conn, [])
      else
        match incomingTransfers conn !! fileId with
        | None => (conn, [])
        | Some transfer =>
            let '(transfer, conn, calls) :=
              processFileChunkInternal now conn fileId transfer data in
            (withIncomingTransfers conn
               (<[fileId := transfer]> (incomingTransfers conn)),
             calls)
        end
  end.

(** [requestRetransmit] on the transfer held under [fileId]. *)
Definition retransmitFrom (now : Z) (conn : P2PConnection) (fileId : string)
    (transfer : IncomingTransferState) (fromChunk : Z) (reason : string)
    : P2PConnection * list Callback :=
  let '(transfer, conn) :=
    requestRetransmit now conn transfer (Js.ofZ fromChunk) reason in
  (withIncomingTransfers conn
     (<[fileId := transfer]> (incomingTransfers conn)),
   []).

(** The end of [completeTransfer], once the blob is there. *)
Definition deliverFile (conn : P2PConnection) (fileId : string)
    (transfer : IncomingTransferState) (blob : Finalizer.Blob)
    : P2PConnection * list Callback :=
  let conn := logEvent conn "transfer_receive_complete" in
  let conn :=
    if TransferStore.isSupported (transferStore conn) then
      withTransferStore conn
        (TransferStore.deleteUpload (transferStore conn) (uploadId transfer))
    else conn in
  let conn :=
    withInMemoryIncomingChunks conn
      (delete fileId (inMemoryIncomingChunks conn)) in
  let conn :=
    withIncomingTransfers conn (delete fileId (incomingTransfers conn)) in
  let conn :=
    match currentReceivingFileId conn with
    | Some current =>
        if String.eqb current fileId
        then withCurrentReceivingFileId conn None else conn
    | None => conn
    end in
  (conn, [OnFileComplete blob (metadata transfer)]).

(** [None] marks a run outside this model: the memory fallback met a hole
    in its array of buffers. *)
Definition completeTransfer (now : Z) (conn : P2PConnection)
    (fileId : string) (checksum : option string)
    : option (P2PConnection * list Callback) :=
  match incomingTransfers conn !! fileId with
  | None => Some (conn, [])
  | Some transfer =>
      let transfer :=
        match checksum with
        | Some given =>
            if String.eqb given EmptyString then transfer
            else withExpectedFileChecksum transfer (Some given)
        | None => transfer
        end in
      let meta := metadata transfer in
      let total := Types.totalChunks meta in
      let expectedChecksum :=
        orString (expectedFileChecksum transfer) (Types.fileChecksum meta) in
      let store := transferStore conn in
      if TransferStore.isSupported store then
        let chunkCount := TransferStore.getChunkCount store (uploadId transfer) in
        if chunkCount <? total then
          let contiguous :=
            TransferStore.getContiguousChunkCount store (uploadId transfer)
              total in
          Some (retransmitFrom now conn fileId transfer contiguous
                  "missing_chunks")
        else
          match
            fst (Finalizer.finalizeIncomingTransferFromStore subtleDigest opfs
                   store (uploadId transfer) meta expectedChecksum)
          with
          | Finalizer.MissingChunk missingChunk =>
              Some (retransmitFrom now conn fileId transfer missingChunk
                      "missing_chunks_streaming")
          | Finalizer.ChecksumMismatch _ =>
              Some (retransmitFrom now
                      (logEvent conn "transfer_checksum_mismatch") fileId
                      transfer 0 "CHECKSUM_MISMATCH")
          | Finalizer.Success blob _ _ =>
              Some (deliverFile conn fileId transfer blob)
          end
      else
        let chunkBuffers :=
          match inMemoryIncomingChunks conn !! fileId with
          | Some buffers => buffers
          | None => []
          end in
        if Z.of_nat (length chunkBuffers) <? total then
          Some (retransmitFrom now conn fileId transfer
                  (Z.of_nat (length chunkBuffers))
                  "missing_chunks_memory_fallback")
        else
          match allBuffers chunkBuffers with
          | None => None
          | Some buffers =>
              let fileChecksum :=
                Integrity.deriveFileChecksumFromChunkChecksums subtleDigest
                  (map (Integrity.hashArrayBuffer subtleDigest) buffers) in
              let mismatch :=
                match expectedChecksum with
                | Some expected =>
                    negb (String.eqb expected EmptyString)
                    && negb (String.eqb fileChecksum expected)
                | None => false
                end in
              if mismatch then
                Some (retransmitFrom now
                        (logEvent conn "transfer_checksum_mismatch") fileId
                        transfer 0 "CHECKSUM_MISMATCH")
              else
                Some (deliverFile conn fileId transfer
                        {| Finalizer.blobBytes := concat buffers;
                           Finalizer.blobType :=
                             Finalizer.blobTypeOf (Types.type meta) |})
          end
  end.

(** The binary frames of a sender, each with the time of its arrival,
    handled one after the other. *)
Fixpoint receiveChunks (conn : P2PConnection)
    (frames : list (Z * list byte)) : P2PConnection * list Callback :=
  match frames with
  | [] => (conn, [])
  | (now, data) :: rest =>
      let '(conn, calls) := processFileChunk now conn data in
      let '(conn, more) := receiveChunks conn rest in
      (conn, calls ++ more)
  end.

End Receive.

End Transfer.

(** ** webrtc, webrtc-transfer: the send side, chunk by chunk *)

Module Sender.

Definition DEFAULT_FORCED_MAX_MESSAGE_SIZE : Z := 16 * 1024.

(** [forced] is the debug override read from the page's address (an
    integer, or null); [runtime] is [pc?.sctp?.maxMessageSize]. *)
Definition resolveMaxMessageSize (forced : option Z)
    (runtime : option Js.number) : option Z :=
  match forced with
  | Some override => Some (Z.max DEFAULT_FORCED_MAX_MESSAGE_SIZE override)
  | None => AdaptiveChunk.normalizeMaxMessageSize runtime
  end.

(** The chunk size that [sendFile] settles on. *)
Definition plannedChunkSize (configuredChunkSize : Z)
    (maxMessageSize : option Z) (rttMs : option Q) : Z :=
  Z.max Transfer.MIN_CHUNK_SIZE
    (AdaptiveChunk.chunkSize
       (AdaptiveChunk.buildAdaptiveChunkPlan configuredChunkSize
          maxMessageSize rttMs)).

(** [Blob.slice(start, end)]: an index below zero counts from the end,
    both are clamped to the blob, and the span is never negative. *)
Definition relativeIndex (size index : Z) : Z :=
  if index <? 0 then Z.max (size + index) 0 else Z.min index size.

Definition fileSlice (content : list byte) (start stop : Z) : list byte :=
  let size := Z.of_nat (length content) in
  let first := relativeIndex size start in
  let last := relativeIndex size stop in
  take (Z.to_nat (Z.max (last - first) 0)) (drop (Z.to_nat first) content).

(** The buffer of chunk [i]: [file.slice(start, end)] with
    [start = i * chunkSize] and [end = min(start + chunkSize, file.size)]. *)
Definition chunkAt (content : list byte) (chunkSize i : Z) : list byte :=
  let start := i * chunkSize in
  let stop := Z.min (start + chunkSize) (Z.of_nat (length content)) in
  fileSlice content start stop.

(** The check before each [channel.send(buffer)]. *)
Definition messageTooLarge (maxMessageSize : option Z) (buffer : list byte)
    : bool :=
  match maxMessageSize with
  | Some limit => limit <? Z.of_nat (length buffer)
  | None => false
  end.

(** The buffers that the [for] loop of [sendFile] sends from [startChunk]
    on. *)
Definition chunksFrom (content : list byte) (chunkSize startChunk total : Z)
    : list (list byte) :=
  map (chunkAt content chunkSize) (seqZ startChunk (total - startChunk)).

(** The fields of a runtime session that the checksum is computed from;
    [file] is the content of the file. *)
Record OutgoingRuntimeSession : Type := {
  file : list byte;
  metadata : Types.FileMetadata;
  chunkChecksums : list (option string);
  fileChecksum : option string
}.

(** [Boolean(entry)] for a checksum slot: a hole and the empty string are
    falsy. *)
Definition truthy (entry : option string) : bool :=
  match entry with
  | Some text => negb (String.eqb text EmptyString)
  | None => false
  end.

Definition slot (checksums : list (option string)) (i : Z) : option string :=
  if i <? 0 then None
  else match checksums !! Z.to_nat i with
       | Some entry => entry
       | None => None
       end.

(** [Array.prototype.join] writes a hole as the empty string. *)
Definition joined (checksums : list (option string)) : list string :=
  map (fun entry => match entry with
                    | Some text => text
                    | None => EmptyString
                    end) checksums.

Section Checksum.

Variable subtleDigest : option (list byte -> list byte).

(** The [for] loop from index [i], with [remaining] rounds to go. *)
Fixpoint fillChecksums (content : list byte) (chunkSize : Z) (i : Z)
    (remaining : nat) (checksums : list (option string))
    : list (option string) :=
  match remaining with
  | O => checksums
  | S rest =>
      let checksums :=
        if truthy (slot checksums i) then checksums
        else
          Transfer.setIndex checksums i
            (Integrity.hashArrayBuffer subtleDigest
               (chunkAt content chunkSize i)) in
      fillChecksums content chunkSize (i + 1) rest checksums
  end.

(** The checksum, and the session as the call leaves it. *)
Definition ensureRuntimeSessionChecksum (session : OutgoingRuntimeSession)
    : string * OutgoingRuntimeSession :=
  if truthy (fileChecksum session) then
    (match fileChecksum session with
     | Some known => known
     | None => EmptyString
     end, session)
  else
    let total := Types.totalChunks (metadata session) in
    let checksums :=
      if Z.of_nat (length (List.filter truthy (chunkChecksums session)))
         <? total
      then
        fillChecksums (file session) (Types.chunkSize (metadata session)) 0
          (Z.to_nat total) (chunkChecksums session)
      else chunkChecksums session in
    let sum :=
      Integrity.deriveFileChecksumFromChunkChecksums subtleDigest
        (joined checksums) in
    (sum,
     {| file := file session;
        metadata := metadata session;
        chunkChecksums := checksums;
        fileChecksum := Some sum |}).

End Checksum.

End Sender.

(** ** Sample data for the examples *)

Module Samples.

Import SendQueue.

Definition sampleFile : File :=
  {| fileName := "a.bin"; fileSize := 128;
     fileType := "application/octet-stream"; lastModified := 0 |}.

Definition sampleItem (itemId : string) (st : OutgoingQueueItemStatus)
    : OutgoingQueueItem :=
  {| id := itemId; file := sampleFile; status := st;
     sentBytes := 0; totalBytes := 128; progressPercent := 0;
     attempts := 0; errorMessage := None;
     addedAt := 0; startedAt := None; finishedAt := None |}.

Definition sampleRun : SendQueueState :=
  sendQueueReducer 7
    (sendQueueReducer 5
       (sendQueueReducer 3 createInitialSendQueueState
          (Enqueue [sampleItem "a" Queued; sampleItem "b" Queued]))
       (MarkSending "a"))
    (MarkSending "b").

Import StructuredEvent.

Definition sampleLegacyRecord : gmap string Js.value :=
  <["event" := Js.VString "datachannel_open"]>
    (<["timestamp" := Js.VNumber (Js.Finite 1700000000000)]>
       (<["maxMessageSize" := Js.VNumber (Js.Finite 262144)]> ∅)).

(** A record with a string [event] and a finite [timestamp] whose other
    fields are those of a standard envelope. *)
Definition envelopeShapedRecord : gmap string Js.value :=
  <["event" := Js.VString "e"]>
    (<["timestamp" := Js.VNumber (Js.Finite 5)]>
       (<["kind" := Js.VString "peershare.event"]>
          (<["version" := Js.VNumber (Js.Finite 1)]>
             (<["payload" :=
                  Js.VObject (<["a" := Js.VNumber (Js.Finite 1)]> ∅)]> ∅)))).

Import TransferStore.

Definition emptyStore : TransferStore :=
  {| supported := true; sessions := ∅; chunks := ∅ |}.

Definition emptyFile : Types.FileMetadata :=
  {| Types.id := "f"; Types.name := "empty.bin"; Types.size := 0;
     Types.type := "application/octet-stream";
     Types.totalChunks := 0; Types.chunkSize := 65536;
     Types.uploadId := Some "u"; Types.protocolVersion := Some 2;
     Types.fileChecksum := None; Types.fingerprint := None |}.

(** A store holding both chunks of a two-chunk upload ["u"], and the same
    store after the second chunk is lost. *)
Definition twoChunkStore : TransferStore :=
  putChunk 20 (putChunk 10 emptyStore "u" 0 ["a"%byte; "b"%byte] "c0")
    "u" 1 ["c"%byte] "c1".

Definition gapStore : TransferStore :=
  putChunk 10 emptyStore "u" 0 ["a"%byte; "b"%byte] "c0".

Definition twoChunkFile : Types.FileMetadata :=
  {| Types.id := "f"; Types.name := "two.bin"; Types.size := 3;
     Types.type := "application/octet-stream";
     Types.totalChunks := 2; Types.chunkSize := 2;
     Types.uploadId := Some "u"; Types.protocolVersion := Some 2;
     Types.fileChecksum := None; Types.fingerprint := None |}.

(** A connection with an open channel, IndexedDB available, and an incoming
    session for upload ["u"] already stored. *)
Definition storedSession : PersistedTransferSession :=
  {| sessionKey := "incoming:u"; direction := Incoming; status := Active;
     uploadId := "u"; fileId := "f"; fileName := "two.bin";
     fileType := "application/octet-stream";
     fileSize := 3; chunkSize := 2; totalChunks := 2;
     nextChunkIndex := 1; bytesTransferred := 2;
     remotePeerId := "peer-b";
     fingerprint := Some "two.bin::3::application/octet-stream::7";
     fileChecksum := Some "61524a9c";
     createdAt := 100; updatedAt := 150 |}.

Definition sampleConnection : Transfer.P2PConnection :=
  {| Transfer.dataChannel :=
       Some {| Transfer.readyState := Transfer.Open;
               Transfer.sentFrames := [] |};
     Transfer.remotePeerId := "peer-b";
     Transfer.currentReceivingFileId := Some "f";
     Transfer.incomingTransfers := ∅;
     Transfer.inMemoryIncomingChunks := ∅;
     Transfer.transferStore := putSession twoChunkStore storedSession;
     Transfer.fileOffers := [];
     Transfer.console := [] |}.


Definition sampleOffer (fileId chunk : Js.value) : Transfer.FileOfferMetadata :=
  {| Transfer.offerId := fileId;
     Transfer.offerName := "big.bin";
     Transfer.offerSize := Js.VNumber (Js.ofZ 100000);
     Transfer.offerType := "application/octet-stream";
     Transfer.offerTotalChunks := 2;
     Transfer.offerChunkSize := chunk;
     Transfer.offerUploadId := Some "u2";
     Transfer.offerProtocolVersion := Some 2;
     Transfer.offerFileChecksum := None;
     Transfer.offerFingerprint := None |}.


(** A receiver that has just accepted the offer of the three-byte file
    ["abc"], to be sent in chunks of two bytes, and holds nothing yet. *)
Definition offeredTransfer : Transfer.IncomingTransferState :=
  {| Transfer.metadata := twoChunkFile;
     Transfer.receivedChunks := 0;
     Transfer.bytesReceived := 0;
     Transfer.expectedChunkIndex := 0;
     Transfer.ready := true;
     Transfer.uploadId := "u";
     Transfer.expectedFileChecksum := None;
     Transfer.chunkChecksums := [];
     Transfer.hasPersistenceError := false |}.

Definition receivingConnection : Transfer.P2PConnection :=
  {| Transfer.dataChannel :=
       Some {| Transfer.readyState := Transfer.Open;
               Transfer.sentFrames := [] |};
     Transfer.remotePeerId := "peer-a";
     Transfer.currentReceivingFileId := Some "f";
     Transfer.incomingTransfers := {["f" := offeredTransfer]};
     Transfer.inMemoryIncomingChunks := ∅;
     Transfer.transferStore := emptyStore;
     Transfer.fileOffers := [twoChunkFile];
     Transfer.console := [] |}.

Definition abcFrames : list (Z * list byte) :=
  [(11, ["a"%byte; "b"%byte]); (12, ["c"%byte])].

(** Two sizes above [2 ^ 53] that are doubles, and whose quotient is just
    above 3. *)
Definition hugeFileSize : Z := 27021597764222984.
Definition hugeChunkSize : Z := 9007199254740994.

(** Pairs of integers that are doubles, for the comparison of [Double] with
    the Standard Library's binary64. *)
Definition doublePairs : list (Z * Z) :=
  [(29, 100); (1, 3); (2, 3); (-7, 3); (7, -3); (100, 100); (0, 5);
   (hugeFileSize, hugeChunkSize); (94906267, 94906267);
   (2 ^ 53 - 1, 3); (2 ^ 52 + 1, 3); (2 ^ 27 + 1, 2 ^ 27 + 1);
   (1, 2 ^ 1023); (3, 2 ^ 1023); (2 ^ 53 - 1, 2 ^ 1023);
   (2 ^ 1023, 2 ^ 1023); (2 ^ 1023, 3); (5, 0); (-5, 0); (0, 0)].

End Samples.

(** * Theorems *)

(** ** Theorems: transfer-integrity *)

Section IntegrityFacts.
Import Integrity.

Lemma ceilDiv_bounds (a b : Z) :
  0 < b -> (ceilDiv a b - 1) * b < a <= ceilDiv a b * b.
Proof.
  intros Hb. unfold ceilDiv.
  pose proof (Z.div_mod (- a) b ltac:(lia)) as Hdm.
  pose proof (Z.mod_pos_bound (- a) b Hb) as Hm.
  nia.
Qed.

Lemma ceilDiv_Qceiling (a b : Z) :
  0 < b -> ceilDiv a b = Qceiling (inject_Z a / inject_Z b).
Proof.
  intros Hb. unfold ceilDiv, Qceiling, Qfloor.
  destruct b as [|p|p]; try lia.
  cbn. f_equal. f_equal; lia.
Qed.

Lemma Qfloor_range (q : Q) (n : Z) :
  (0 < q)%Q -> (q < inject_Z n)%Q -> 0 <= Qfloor q <= n.
Proof.
  intros H0 Hn.
  pose proof (Qfloor_le q) as Hle.
  pose proof (Qlt_floor q) as Hlt.
  split.
  - assert (inject_Z 0 < inject_Z (Qfloor q + 1))%Q as H
      by (eapply Qlt_trans; [exact H0 | exact Hlt]).
    rewrite <- Zlt_Qlt in H. lia.
  - assert (inject_Z (Qfloor q) < inject_Z n)%Q as H
      by (eapply Qle_lt_trans; [exact Hle | exact Hn]).
    rewrite <- Zlt_Qlt in H. lia.
Qed.

Lemma normalizeChunkIndex_bounds (x : Js.number) (n : Z) :
  0 <= n -> 0 <= normalizeChunkIndex x n <= n.
Proof.
  intros Hn. destruct x as [ | | |q]; cbn -[Qle_bool inject_Z]; try lia.
  destruct (Qle_bool q (inject_Z 0)) eqn:E0; [lia|].
  destruct (Qle_bool (inject_Z n) q) eqn:En; [lia|].
  apply Qfloor_range.
  - apply Qnot_le_lt. intros H. apply Qle_bool_iff in H.
    change (inject_Z 0) with 0%Q in E0. congruence.
  - apply Qnot_le_lt. intros H. apply Qle_bool_iff in H. congruence.
Qed.

(** C6. For every number [x] (finite or not, integer or not) and every
    chunk count [n >= 0], [normalizeChunkIndex x n] lies in [[0, n]]: it is
    0 when [x] is not finite or [x <= 0], it is [n] when the finite [x]
    is at least [n], and it is the floor of [x] otherwise. *)
Theorem normalizeChunkIndex_range (x : Js.number) (n : Z) :
  0 <= n ->
  0 <= normalizeChunkIndex x n <= n /\
  (Js.isFinite x = false \/ Js.leb x (Js.ofZ 0) = true ->
     normalizeChunkIndex x n = 0) /\
  (Js.isFinite x = true -> Js.geb x (Js.ofZ n) = true ->
     normalizeChunkIndex x n = n) /\
  (forall q, x = Js.Finite q -> (0 < q)%Q -> (q < inject_Z n)%Q ->
     normalizeChunkIndex x n = Qfloor q).
Proof.
  intros Hn.
  destruct x as [ | | |q]; cbn -[Qle_bool inject_Z].
  1-3: split; [lia|]; split; [reflexivity|]; split; [discriminate|];
       intros ? [=].
  destruct (Qle_bool q (inject_Z 0)) eqn:E0.
  - apply Qle_bool_iff in E0.
    split; [lia|]. split; [reflexivity|]. split.
    + intros _ Hge. apply Qle_bool_iff in Hge.
      assert (inject_Z n <= inject_Z 0)%Q as H
        by (eapply Qle_trans; [exact Hge | exact E0]).
      rewrite <- Zle_Qle in H. lia.
    + intros q' [= <-] Hpos _. exfalso.
      apply (Qlt_irrefl 0). eapply Qlt_le_trans; [exact Hpos | exact E0].
  - assert (0 < q)%Q as Hpos.
    { apply Qnot_le_lt. intros H. apply Qle_bool_iff in H.
      change (inject_Z 0) with 0%Q in E0. congruence. }
    destruct (Qle_bool (inject_Z n) q) eqn:En.
    + apply Qle_bool_iff in En.
      split; [lia|]. split; [intros [H|H]; discriminate|].
      split; [reflexivity|].
      intros q' [= <-] _ Hlt. exfalso.
      apply (Qlt_irrefl q). eapply Qlt_le_trans; [exact Hlt | exact En].
    + assert (q < inject_Z n)%Q as Hlt.
      { apply Qnot_le_lt. intros H. apply Qle_bool_iff in H. congruence. }
      pose proof (Qfloor_range q n Hpos Hlt).
      split; [assumption|]. split; [intros [H'|H']; discriminate|].
      split; [discriminate|].
      intros q' [= <-] _ _. reflexivity.
Qed.

Lemma normalizeChunkIndex_range_witness :
  0 <= 4 /\
  normalizeChunkIndex (Js.Finite (5 # 2)) 4 = 2 /\
  normalizeChunkIndex Js.PosInfinity 4 = 0 /\
  normalizeChunkIndex (Js.Finite 9) 4 = 4.
Proof.
  pose proof (normalizeChunkIndex_range (Js.Finite (5 # 2)) 4 ltac:(lia))
    as (_ & _ & _ & Hfloor).
  pose proof (normalizeChunkIndex_range Js.PosInfinity 4 ltac:(lia))
    as (_ & Hzero & _ & _).
  pose proof (normalizeChunkIndex_range (Js.Finite 9) 4 ltac:(lia))
    as (_ & _ & Htop & _).
  split; [lia|]. split; [|split].
  - rewrite (Hfloor (5 # 2)%Q eq_refl); reflexivity.
  - apply Hzero. left. reflexivity.
  - apply Htop; reflexivity.
Defined.

End IntegrityFacts.

(** ** Double precision *)

Section DoubleFacts.
Import Double.

Lemma pow2_pos (e : Z) : 0 < 2 ^ Z.max 0 e.
Proof. apply Z.pow_pos_nonneg; lia. Qed.

Lemma nearestEven_ge (n d k : Z) :
  0 < d -> k * d <= n -> k <= nearestEven n d.
Proof.
  intros Hd Hk. unfold nearestEven.
  pose proof (Z.div_mod n d ltac:(lia)) as Hdm.
  pose proof (Z.mod_pos_bound n d Hd) as Hm.
  assert (k <= n / d) by (apply Z.div_le_lower_bound; lia).
  destruct (2 * (n mod d) ?= d); [destruct (Z.even (n / d))| |]; lia.
Qed.

Lemma nearestEven_le (n d k : Z) :
  0 < d -> n <= k * d -> nearestEven n d <= k.
Proof.
  intros Hd Hk. unfold nearestEven.
  pose proof (Z.div_mod n d ltac:(lia)) as Hdm.
  pose proof (Z.mod_pos_bound n d Hd) as Hm.
  assert (n / d <= k) by (apply Z.div_le_upper_bound; lia).
  destruct (Z.eq_dec (n / d) k) as [Heq|Hne].
  - assert (n mod d = 0) as Hzero by nia.
    rewrite Hzero.
    assert ((2 * 0 ?= d) = Lt) as -> by (apply Z.compare_lt_iff; lia). lia.
  - destruct (2 * (n mod d) ?= d); [destruct (Z.even (n / d))| |]; lia.
Qed.

Lemma nearestEven_above_half (n d k : Z) :
  0 < d -> (2 * k + 1) * d < 2 * n -> k + 1 <= nearestEven n d.
Proof.
  intros Hd Hk. unfold nearestEven.
  pose proof (Z.div_mod n d ltac:(lia)) as Hdm.
  pose proof (Z.mod_pos_bound n d Hd) as Hm.
  assert (k <= n / d) by (apply Z.div_le_lower_bound; lia).
  destruct (Z.eq_dec (n / d) k) as [Heq|Hne].
  - assert (d < 2 * (n mod d)) as Hhalf by nia.
    apply Z.compare_gt_iff in Hhalf. rewrite Hhalf. lia.
  - destruct (2 * (n mod d) ?= d); [destruct (Z.even (n / d))| |]; lia.
Qed.

Lemma binade_spec (n d : Z) :
  0 < n -> 0 < d ->
  let e := binade n d in
  d * 2 ^ Z.max 0 e <= n * 2 ^ Z.max 0 (- e) /\
  n * 2 ^ Z.max 0 (- (e + 1)) < d * 2 ^ Z.max 0 (e + 1).
Proof.
  intros Hn Hd. cbv zeta. unfold binade.
  destruct (Z.log2_spec n Hn) as [Hn1 Hn2].
  destruct (Z.log2_spec d Hd) as [Hd1 Hd2].
  pose proof (Z.log2_nonneg n) as Hln.
  pose proof (Z.log2_nonneg d) as Hld.
  set (ln := Z.log2 n) in *. set (ld := Z.log2 d) in *.
  unfold atLeastPow2.
  destruct (Z.leb_spec (d * 2 ^ Z.max 0 (ln - ld)) (n * 2 ^ Z.max 0 (- (ln - ld))))
    as [Hge|Hlt].
  - split; [exact Hge|].
    pose proof (pow2_pos (- (ln - ld + 1))) as HA.
    pose proof (pow2_pos (ln - ld + 1)) as HB.
    assert (2 ^ Z.succ ln * 2 ^ Z.max 0 (- (ln - ld + 1))
            = 2 ^ ld * 2 ^ Z.max 0 (ln - ld + 1)) as Heq.
    { rewrite <- !Z.pow_add_r by lia. f_equal. lia. }
    nia.
  - replace (ln - ld - 1 + 1) with (ln - ld) by lia.
    split; [|exact Hlt].
    pose proof (pow2_pos (- (ln - ld - 1))) as HA.
    pose proof (pow2_pos (ln - ld - 1)) as HB.
    assert (2 ^ Z.succ ld * 2 ^ Z.max 0 (ln - ld - 1)
            = 2 ^ ln * 2 ^ Z.max 0 (- (ln - ld - 1))) as Heq.
    { rewrite <- !Z.pow_add_r by lia. f_equal. lia. }
    nia.
Qed.


Lemma scaled_compare (m quantum : Z) :
  (scaled m quantum
   == (m * 2 ^ Z.max 0 quantum # Z.to_pos (2 ^ Z.max 0 (- quantum))))%Q.
Proof. unfold scaled. apply Qred_correct. Qed.

Lemma le_scaled (K m quantum : Z) :
  K * 2 ^ Z.max 0 (- quantum) <= m * 2 ^ Z.max 0 quantum ->
  (inject_Z K <= scaled m quantum)%Q.
Proof.
  intros H. rewrite scaled_compare. unfold Qle. cbn [Qnum Qden inject_Z].
  rewrite Z2Pos.id by apply pow2_pos. lia.
Qed.

Lemma lt_scaled (K m quantum : Z) :
  K * 2 ^ Z.max 0 (- quantum) < m * 2 ^ Z.max 0 quantum ->
  (inject_Z K < scaled m quantum)%Q.
Proof.
  intros H. rewrite scaled_compare. unfold Qlt. cbn [Qnum Qden inject_Z].
  rewrite Z2Pos.id by apply pow2_pos. lia.
Qed.

Lemma scaled_le (K m quantum : Z) :
  m * 2 ^ Z.max 0 quantum <= K * 2 ^ Z.max 0 (- quantum) ->
  (scaled m quantum <= inject_Z K)%Q.
Proof.
  intros H. rewrite scaled_compare. unfold Qle. cbn [Qnum Qden inject_Z].
  rewrite Z2Pos.id by apply pow2_pos. lia.
Qed.

Lemma roundMagnitude_reduced (n d : Z) (y : Q) :
  roundMagnitude n d = Some y -> Qred y = y.
Proof.
  unfold roundMagnitude.
  destruct (_ <=? _); [discriminate|].
  intros [= <-]. unfold scaled. apply Qred_complete, Qred_correct.
Qed.

Lemma significand_nonneg (n d quantum : Z) :
  0 < n -> 0 < d -> 0 <= significand n d quantum.
Proof.
  intros Hn Hd. unfold significand.
  pose proof (pow2_pos quantum). pose proof (pow2_pos (- quantum)).
  apply nearestEven_ge; nia.
Qed.

Lemma roundMagnitude_nonneg (n d : Z) (y : Q) :
  0 < n -> 0 < d -> roundMagnitude n d = Some y -> (0 <= y)%Q.
Proof.
  intros Hn Hd. unfold roundMagnitude.
  destruct (_ <=? _); [discriminate|].
  intros [= <-]. apply (le_scaled 0).
  pose proof (significand_nonneg n d (Z.max (binade n d - 52) (-1074)) Hn Hd).
  pose proof (pow2_pos (Z.max (binade n d - 52) (-1074))).
  nia.
Qed.

Lemma binade_nonneg (n d : Z) :
  0 < d -> d <= n -> 0 <= binade n d.
Proof.
  intros Hd Hn.
  destruct (binade_spec n d ltac:(lia) Hd) as [_ Hup].
  destruct (Z.le_gt_cases 0 (binade n d)) as [|Hneg]; [assumption|exfalso].
  rewrite (Z.max_l 0 (binade n d + 1)) in Hup by lia.
  pose proof (pow2_pos (- (binade n d + 1))).
  change (2 ^ 0) with 1 in Hup. nia.
Qed.

Lemma binade_upper (n d e : Z) :
  0 < n -> 0 < d -> 0 <= e -> n < d * 2 ^ e -> binade n d < e.
Proof.
  intros Hn Hd He Hlt.
  destruct (binade_spec n d Hn Hd) as [Hlow _].
  destruct (Z.lt_ge_cases (binade n d) e) as [|Hge]; [assumption|exfalso].
  rewrite (Z.max_r 0 (binade n d)) in Hlow by lia.
  rewrite (Z.max_l 0 (- binade n d)) in Hlow by lia.
  change (2 ^ 0) with 1 in Hlow.
  assert (2 ^ e <= 2 ^ binade n d) by (apply Z.pow_le_mono_r; lia).
  nia.
Qed.

(** A double that is an integer of at most 53 bits and lies below the exact
    value lies below the rounded value as well. *)
Lemma roundMagnitude_ge (n d K : Z) :
  0 < n -> 0 < d -> 1 <= K <= 2 ^ 53 -> K * d <= n ->
  match roundMagnitude n d with
  | Some y => (inject_Z K <= y)%Q
  | None => True
  end.
Proof.
  intros Hn Hd HK Hle.
  pose proof (binade_nonneg n d Hd ltac:(nia)) as He.
  destruct (binade_spec n d Hn Hd) as [Hlow _].
  unfold roundMagnitude.
  set (e := binade n d) in *.
  rewrite (Z.max_r 0 e) in Hlow by lia.
  rewrite (Z.max_l 0 (- e)) in Hlow by lia.
  change (2 ^ 0) with 1 in Hlow.
  rewrite (Z.max_l (e - 52) (-1074)) by lia.
  destruct (_ <=? _); [exact I|].
  apply le_scaled. unfold significand.
  destruct (Z.le_gt_cases e 52) as [Hsmall|Hbig].
  - rewrite (Z.max_l 0 (e - 52)) by lia.
    rewrite (Z.max_r 0 (- (e - 52))) by lia.
    change (2 ^ 0) with 1.
    assert (0 < 2 ^ (- (e - 52))) as Hp by (apply Z.pow_pos_nonneg; lia).
    assert (K * 2 ^ (- (e - 52))
            <= nearestEven (n * 2 ^ (- (e - 52))) (d * 1)) as Hm
      by (apply nearestEven_ge; nia).
    lia.
  - rewrite (Z.max_r 0 (e - 52)) by lia.
    rewrite (Z.max_l 0 (- (e - 52))) by lia.
    change (2 ^ 0) with 1.
    assert (0 < 2 ^ (e - 52)) as Hp by (apply Z.pow_pos_nonneg; lia).
    assert (2 ^ 52 * 2 ^ (e - 52) = 2 ^ e) as Hsplit
      by (rewrite <- Z.pow_add_r by lia; f_equal; lia).
    assert (2 ^ 52 <= nearestEven (n * 1) (d * 2 ^ (e - 52))) as Hm
      by (apply nearestEven_ge; nia).
    assert (2 ^ 53 <= 2 ^ e) by (apply Z.pow_le_mono_r; lia).
    nia.
Qed.

(** A double that is an integer of at most 53 bits and lies above the exact
    value lies above the rounded value as well; nothing overflows. *)
Lemma roundMagnitude_le (n d K : Z) :
  0 < n -> 0 < d -> 1 <= K <= 2 ^ 53 -> n <= K * d ->
  exists y, roundMagnitude n d = Some y /\ (y <= inject_Z K)%Q.
Proof.
  intros Hn Hd HK Hle.
  assert (binade n d < 54) as He.
  { apply binade_upper; try lia.
    assert (2 ^ 53 < 2 ^ 54) by reflexivity. nia. }
  destruct (binade_spec n d Hn Hd) as [Hlow _].
  unfold roundMagnitude.
  set (e := binade n d) in *.
  set (quantum := Z.max (e - 52) (-1074)).
  assert (significand n d quantum * 2 ^ Z.max 0 quantum
          <= K * 2 ^ Z.max 0 (- quantum)) as Hm.
  { unfold significand.
    destruct (Z.le_gt_cases e 52) as [Hsmall|Hbig].
    - assert (quantum <= 0) by (unfold quantum; lia).
      rewrite (Z.max_l 0 quantum) by lia.
      rewrite (Z.max_r 0 (- quantum)) by lia.
      change (2 ^ 0) with 1.
      assert (0 < 2 ^ (- quantum)) as Hp by (apply Z.pow_pos_nonneg; lia).
      assert (nearestEven (n * 2 ^ (- quantum)) (d * 1) <= K * 2 ^ (- quantum))
        by (apply nearestEven_le; nia).
      lia.
    - assert (e = 53) as He53 by lia.
      assert (quantum = 1) as -> by (unfold quantum; lia).
      rewrite He53 in Hlow.
      change (Z.max 0 1) with 1. change (Z.max 0 (- (1))) with 0.
      change (Z.max 0 53) with 53 in Hlow.
      change (Z.max 0 (- (53))) with 0 in Hlow.
      change (2 ^ 0) with 1 in *. change (2 ^ 1) with 2.
      change (2 ^ 53) with (2 ^ 52 * 2) in *.
      set (half := 2 ^ 52) in *.
      assert (0 < half) by reflexivity.
      assert (K = half * 2) as -> by nia.
      assert (nearestEven (n * 1) (d * 2) <= half)
        by (apply nearestEven_le; lia).
      lia. }
  destruct (Z.leb_spec (2 ^ 1024 * 2 ^ Z.max 0 (- quantum))
              (significand n d quantum * 2 ^ Z.max 0 quantum)) as [Hover|_].
  - exfalso. pose proof (pow2_pos (- quantum)).
    assert (2 ^ 53 < 2 ^ 1024) by reflexivity. nia.
  - eexists. split; [reflexivity|]. now apply scaled_le.
Qed.


Lemma quantum_split (e : Z) :
  2 ^ 52 * 2 ^ Z.max 0 (e - 52) * 2 ^ Z.max 0 (- e)
  = 2 ^ Z.max 0 (- (e - 52)) * 2 ^ Z.max 0 e.
Proof. rewrite <- !Z.pow_add_r by lia. f_equal. lia. Qed.

(** A value of at least [2 ^ -1074] does not round to zero. *)
Lemma roundMagnitude_pos (n d : Z) (y : Q) :
  0 < n -> 0 < d -> d <= n * 2 ^ 1074 ->
  roundMagnitude n d = Some y -> (0 < y)%Q.
Proof.
  intros Hn Hd Hmin. unfold roundMagnitude.
  destruct (binade_spec n d Hn Hd) as [Hlow _].
  set (e := binade n d) in *.
  destruct (_ <=? _); [discriminate|]. intros [= <-].
  apply (lt_scaled 0). unfold significand.
  assert (1 <= nearestEven
                 (n * 2 ^ Z.max 0 (- Z.max (e - 52) (-1074)))
                 (d * 2 ^ Z.max 0 (Z.max (e - 52) (-1074)))) as Hm.
  { destruct (Z.le_gt_cases (-1074) (e - 52)) as [Hnormal|Hsub].
    - rewrite (Z.max_l (e - 52) (-1074)) by lia.
      pose proof (quantum_split e) as Hsplit.
      pose proof (pow2_pos (e - 52)) as Hq1.
      pose proof (pow2_pos (- (e - 52))) as Hq2.
      pose proof (pow2_pos e) as He1.
      pose proof (pow2_pos (- e)) as He2.
      assert (2 ^ 52 * (d * 2 ^ Z.max 0 (e - 52))
              <= n * 2 ^ Z.max 0 (- (e - 52))) as Hk.
      { apply (Z.mul_le_mono_pos_r _ _ (2 ^ Z.max 0 (- e))); [exact He2|].
        set (A := 2 ^ Z.max 0 (e - 52)) in *.
        set (B := 2 ^ Z.max 0 (- (e - 52))) in *.
        set (C := 2 ^ Z.max 0 e) in *.
        set (D := 2 ^ Z.max 0 (- e)) in *.
        set (P := 2 ^ 52) in *.
        replace (P * (d * A) * D) with (d * (P * A * D)) by ring.
        rewrite Hsplit. nia. }
      assert (0 < 2 ^ 52) by reflexivity.
      assert (2 ^ 52 <= nearestEven (n * 2 ^ Z.max 0 (- (e - 52)))
                          (d * 2 ^ Z.max 0 (e - 52)))
        by (apply nearestEven_ge; [nia | exact Hk]).
      lia.
    - rewrite (Z.max_r (e - 52) (-1074)) by lia.
      change (Z.max 0 (- (-1074))) with 1074.
      change (Z.max 0 (-1074)) with 0. change (2 ^ 0) with 1.
      apply nearestEven_ge; lia. }
  pose proof (pow2_pos (Z.max (e - 52) (-1074))). nia.
Qed.

(** Between two consecutive integers below [2 ^ 53], a quotient of two
    integers whose dividend is below [2 ^ 53] is never rounded down to the
    lower one. *)
Lemma roundMagnitude_above (a b q : Z) :
  0 < b -> 1 <= q -> q * b < a -> a < 2 ^ 53 ->
  match roundMagnitude a b with
  | Some y => (inject_Z q < y)%Q
  | None => True
  end.
Proof.
  intros Hb Hq Hlow Hsafe.
  assert (0 < a) as Ha by nia.
  pose proof (binade_nonneg a b Hb ltac:(nia)) as He0.
  assert (binade a b < 53) as He1.
  { apply binade_upper; lia. }
  destruct (binade_spec a b Ha Hb) as [Hbin _].
  unfold roundMagnitude.
  set (e := binade a b) in *.
  rewrite (Z.max_r 0 e) in Hbin by lia.
  rewrite (Z.max_l 0 (- e)) in Hbin by lia.
  change (2 ^ 0) with 1 in Hbin.
  rewrite (Z.max_l (e - 52) (-1074)) by lia.
  destruct (_ <=? _); [exact I|].
  apply lt_scaled. unfold significand.
  rewrite (Z.max_l 0 (e - 52)) by lia.
  rewrite (Z.max_r 0 (- (e - 52))) by lia.
  change (2 ^ 0) with 1.
  assert (2 ^ e * (2 * 2 ^ (- (e - 52))) = 2 ^ 53) as Hsplit.
  { change 2 with (2 ^ 1) at 2. rewrite <- !Z.pow_add_r by lia.
    f_equal. lia. }
  assert (0 < 2 ^ e) as Hpe by (apply Z.pow_pos_nonneg; lia).
  assert (0 < 2 ^ (- (e - 52))) as Hps by (apply Z.pow_pos_nonneg; lia).
  set (s := 2 ^ (- (e - 52))) in *. set (E := 2 ^ e) in *.
  set (top := 2 ^ 53) in *.
  assert (b < 2 * s) as Hroom by nia.
  assert (q * s + 1 <= nearestEven (a * s) (b * 1)) as Hm.
  { apply nearestEven_above_half; [lia|]. nia. }
  lia.
Qed.


Lemma round_reduced (q y : Q) : round q = Js.Finite y -> Qred y = y.
Proof.
  unfold round. destruct (Qnum q) as [|n|n].
  - intros [= <-]. reflexivity.
  - destruct (roundMagnitude _ _) as [z|] eqn:E; [|discriminate].
    intros [= <-]. now apply roundMagnitude_reduced in E.
  - destruct (roundMagnitude _ _) as [z|] eqn:E; [|discriminate].
    intros [= <-]. rewrite Qred_opp. f_equal.
    now apply roundMagnitude_reduced in E.
Qed.

Lemma Qred_integer (k : Z) (y : Q) :
  Qred y = y -> (y == inject_Z k)%Q -> y = inject_Z k.
Proof.
  intros Hred Heq. rewrite <- Hred.
  rewrite (Qred_complete _ _ Heq).
  unfold Qred, inject_Z.
  pose proof (Z.ggcd_gcd k 1) as Hgcd.
  pose proof (Z.ggcd_correct_divisors k 1) as Hdiv.
  destruct (Z.ggcd k 1) as [g [kk one]]. cbn [fst snd] in *.
  rewrite Z.gcd_1_r in Hgcd. subst g. destruct Hdiv as [Hk Hone].
  assert (kk = k) as -> by lia. assert (one = 1) as -> by lia.
  reflexivity.
Qed.

(** Rounding never crosses an integer of at most 53 bits: a value below
    such an integer is not rounded above it ... *)
Lemma round_le (q : Q) (K : Z) :
  (0 <= q)%Q -> (q <= inject_Z K)%Q -> K <= 2 ^ 53 ->
  exists y, round q = Js.Finite y /\ (0 <= y)%Q /\ (y <= inject_Z K)%Q.
Proof.
  intros Hq HK Hsafe. destruct q as [n d]. unfold round.
  unfold Qle in Hq, HK. cbn [Qnum Qden inject_Z] in *.
  destruct n as [|n|n]; [| |lia].
  - exists 0%Q. split; [reflexivity|]. split; [apply Qle_refl|].
    unfold Qle. cbn. lia.
  - assert (1 <= K <= 2 ^ 53) as HK1 by nia.
    assert (Zpos n <= K * Zpos d) as HK2 by lia.
    destruct (roundMagnitude_le (Zpos n) (Zpos d) K ltac:(lia) ltac:(lia)
                HK1 HK2) as (y & Hy & Hle).
    exists y. rewrite Hy. split; [reflexivity|]. split; [|exact Hle].
    apply (roundMagnitude_nonneg (Zpos n) (Zpos d)); [lia | lia | exact Hy].
Qed.

(** ... and a value above it is not rounded below it. *)
Lemma round_ge (q : Q) (K : Z) :
  (inject_Z K <= q)%Q -> 0 <= K <= 2 ^ 53 ->
  Js.leb (Js.ofZ K) (round q) = true.
Proof.
  intros HK Hsafe. destruct q as [n d]. unfold round.
  unfold Qle in HK. cbn [Qnum Qden inject_Z] in *.
  destruct n as [|n|n]; [| |lia].
  - assert (K = 0) as -> by lia. reflexivity.
  - destruct (Z.eq_dec K 0) as [->|Hne].
    + destruct (roundMagnitude (Zpos n) (Zpos d)) as [y|] eqn:Hy;
        [|reflexivity].
      cbn. apply Qle_bool_iff.
      apply (roundMagnitude_nonneg (Zpos n) (Zpos d)); [lia | lia | exact Hy].
    + pose proof (roundMagnitude_ge (Zpos n) (Zpos d) K) as Hge.
      destruct (roundMagnitude (Zpos n) (Zpos d)) as [y|]; [|reflexivity].
      cbn. apply Qle_bool_iff. apply Hge; lia.
Qed.

(** An integer of at most 53 bits is a double: rounding leaves it as it is. *)
Lemma round_integer (q : Q) (k : Z) :
  (q == inject_Z k)%Q -> 0 <= k <= 2 ^ 53 ->
  round q = Js.Finite (inject_Z k).
Proof.
  intros Hq Hk.
  assert (0 <= q)%Q as Hpos.
  { rewrite Hq. change 0%Q with (inject_Z 0). rewrite <- Zle_Qle. lia. }
  destruct (round_le q k Hpos) as (y & Hy & _ & Hle);
    [rewrite Hq; apply Qle_refl | lia |].
  pose proof (round_ge q k) as Hge. rewrite Hy in Hge. cbn in Hge.
  rewrite Hy. f_equal. apply Qred_integer.
  - now apply (round_reduced q).
  - apply Qle_antisym; [exact Hle|].
    apply Qle_bool_iff, Hge; [rewrite Hq; apply Qle_refl | lia].
Qed.

Lemma Qceiling_between (y : Q) (k : Z) :
  (inject_Z k < y)%Q -> (y <= inject_Z (k + 1))%Q -> Qceiling y = k + 1.
Proof.
  intros Hlow Hhigh.
  pose proof (Qle_ceiling y) as Hup.
  pose proof (Qceiling_lt y) as Hdown.
  assert (inject_Z k < inject_Z (Qceiling y))%Q as H1
    by (eapply Qlt_le_trans; eassumption).
  assert (inject_Z (Qceiling y - 1) < inject_Z (k + 1))%Q as H2
    by (eapply Qlt_le_trans; eassumption).
  rewrite <- Zlt_Qlt in H1, H2. lia.
Qed.

(** The quotient of a file size below [2 ^ 53] by a positive integer chunk
    size: its rounding to a double does not change its ceiling. *)
Lemma div_ceiling (a b : Z) :
  0 <= a < 2 ^ 53 -> 0 < b < 2 ^ 1024 ->
  Js.ceil (Double.div (Js.ofZ a) (Js.ofZ b))
  = Js.ofZ (Integrity.ceilDiv a b).
Proof.
  intros Ha Hb.
  pose proof (ceilDiv_bounds a b ltac:(lia)) as Hn.
  set (n := Integrity.ceilDiv a b) in *.
  unfold Double.div, Js.ofZ, isZero, Js.eqb, Js.ofZ.
  assert (Qeq_bool (inject_Z b) (inject_Z 0) = false) as ->.
  { apply not_true_is_false. intros H. apply Qeq_bool_iff in H.
    unfold Qeq in H. cbn in H. lia. }
  destruct b as [|b|b]; try lia.
  unfold round, Qdiv, Qmult, Qinv. cbn [Qnum Qden inject_Z].
  rewrite Z.mul_1_r, Pos.mul_1_l.
  destruct a as [|a|a]; try lia.
  - cbn. subst n. reflexivity.
  - assert (1 <= n) by nia.
    destruct (roundMagnitude_le (Zpos a) (Zpos b) n) as (y & Hy & Hle);
      try lia.
    { split; [lia|]. assert (n - 1 < 2 ^ 53) by nia. lia. }
    rewrite Hy. cbn [Js.ceil]. do 2 f_equal.
    replace n with (n - 1 + 1) in Hle |- * by lia.
    apply Qceiling_between; [|exact Hle].
    destruct (Z.eq_dec (n - 1) 0) as [Hzero|Hpos].
    + rewrite Hzero.
      assert (2 ^ 1024 <= 2 ^ 1074) by (apply Z.pow_le_mono_r; lia).
      apply (roundMagnitude_pos (Zpos a) (Zpos b)); [lia | lia | nia | exact Hy].
    + pose proof (roundMagnitude_above (Zpos a) (Zpos b) (n - 1)) as Habove.
      rewrite Hy in Habove. apply Habove; lia.
Qed.


Lemma max_ofZ (a b : Z) : Js.max (Js.ofZ a) (Js.ofZ b) = Js.ofZ (Z.max a b).
Proof.
  unfold Js.max, Js.ofZ, Js.leb.
  destruct (Qle_bool (inject_Z a) (inject_Z b)) eqn:E.
  - apply Qle_bool_iff in E. rewrite <- Zle_Qle in E.
    now rewrite Z.max_r by lia.
  - assert (~ a <= b) as Hgt.
    { intros H. rewrite Zle_Qle in H. apply Qle_bool_iff in H. congruence. }
    now rewrite Z.max_l by lia.
Qed.

(** With a file size of at most [2 ^ 53], the byte count computed in
    doubles is the exact one, whatever the two integer factors are. *)
Lemma bytesForChunkIndex_exact (chunkIndex chunkSize fileSize : Z) :
  fileSize <= 2 ^ 53 ->
  NumberIntegrity.bytesForChunkIndex
    (Js.ofZ chunkIndex) (Js.ofZ chunkSize) (Js.ofZ fileSize)
  = Js.ofZ (Integrity.bytesForChunkIndex chunkIndex chunkSize fileSize).
Proof.
  intros Hsafe.
  unfold NumberIntegrity.bytesForChunkIndex, Integrity.bytesForChunkIndex.
  cbv zeta. rewrite !max_ofZ.
  set (i := Z.max 0 chunkIndex). set (c := Z.max 0 chunkSize).
  set (size := Z.max 0 fileSize).
  assert (0 <= i) by (subst i; lia). assert (0 <= c) by (subst c; lia).
  assert (0 <= size <= 2 ^ 53) as Hsize by (subst size; lia).
  change (Double.mul (Js.ofZ i) (Js.ofZ c))
    with (round (inject_Z i * inject_Z c)).
  assert (inject_Z i * inject_Z c == inject_Z (i * c))%Q as Hproduct
    by (unfold Qeq; cbn; lia).
  destruct (Z.le_gt_cases (i * c) size) as [Hin|Hout].
  - rewrite (round_integer _ (i * c) Hproduct) by nia.
    rewrite Z.min_l by lia.
    unfold Js.min, Js.ofZ, Js.leb.
    assert (Qle_bool (inject_Z (i * c)) (inject_Z size) = true) as ->
      by (apply Qle_bool_iff; rewrite <- Zle_Qle; lia).
    reflexivity.
  - rewrite Z.min_r by lia.
    pose proof (round_ge (inject_Z i * inject_Z c) size) as Hge.
    assert (inject_Z size <= inject_Z i * inject_Z c)%Q as Hle
      by (rewrite Hproduct, <- Zle_Qle; lia).
    specialize (Hge Hle Hsize).
    destruct (round (inject_Z i * inject_Z c)) as [| | |y] eqn:Hy;
      try discriminate Hge; [reflexivity|].
    cbn in Hge. apply Qle_bool_iff in Hge.
    unfold Js.min, Js.ofZ, Js.leb.
    destruct (Qle_bool y (inject_Z size)) eqn:E; [|reflexivity].
    apply Qle_bool_iff in E. f_equal. apply Qred_integer.
    + now apply (round_reduced (inject_Z i * inject_Z c)).
    + now apply Qle_antisym.
Qed.

Lemma leb_ofZ (a b : Z) : Js.leb (Js.ofZ a) (Js.ofZ b) = (a <=? b).
Proof.
  unfold Js.leb, Js.ofZ.
  destruct (Z.leb_spec a b) as [H|H].
  - apply Qle_bool_iff. now rewrite <- Zle_Qle.
  - apply not_true_is_false. intros E. apply Qle_bool_iff in E.
    rewrite <- Zle_Qle in E. lia.
Qed.

Lemma calculateTotalChunks_exact (fileSize chunkSize : Z) :
  0 <= fileSize < 2 ^ 53 -> chunkSize < 2 ^ 1024 ->
  NumberIntegrity.calculateTotalChunks (Js.ofZ fileSize) (Js.ofZ chunkSize)
  = Js.ofZ (Integrity.calculateTotalChunks fileSize chunkSize).
Proof.
  intros Hsize Hchunk.
  unfold NumberIntegrity.calculateTotalChunks, Integrity.calculateTotalChunks.
  rewrite leb_ofZ.
  destruct (Z.leb_spec chunkSize 0) as [Hle|Hgt]; [reflexivity|].
  apply div_ceiling; lia.
Qed.

(** The rounding of [Double] and the Standard Library's binary64 give the
    same product and the same quotient on the samples: exact and inexact
    results, a tie, subnormal results, overflows and divisions by zero. *)
Lemma round_agrees_with_binary64 :
  Forall (fun '(x, y) =>
            Double.mul (Js.ofZ x) (Js.ofZ y) = binary64Mul x y /\
            Double.div (Js.ofZ x) (Js.ofZ y) = binary64Div x y)
    Samples.doublePairs.
Proof.
  unfold Samples.doublePairs.
  repeat (constructor; [vm_compute; split; reflexivity|]).
  constructor.
Qed.

End DoubleFacts.

(** ** The number of chunks of a file *)

Section TotalChunks.
Import Double.

(** C10, as stated, fails: the code takes the ceiling of the quotient
    rounded to a double, and a quotient just above an integer is rounded
    down to it.  The two sizes below are doubles that an offer can carry
    (they pass the checks of [handleIncomingFileOffer]); the quotient
    rounds to 3, and three chunks do not hold the file. *)
Lemma calculateTotalChunks_rounded_quotient :
  representable (inject_Z Samples.hugeFileSize) /\
  representable (inject_Z Samples.hugeChunkSize) /\
  NumberIntegrity.calculateTotalChunks
    (Js.ofZ Samples.hugeFileSize) (Js.ofZ Samples.hugeChunkSize) = Js.ofZ 3 /\
  Qceiling (inject_Z Samples.hugeFileSize / inject_Z Samples.hugeChunkSize) = 4 /\
  3 * Samples.hugeChunkSize < Samples.hugeFileSize /\
  ~ (forall fileSize chunkSize : Z,
       representable (inject_Z fileSize) ->
       representable (inject_Z chunkSize) ->
       0 < chunkSize ->
       NumberIntegrity.calculateTotalChunks (Js.ofZ fileSize) (Js.ofZ chunkSize)
       = Js.ofZ (Qceiling (inject_Z fileSize / inject_Z chunkSize))).
Proof.
  assert (representable (inject_Z Samples.hugeFileSize)) as Hfile
    by (vm_compute; reflexivity).
  assert (representable (inject_Z Samples.hugeChunkSize)) as Hchunk
    by (vm_compute; reflexivity).
  split; [exact Hfile|]. split; [exact Hchunk|].
  split; [vm_compute; reflexivity|]. split; [vm_compute; reflexivity|].
  split; [vm_compute; reflexivity|].
  intros Hclaim.
  specialize (Hclaim Samples.hugeFileSize Samples.hugeChunkSize Hfile Hchunk
                ltac:(vm_compute; reflexivity)).
  vm_compute in Hclaim. discriminate Hclaim.
Qed.

(** C10, amended. [calculateTotalChunks] is a total function of two
    numbers.  Whenever [chunkSize <= 0] it returns 0 (the guard precedes
    the division), whatever [fileSize] is.  Otherwise it returns
    [Math.ceil] of the double-precision quotient [fileSize / chunkSize];
    for an integer [fileSize] with [0 <= fileSize <= 2 ^ 53 - 1] and a
    positive integer [chunkSize] that is the ceiling of the exact
    quotient: the least [n] with [fileSize <= n * chunkSize], and the
    value of the integer function [Integrity.calculateTotalChunks].  For a
    zero-byte file it is 0, whatever the positive [chunkSize]. *)
Theorem calculateTotalChunks_total :
  (forall fileSize chunkSize : Js.number,
     Js.leb chunkSize (Js.ofZ 0) = true ->
     NumberIntegrity.calculateTotalChunks fileSize chunkSize = Js.ofZ 0) /\
  (forall fileSize chunkSize : Js.number,
     Js.leb chunkSize (Js.ofZ 0) = false ->
     NumberIntegrity.calculateTotalChunks fileSize chunkSize
     = Js.ceil (Double.div fileSize chunkSize)) /\
  (forall fileSize chunkSize : Z,
     0 <= fileSize <= TransferStore.MAX_SAFE_INTEGER ->
     0 < chunkSize < 2 ^ 1024 ->
     exists n,
       NumberIntegrity.calculateTotalChunks
         (Js.ofZ fileSize) (Js.ofZ chunkSize) = Js.ofZ n /\
       n = Qceiling (inject_Z fileSize / inject_Z chunkSize) /\
       (n - 1) * chunkSize < fileSize <= n * chunkSize /\
       n = Integrity.calculateTotalChunks fileSize chunkSize) /\
  (forall chunkSize : Js.number,
     Js.ltb (Js.ofZ 0) chunkSize = true ->
     NumberIntegrity.calculateTotalChunks (Js.ofZ 0) chunkSize = Js.ofZ 0).
Proof.
  split; [|split; [|split]].
  - intros fileSize chunkSize Hguard.
    unfold NumberIntegrity.calculateTotalChunks. now rewrite Hguard.
  - intros fileSize chunkSize Hguard.
    unfold NumberIntegrity.calculateTotalChunks. now rewrite Hguard.
  - intros fileSize chunkSize Hfile Hchunk.
    unfold TransferStore.MAX_SAFE_INTEGER in Hfile.
    exists (Integrity.calculateTotalChunks fileSize chunkSize).
    split; [apply calculateTotalChunks_exact; lia|].
    unfold Integrity.calculateTotalChunks.
    destruct (Z.leb_spec chunkSize 0); [lia|].
    split; [apply ceilDiv_Qceiling; lia|].
    split; [apply ceilDiv_bounds; lia | reflexivity].
  - intros chunkSize Hpositive.
    unfold NumberIntegrity.calculateTotalChunks.
    destruct chunkSize as [ | | |q]; try discriminate Hpositive.
    + reflexivity.
    + cbn in Hpositive. apply negb_true_iff in Hpositive.
      assert (Js.leb (Js.Finite q) (Js.ofZ 0) = false) as -> by exact Hpositive.
      assert (0 < q)%Q as Hq.
      { apply Qnot_le_lt. intros H. apply Qle_bool_iff in H.
        change (inject_Z 0) with 0%Q in Hpositive. congruence. }
      unfold Double.div, isZero, Js.eqb, Js.ofZ.
      assert (Qeq_bool q (inject_Z 0) = false) as ->.
      { apply not_true_is_false. intros H. apply Qeq_bool_iff in H.
        rewrite H in Hq. now apply Qlt_irrefl in Hq. }
      destruct q as [n d]. unfold Qlt in Hq. cbn in Hq.
      reflexivity.
Qed.

Lemma calculateTotalChunks_total_witness :
  NumberIntegrity.calculateTotalChunks (Js.ofZ 100) (Js.ofZ (-3)) = Js.ofZ 0 /\
  NumberIntegrity.calculateTotalChunks Js.NaN (Js.ofZ 0) = Js.ofZ 0 /\
  (exists n,
     NumberIntegrity.calculateTotalChunks (Js.ofZ 65537) (Js.ofZ 65536)
     = Js.ofZ n /\ (n - 1) * 65536 < 65537 <= n * 65536) /\
  NumberIntegrity.calculateTotalChunks (Js.ofZ 0) (Js.ofZ 65536) = Js.ofZ 0.
Proof.
  destruct calculateTotalChunks_total as (Hguard & _ & Hsafe & Hempty).
  split; [apply Hguard; reflexivity|].
  split; [apply Hguard; reflexivity|].
  split.
  - destruct (Hsafe 65537 65536) as (n & Hn & _ & Hbounds & _).
    + vm_compute. split; discriminate.
    + split; reflexivity.
    + exists n. split; [exact Hn | exact Hbounds].
  - apply Hempty. reflexivity.
Defined.

End TotalChunks.

(** ** Theorems: adaptive-chunk *)

Section AdaptiveChunkFacts.
Import AdaptiveChunk.

Lemma roundChunkSize_spec (v : Z) : roundChunkSize v = flooredTo4KiB v.
Proof.
  unfold roundChunkSize, flooredTo4KiB, MIN_CHUNK_SIZE_BYTES,
    CHUNK_SIZE_STEP_BYTES.
  change (16 * 1024) with 16384. change (4 * 1024) with 4096. lia.
Qed.

Lemma flooredTo4KiB_idem (v : Z) : flooredTo4KiB (flooredTo4KiB v) = flooredTo4KiB v.
Proof.
  unfold flooredTo4KiB.
  set (k := v / 4096).
  destruct (Z.max_spec 16384 (4096 * k)) as [[Hk ->]|[Hk ->]].
  - rewrite (Z.mul_comm 4096 k), Z.div_mul by lia. lia.
  - change (16384 / 4096) with 4. lia.
Qed.

Lemma flooredTo4KiB_lower (v : Z) :
  flooredTo4KiB (Z.max 16384 v) = flooredTo4KiB v.
Proof.
  unfold flooredTo4KiB.
  destruct (Z.max_spec 16384 v) as [[Hv ->]|[Hv ->]]; [reflexivity|].
  change (16384 / 4096) with 4.
  assert (v / 4096 <= 4) by (apply Z.div_le_upper_bound; lia).
  lia.
Qed.

Lemma chooseChunkSizeByRtt_spec (base : Z) (rtt : option Q) :
  chooseChunkSizeByRtt base rtt = rttTieredSize base rtt.
Proof.
  unfold chooseChunkSizeByRtt, rttTieredSize, RTT_FAST_MS, RTT_MEDIUM_MS,
    RTT_SLOW_MS, MIN_CHUNK_SIZE_BYTES.
  change (48 * 1024) with 49152. change (32 * 1024) with 32768.
  change (16 * 1024) with 16384.
  destruct rtt as [r|]; rewrite ?roundChunkSize_spec; [|reflexivity].
  repeat match goal with |- context [if ?b then _ else _] => destruct b end;
    now rewrite ?roundChunkSize_spec.
Qed.

Lemma rttTieredSize_fixed (base : Z) (rtt : option Q) :
  flooredTo4KiB (rttTieredSize base rtt) = rttTieredSize base rtt.
Proof.
  unfold rttTieredSize. destruct rtt as [r|].
  - repeat match goal with |- context [if ?b then _ else _] => destruct b end;
      apply flooredTo4KiB_idem.
  - apply flooredTo4KiB_idem.
Qed.

(** C1, as stated, fails: a [maxMessageSize] of 0 is a number, not null,
    yet the planner treats it as "no limit" ([!maxMessageSize]) and keeps
    the 64 KiB tier, above the 16 KiB that the message limit would allow. *)
Lemma buildAdaptiveChunkPlan_zero_limit_unclamped :
  chunkSize (buildAdaptiveChunkPlan 65536 (Some 0) None) = 65536 /\
  messageLimitSize 0 = 16384 /\
  ~ (forall (base m : Z) (rtt : option Q),
       chunkSize (buildAdaptiveChunkPlan base (Some m) rtt)
         <= messageLimitSize m).
Proof.
  split; [reflexivity|]. split; [reflexivity|].
  intros H. specialize (H 65536 0 None). vm_compute in H. apply H. reflexivity.
Qed.

(** C1, amended. For every base chunk size, RTT sample (a number or null)
    and [maxMessageSize] (a number or null), the planned chunk size is the
    RTT-tiered size (null or at most 60 ms keeps the base; at most 140 ms
    caps at 48 KiB; at most 280 ms caps at 32 KiB; above caps at 16 KiB;
    each rounded down to a 4 KiB multiple and floored at 16 KiB), clamped by
    the message limit whenever [maxMessageSize] is neither null nor 0: then
    the result is the smaller of the tiered size and the limit
    [maxMessageSize - 1024] rounded down to 4 KiB and floored at 16 KiB,
    and so does not exceed that limit.  A [maxMessageSize] of null or 0
    leaves the tiered size as it is. *)
Theorem buildAdaptiveChunkPlan_policy
    (base : Z) (maxMessageSize : option Z) (rtt : option Q) :
  let plan := buildAdaptiveChunkPlan base maxMessageSize rtt in
  (maxMessageSize = None \/ maxMessageSize = Some 0 ->
     chunkSize plan = rttTieredSize base rtt) /\
  (forall m, maxMessageSize = Some m -> m <> 0 ->
     chunkSize plan = Z.min (rttTieredSize base rtt) (messageLimitSize m) /\
     chunkSize plan <= messageLimitSize m).
Proof.
  cbn. rewrite chooseChunkSizeByRtt_spec.
  unfold clampChunkSizeByMaxMessageSize.
  rewrite roundChunkSize_spec, rttTieredSize_fixed.
  split.
  - intros [->| ->]; reflexivity.
  - intros m -> Hm. destruct (Z.eqb_spec m 0); [contradiction|].
    rewrite roundChunkSize_spec.
    unfold MIN_CHUNK_SIZE_BYTES, MESSAGE_OVERHEAD_BYTES.
    change (16 * 1024) with 16384. rewrite flooredTo4KiB_lower.
    unfold messageLimitSize. split; [reflexivity | lia].
Qed.

Lemma buildAdaptiveChunkPlan_policy_witness :
  chunkSize (buildAdaptiveChunkPlan 65536 (Some 20000) (Some 100%Q)) = 16384 /\
  chunkSize (buildAdaptiveChunkPlan 65536 None (Some 400%Q)) = 16384.
Proof.
  split.
  - pose proof (buildAdaptiveChunkPlan_policy 65536 (Some 20000) (Some 100%Q))
      as [_ H].
    destruct (H 20000 eq_refl ltac:(lia)) as [-> _]. reflexivity.
  - pose proof (buildAdaptiveChunkPlan_policy 65536 None (Some 400%Q))
      as [H _].
    rewrite H by (left; reflexivity). reflexivity.
Defined.

End AdaptiveChunkFacts.

(** ** Theorems: send-queue *)

Section SendQueueFacts.
Import SendQueue Samples.

Lemma withRevision_fresh state newItems newActive :
  withRevision state newItems false newActive
  = {| items := newItems; activeItemId := newActive;
       revision := revision state + 1 |}.
Proof. reflexivity. Qed.

Lemma statusEqb_eq a b : statusEqb a b = true <-> a = b.
Proof. destruct a, b; cbn; split; intros; congruence. Qed.

Lemma sendingCount_cons item queue :
  sendingCount (item :: queue)
  = ((if statusEqb (status item) Sending then 1 else 0)
     + sendingCount queue)%nat.
Proof.
  unfold sendingCount. cbn.
  destruct (statusEqb (status item) Sending); reflexivity.
Qed.

Lemma sendingCount_app queue more :
  sendingCount (queue ++ more)
  = (sendingCount queue + sendingCount more)%nat.
Proof.
  induction queue as [|item queue IH]; [reflexivity|].
  cbn [app]. rewrite !sendingCount_cons, IH. lia.
Qed.

Lemma sendingCount_none queue :
  Forall (fun item => status item <> Sending) queue ->
  sendingCount queue = 0%nat.
Proof.
  induction 1 as [|item queue Hitem _ IH]; [reflexivity|].
  rewrite sendingCount_cons, IH.
  destruct (statusEqb (status item) Sending) eqn:E; [|reflexivity].
  apply statusEqb_eq in E. contradiction.
Qed.

(** A per-item update that never turns an item into a sending one does not
    raise the count. *)
Lemma sendingCount_map_le (f : OutgoingQueueItem -> OutgoingQueueItem) queue :
  (forall item, status (f item) = Sending -> status item = Sending) ->
  (sendingCount (map f queue) <= sendingCount queue)%nat.
Proof.
  intros Hf. induction queue as [|item queue IH]; [reflexivity|].
  cbn [map]. rewrite !sendingCount_cons.
  destruct (statusEqb (status (f item)) Sending) eqn:E.
  - apply statusEqb_eq, Hf in E. rewrite E. cbn. lia.
  - destruct (statusEqb (status item) Sending); lia.
Qed.

Lemma sendingCount_filter_le (keep : OutgoingQueueItem -> bool) queue :
  (sendingCount (List.filter keep queue) <= sendingCount queue)%nat.
Proof.
  induction queue as [|item queue IH]; [reflexivity|].
  cbn [List.filter]. destruct (keep item);
    rewrite ?sendingCount_cons;
    destruct (statusEqb (status item) Sending); lia.
Qed.

Lemma map_id_preserved (f : OutgoingQueueItem -> OutgoingQueueItem) queue :
  (forall item, id (f item) = id item) ->
  map id (map f queue) = map id queue.
Proof.
  intros Hf. induction queue as [|item queue IH]; [reflexivity|].
  cbn. now rewrite Hf, IH.
Qed.

Lemma NoDup_map_id_filter (keep : OutgoingQueueItem -> bool) queue :
  NoDup (map id queue) -> NoDup (map id (List.filter keep queue)).
Proof.
  induction queue as [|item queue IH]; [trivial|].
  cbn. rewrite NoDup_cons. intros [Hnotin Hnd].
  destruct (keep item); [|auto].
  cbn. apply NoDup_cons. split; [|auto].
  intros Hin. apply Hnotin.
  apply list_elem_of_fmap in Hin as (other & Hid & Hother).
  apply list_elem_of_fmap. exists other. split; [assumption|].
  apply list_elem_of_In. apply list_elem_of_In in Hother.
  apply filter_In in Hother. tauto.
Qed.

Lemma markSendingItem_id now itemId item :
  id (markSendingItem now itemId item) = id item.
Proof.
  unfold markSendingItem.
  destruct (hasId itemId item); [reflexivity|].
  destruct (statusEqb (status item) Sending); reflexivity.
Qed.

Lemma markSendingItem_status now itemId item :
  status (markSendingItem now itemId item) = Sending <-> id item = itemId.
Proof.
  unfold markSendingItem, hasId.
  destruct (String.eqb_spec (id item) itemId) as [Heq|Hne]; cbn.
  - tauto.
  - destruct (statusEqb (status item) Sending) eqn:E; cbn.
    + split; [discriminate | contradiction].
    + split; [|contradiction].
      intros H. rewrite <- statusEqb_eq in H. congruence.
Qed.

Lemma markSending_absent now itemId queue :
  itemId ∉ map id queue ->
  sendingCount (map (markSendingItem now itemId) queue) = 0%nat.
Proof.
  intros Hnotin. apply sendingCount_none.
  apply List.Forall_forall. intros item Hin.
  apply in_map_iff in Hin as (orig & <- & Horig).
  rewrite markSendingItem_status. intros Heq. apply Hnotin.
  apply list_elem_of_fmap. exists orig. split; [congruence|].
  now apply list_elem_of_In.
Qed.

Lemma markSending_unique now itemId queue :
  NoDup (map id queue) ->
  (sendingCount (map (markSendingItem now itemId) queue) <= 1)%nat.
Proof.
  induction queue as [|item queue IH]; [cbn; lia|].
  cbn [map]. rewrite NoDup_cons. intros [Hnotin Hnd].
  rewrite sendingCount_cons.
  destruct (statusEqb (status (markSendingItem now itemId item)) Sending) eqn:E.
  - apply statusEqb_eq, markSendingItem_status in E. subst itemId.
    rewrite markSending_absent by assumption. lia.
  - specialize (IH Hnd). lia.
Qed.

Lemma updateProgressItem_same itemId sent total item :
  id (updateProgressItem itemId sent total item) = id item /\
  status (updateProgressItem itemId sent total item) = status item.
Proof.
  unfold updateProgressItem.
  destruct (negb (hasId itemId item) || negb (statusEqb (status item) Sending));
    split; reflexivity.
Qed.

Lemma markCompletedItem_same now itemId item :
  id (markCompletedItem now itemId item) = id item /\
  (status (markCompletedItem now itemId item) = Sending ->
   status item = Sending).
Proof.
  unfold markCompletedItem. destruct (negb (hasId itemId item)); cbn;
    split; trivial; discriminate.
Qed.

Lemma markFailedItem_same now itemId message item :
  id (markFailedItem now itemId message item) = id item /\
  (status (markFailedItem now itemId message item) = Sending ->
   status item = Sending).
Proof.
  unfold markFailedItem. destruct (negb (hasId itemId item)); cbn;
    split; trivial; discriminate.
Qed.

Lemma retryItem_same itemId item :
  id (retryItem itemId item) = id item /\
  (status (retryItem itemId item) = Sending -> status item = Sending).
Proof.
  unfold retryItem. destruct (negb (retryMatches itemId item)); cbn;
    split; trivial; discriminate.
Qed.

Lemma sendQueueReducer_invariant now state action :
  queueInvariant state -> freshEnqueue state action ->
  queueInvariant (sendQueueReducer now state action).
Proof.
  intros [Hnd Hcount] Hfresh. unfold queueInvariant.
  destruct action as [newItems|itemId|itemId sent total|itemId|itemId message
                     |itemId|itemId| |]; cbn [sendQueueReducer].
  - destruct (Z.of_nat (length newItems) =? 0); [now split|].
    rewrite withRevision_fresh. cbn [items].
    destruct Hfresh as [Hnew Hdistinct]. split; [assumption|].
    rewrite sendingCount_app, (sendingCount_none newItems) by assumption. lia.
  - destruct (existsb (hasId itemId) (items state)); cbn [negb]; [|now split].
    rewrite withRevision_fresh. cbn [items]. split.
    + rewrite map_id_preserved; [assumption|].
      intros item. apply markSendingItem_id.
    + now apply markSending_unique.
  - rewrite withRevision_fresh. cbn [items]. split.
    + rewrite map_id_preserved; [assumption|].
      intros item. apply updateProgressItem_same.
    + etransitivity; [apply sendingCount_map_le | exact Hcount].
      intros item. now rewrite (proj2 (updateProgressItem_same _ _ _ item)).
  - destruct (existsb (hasId itemId) (items state)); cbn [negb]; [|now split].
    rewrite withRevision_fresh. cbn [items]. split.
    + rewrite map_id_preserved; [assumption|].
      intros item. apply markCompletedItem_same.
    + etransitivity; [apply sendingCount_map_le | exact Hcount].
      intros item. apply markCompletedItem_same.
  - destruct (existsb (hasId itemId) (items state)); cbn [negb]; [|now split].
    rewrite withRevision_fresh. cbn [items]. split.
    + rewrite map_id_preserved; [assumption|].
      intros item. apply markFailedItem_same.
    + etransitivity; [apply sendingCount_map_le | exact Hcount].
      intros item. apply markFailedItem_same.
  - destruct (existsb (retryMatches itemId) (items state)); cbn [negb];
      [|now split].
    rewrite withRevision_fresh. cbn [items]. split.
    + rewrite map_id_preserved; [assumption|].
      intros item. apply retryItem_same.
    + etransitivity; [apply sendingCount_map_le | exact Hcount].
      intros item. apply retryItem_same.
  - destruct (List.find (hasId itemId) (items state)) as [target|];
      [|now split].
    destruct (statusEqb (status target) Sending); [now split|].
    rewrite withRevision_fresh. cbn [items]. split.
    + now apply NoDup_map_id_filter.
    + etransitivity; [apply sendingCount_filter_le | exact Hcount].
  - match goal with |- context [if ?b then _ else _] => destruct b end;
      [now split|].
    rewrite withRevision_fresh. cbn [items]. split.
    + now apply NoDup_map_id_filter.
    + etransitivity; [apply sendingCount_filter_le | exact Hcount].
  - match goal with |- context [if ?b then _ else _] => destruct b end;
      [now split|].
    cbn. split; [constructor | lia].
Qed.

Lemma reachableFresh_invariant state :
  reachableFresh state -> queueInvariant state.
Proof.
  induction 1 as [|now state action _ IH Hfresh].
  - split; [constructor | cbn; lia].
  - now apply sendQueueReducer_invariant.
Qed.

(** C5, as stated, fails: the reducer trusts the items of an [enqueue].
    Two queued items that share an id are both marked sending by one
    [mark-sending], and items enqueued with status [sending] stay so. *)
Lemma reachable_two_sending :
  let twins :=
    sendQueueReducer 0
      (sendQueueReducer 0 createInitialSendQueueState
         (Enqueue [sampleItem "a" Queued; sampleItem "a" Queued]))
      (MarkSending "a") in
  let preset :=
    sendQueueReducer 0 createInitialSendQueueState
      (Enqueue [sampleItem "a" Sending; sampleItem "b" Sending]) in
  reachable twins /\ sendingCount (items twins) = 2%nat /\
  reachable preset /\ sendingCount (items preset) = 2%nat /\
  ~ (forall state, reachable state -> (sendingCount (items state) <= 1)%nat).
Proof.
  cbv zeta.
  split; [repeat constructor|]. split; [reflexivity|].
  split; [repeat constructor|]. split; [reflexivity|].
  intros H.
  specialize (H _ (reachable_step 0 _
                     (Enqueue [sampleItem "a" Sending; sampleItem "b" Sending])
                     reachable_initial)).
  vm_compute in H. lia.
Qed.

(** C5, amended. For every state reached from [createInitialSendQueueState]
    by a finite sequence of reducer actions whose [enqueue] actions add
    only items that are not [sending] and whose ids are distinct from each
    other and from the ids already queued, at most one item is [sending];
    and on any state, a [mark-sending] that finds its item turns every
    other [sending] item back to [queued]. *)
Theorem sendQueue_single_sending (state : SendQueueState) :
  reachableFresh state ->
  (sendingCount (items state) <= 1)%nat /\
  (forall now (other : SendQueueState) itemId item,
     existsb (hasId itemId) (items other) = true ->
     In item (items other) -> id item <> itemId ->
     status item = Sending ->
     In (markSendingItem now itemId item)
        (items (sendQueueReducer now other (MarkSending itemId))) /\
     status (markSendingItem now itemId item) = Queued).
Proof.
  intros Hreach. split; [apply reachableFresh_invariant, Hreach|].
  intros now other itemId item Hfound Hin Hne Hsending.
  cbn [sendQueueReducer]. rewrite Hfound. cbn [negb].
  rewrite withRevision_fresh. cbn [items]. split.
  - now apply in_map.
  - unfold markSendingItem, hasId.
    destruct (String.eqb_spec (id item) itemId); [contradiction|].
    rewrite Hsending. reflexivity.
Qed.

Lemma sampleRun_reachableFresh : reachableFresh sampleRun.
Proof.
  unfold sampleRun.
  repeat (apply reachableFresh_step); try exact I.
  - apply reachableFresh_initial.
  - split.
    + repeat constructor; discriminate.
    + cbn. apply (bool_decide_unpack _). vm_compute. exact I.
Qed.

Lemma sendQueue_single_sending_witness :
  reachableFresh sampleRun /\
  (sendingCount (items sampleRun) <= 1)%nat /\
  status (markSendingItem 7 "b" (sampleItem "a" Sending)) = Queued.
Proof.
  pose proof (sendQueue_single_sending sampleRun sampleRun_reachableFresh)
    as [Hcount Hdemote].
  split; [exact sampleRun_reachableFresh|]. split; [exact Hcount|].
  refine (proj2 (Hdemote 7
    {| items := [sampleItem "a" Sending; sampleItem "b" Queued];
       activeItemId := Some "a"; revision := 2 |}
    "b" (sampleItem "a" Sending) eq_refl _ _ eq_refl)).
  - left. reflexivity.
  - discriminate.
Defined.

Lemma find_hasId_absent itemId queue :
  (forall item, In item queue -> id item <> itemId) ->
  List.find (hasId itemId) queue = None.
Proof.
  intros Habsent.
  destruct (List.find (hasId itemId) queue) as [target|] eqn:E; [|reflexivity].
  apply find_some in E as [Hin Hid].
  apply String.eqb_eq in Hid. now apply Habsent in Hin.
Qed.

Lemma filter_keeps_all (keep : OutgoingQueueItem -> bool) queue :
  (forall item, In item queue -> keep item = true) ->
  List.filter keep queue = queue.
Proof.
  intros Hall. induction queue as [|item queue IH]; [reflexivity|].
  cbn. rewrite Hall by (left; reflexivity).
  f_equal. apply IH. intros other Hin. apply Hall. now right.
Qed.

(** C7. On every send-queue state, a [remove] whose item id is not among
    the items returns the state itself, revision included, and a
    [clear-completed] on a state without completed items returns the state
    itself. *)
Theorem sendQueueReducer_noop (now : Z) (state : SendQueueState) :
  (forall itemId,
     (forall item, In item (items state) -> id item <> itemId) ->
     sendQueueReducer now state (Remove itemId) = state) /\
  ((forall item, In item (items state) -> status item <> Completed) ->
   sendQueueReducer now state ClearCompleted = state).
Proof.
  split.
  - intros itemId Habsent. cbn [sendQueueReducer].
    now rewrite find_hasId_absent.
  - intros Hclean. cbn [sendQueueReducer].
    rewrite filter_keeps_all; [now rewrite Z.eqb_refl|].
    intros item Hin. apply Hclean in Hin.
    destruct (statusEqb (status item) Completed) eqn:E; [|reflexivity].
    apply statusEqb_eq in E. contradiction.
Qed.

Lemma sendQueueReducer_noop_witness :
  sendQueueReducer 9 sampleRun (Remove "zzz") = sampleRun /\
  sendQueueReducer 9 sampleRun ClearCompleted = sampleRun.
Proof.
  pose proof (sendQueueReducer_noop 9 sampleRun) as [Hremove Hclear].
  split.
  - apply Hremove. intros item Hin.
    cbn in Hin. destruct Hin as [<-|[<-|[]]]; discriminate.
  - apply Hclear. intros item Hin.
    cbn in Hin. destruct Hin as [<-|[<-|[]]]; discriminate.
Defined.

End SendQueueFacts.

(** ** Theorems: structured-event *)

Section StructuredEventFacts.
Import StructuredEvent Samples.

Lemma standardEnvelope_Some fields envelope :
  standardEnvelope fields = Some envelope ->
  kind envelope = STRUCTURED_EVENT_KIND /\
  Js.eqb (version envelope) STRUCTURED_EVENT_VERSION = true /\
  Js.isFinite (timestamp envelope) = true /\
  fields !! "kind" = Some (Js.VString (kind envelope)) /\
  fields !! "version" = Some (Js.VNumber (version envelope)) /\
  fields !! "event" = Some (Js.VString (event envelope)) /\
  fields !! "timestamp" = Some (Js.VNumber (timestamp envelope)) /\
  fields !! "payload" = Some (Js.VObject (payload envelope)).
Proof.
  unfold standardEnvelope, Js.get.
  destruct (fields !! "kind") as [[| | | |k| |]|]; try discriminate.
  destruct (fields !! "version") as [[| | |v| | |]|]; try discriminate.
  destruct (fields !! "event") as [[| | | |e| |]|]; try discriminate.
  destruct (fields !! "timestamp") as [[| | |t| | |]|]; try discriminate.
  destruct (fields !! "payload") as [[| | | | | |p]|]; try discriminate.
  destruct (String.eqb_spec k STRUCTURED_EVENT_KIND) as [Hk|]; [|discriminate].
  destruct (Js.eqb v STRUCTURED_EVENT_VERSION) eqn:Hv; [|discriminate].
  destruct (Js.isFinite t) eqn:Ht; [|discriminate].
  intros [= <-]. cbn. repeat split; assumption.
Qed.

Lemma legacyEnvelope_Some fields envelope :
  legacyEnvelope fields = Some envelope ->
  kind envelope = STRUCTURED_EVENT_KIND /\
  version envelope = STRUCTURED_EVENT_VERSION /\
  Js.isFinite (timestamp envelope) = true /\
  fields !! "event" = Some (Js.VString (event envelope)) /\
  fields !! "timestamp" = Some (Js.VNumber (timestamp envelope)) /\
  payload envelope = delete "timestamp" (delete "event" fields).
Proof.
  unfold legacyEnvelope, Js.get.
  destruct (fields !! "event") as [[| | | |e| |]|]; try discriminate.
  destruct (fields !! "timestamp") as [[| | |t| | |]|]; try discriminate.
  destruct (Js.isFinite t) eqn:Ht; [|discriminate].
  intros [= <-]. cbn. repeat split; assumption.
Qed.

(** C8, as stated, fails for a record whose siblings are those of a
    standard envelope: [kind], [version] and [payload] stand beside [event]
    and [timestamp], yet the parser takes the first branch and returns the
    record's own [payload] field, not the siblings. *)
Lemma parseStructuredEventEnvelope_envelope_shaped :
  envelopeShapedRecord !! "event" = Some (Js.VString "e") /\
  envelopeShapedRecord !! "timestamp" = Some (Js.VNumber (Js.Finite 5)) /\
  envelopeShapedRecord !! "kind" = Some (Js.VString "peershare.event") /\
  (exists envelope,
     parseStructuredEventEnvelope (Js.VObject envelopeShapedRecord)
     = Some envelope /\
     payload envelope !! "a" = Some (Js.VNumber (Js.Finite 1)) /\
     payload envelope !! "kind" = None) /\
  ~ (forall (raw : gmap string Js.value) eventName (time : Q),
       raw !! "event" = Some (Js.VString eventName) ->
       raw !! "timestamp" = Some (Js.VNumber (Js.Finite time)) ->
       exists envelope,
         parseStructuredEventEnvelope (Js.VObject raw) = Some envelope /\
         forall key,
           payload envelope !! key
           = if bool_decide (key = "event" \/ key = "timestamp") then None
             else raw !! key).
Proof.
  assert (parseStructuredEventEnvelope (Js.VObject envelopeShapedRecord)
          = Some {| kind := "peershare.event"; version := Js.Finite 1;
                    event := "e"; timestamp := Js.Finite 5;
                    payload := <["a" := Js.VNumber (Js.Finite 1)]> ∅ |})
    as Hparse by reflexivity.
  split; [reflexivity|]. split; [reflexivity|]. split; [reflexivity|].
  split.
  - eexists. split; [exact Hparse|]. split; reflexivity.
  - intros Hclaim.
    destruct (Hclaim envelopeShapedRecord "e" 5%Q eq_refl eq_refl)
      as (envelope & Hsame & Hpayload).
    rewrite Hparse in Hsame. injection Hsame as <-.
    specialize (Hpayload "kind"). discriminate Hpayload.
Qed.

(** C8, amended. Parsing the envelope built by
    [createStructuredEventEnvelope] from any event name, payload record and
    finite timestamp gives that envelope back (kind "peershare.event",
    version 1).  Parsing a legacy-shaped record (a string [event], a finite
    numeric [timestamp], any sibling fields) gives an envelope of that
    kind and version, with that event and timestamp; its payload holds
    exactly the siblings, unless the record is itself a standard envelope
    (its [kind] is "peershare.event", its [version] is 1 and its [payload]
    is a record): then the envelope has the record's own [payload] and
    [version] fields. *)
Theorem parseStructuredEventEnvelope_roundtrip :
  (forall eventName (eventPayload : gmap string Js.value) (time : Q),
     let envelope :=
       createStructuredEventEnvelope eventName eventPayload (Js.Finite time) in
     parseStructuredEventEnvelope (envelopeValue envelope) = Some envelope /\
     kind envelope = "peershare.event" /\ version envelope = Js.ofZ 1) /\
  (forall (raw : gmap string Js.value) eventName (time : Q),
     raw !! "event" = Some (Js.VString eventName) ->
     raw !! "timestamp" = Some (Js.VNumber (Js.Finite time)) ->
     let standard :=
       raw !! "kind" = Some (Js.VString "peershare.event") /\
       (exists v, raw !! "version" = Some (Js.VNumber (Js.Finite v)) /\
                  (v == 1)%Q) /\
       (exists p, raw !! "payload" = Some (Js.VObject p)) in
     exists envelope,
       parseStructuredEventEnvelope (Js.VObject raw) = Some envelope /\
       kind envelope = "peershare.event" /\
       Js.eqb (version envelope) (Js.ofZ 1) = true /\
       event envelope = eventName /\ timestamp envelope = Js.Finite time /\
       (~ standard ->
          version envelope = Js.ofZ 1 /\
          forall key,
            payload envelope !! key
            = if bool_decide (key = "event" \/ key = "timestamp") then None
              else raw !! key) /\
       (standard ->
          raw !! "version" = Some (Js.VNumber (version envelope)) /\
          raw !! "payload" = Some (Js.VObject (payload envelope)))).
Proof.
  split.
  - intros eventName eventPayload time envelope.
    split; [|split; reflexivity].
    unfold envelope, envelopeValue, parseStructuredEventEnvelope,
      standardEnvelope.
    cbn [kind version event timestamp payload createStructuredEventEnvelope].
    unfold Js.get.
    repeat (rewrite ?lookup_insert_eq; rewrite ?lookup_insert_ne by discriminate).
    reflexivity.
  - intros raw eventName time Hevent Htime standard.
    unfold parseStructuredEventEnvelope.
    destruct (standardEnvelope raw) as [envelope|] eqn:Hstandard.
    + apply standardEnvelope_Some in Hstandard
        as (Hk & Hv & _ & Hkind & Hversion & He & Hts & Hp).
      exists envelope. split; [reflexivity|].
      split; [exact Hk|]. split; [exact Hv|].
      split; [congruence|]. split; [congruence|].
      split; [|intros _; split; assumption].
      intros Hnot. exfalso. apply Hnot. split; [|split].
      * now rewrite Hkind, Hk.
      * destruct (version envelope) as [| | |v]; try discriminate Hv.
        exists v. split; [exact Hversion|].
        now apply Qeq_bool_iff in Hv.
      * now exists (payload envelope).
    + unfold legacyEnvelope, Js.get. rewrite Hevent, Htime.
      cbn [Js.isFinite]. eexists. split; [reflexivity|].
      cbn [kind version event timestamp payload createStructuredEventEnvelope].
      split; [reflexivity|]. split; [reflexivity|].
      split; [reflexivity|]. split; [reflexivity|]. split.
      * intros _. split; [reflexivity|].
        intros key. case_bool_decide as Hkey.
        -- destruct Hkey as [-> | ->].
           ++ rewrite lookup_delete_ne by discriminate.
              apply lookup_delete_eq.
           ++ apply lookup_delete_eq.
        -- rewrite !lookup_delete_ne by (intros <-; tauto). reflexivity.
      * intros (Hkind & (v & Hversion & Hone) & (p & Hp)). exfalso.
        unfold standardEnvelope, Js.get in Hstandard.
        rewrite Hkind, Hversion, Hevent, Htime, Hp in Hstandard.
        assert (Js.eqb (Js.Finite v) STRUCTURED_EVENT_VERSION = true) as Hv
          by (apply Qeq_bool_iff; exact Hone).
        cbn -[Js.eqb] in Hstandard. rewrite Hv in Hstandard.
        discriminate Hstandard.
Qed.

Lemma parseStructuredEventEnvelope_roundtrip_witness :
  (exists envelope,
     parseStructuredEventEnvelope (Js.VObject sampleLegacyRecord)
     = Some envelope /\
     payload envelope !! "maxMessageSize"
     = Some (Js.VNumber (Js.Finite 262144)) /\
     payload envelope !! "event" = None /\
     payload envelope !! "timestamp" = None) /\
  (exists envelope,
     parseStructuredEventEnvelope (Js.VObject envelopeShapedRecord)
     = Some envelope /\
     envelopeShapedRecord !! "payload"
     = Some (Js.VObject (payload envelope))).
Proof.
  destruct parseStructuredEventEnvelope_roundtrip as [_ Hlegacy].
  split.
  - destruct (Hlegacy sampleLegacyRecord "datachannel_open" 1700000000000%Q
                eq_refl eq_refl)
      as (envelope & Hparse & _ & _ & _ & _ & Hsiblings & _).
    destruct Hsiblings as [_ Hpayload].
    { intros [Hkind _]. discriminate Hkind. }
    exists envelope. split; [exact Hparse|].
    split; [|split].
    + rewrite Hpayload. reflexivity.
    + rewrite Hpayload. reflexivity.
    + rewrite Hpayload. reflexivity.
  - destruct (Hlegacy envelopeShapedRecord "e" 5%Q eq_refl eq_refl)
      as (envelope & Hparse & _ & _ & _ & _ & _ & Hown).
    destruct Hown as [_ Hpayload].
    { split; [reflexivity|]. split.
      - exists 1%Q. split; reflexivity.
      - eexists. reflexivity. }
    exists envelope. split; [exact Hparse | exact Hpayload].
Defined.

End StructuredEventFacts.

(** ** Theorems: transfer-finalizer *)

Section FinalizerFacts.
Import TransferStore Finalizer Samples.

Lemma seqZ_succ (start : Z) (n : nat) :
  seqZ start (Z.of_nat (S n)) = start :: seqZ (start + 1) (Z.of_nat n).
Proof. rewrite seqZ_cons by lia. do 2 f_equal; lia. Qed.

Lemma readChunks_present store upload (n : nat) :
  forall (i : Z) sink sums,
    (forall k, i <= k < i + Z.of_nat n -> getChunk store upload k <> None) ->
    readChunks store upload i n sink sums
    = (None,
       fold_left sinkWrite (map (dataAt store upload) (seqZ i (Z.of_nat n))) sink,
       sums ++ map (checksumAt store upload) (seqZ i (Z.of_nat n))).
Proof.
  induction n as [|n IH]; intros i sink sums Hall.
  - cbn. now rewrite app_nil_r.
  - cbn [readChunks]. rewrite seqZ_succ. cbn [map fold_left].
    destruct (getChunk store upload i) as [chunk|] eqn:E.
    + rewrite IH by (intros k Hk; apply Hall; lia).
      assert (dataAt store upload i = data chunk) as ->
        by (unfold dataAt; now rewrite E).
      assert (checksumAt store upload i = checksum chunk) as ->
        by (unfold checksumAt; now rewrite E).
      now rewrite <- app_assoc.
    + exfalso. apply (Hall i); [lia | exact E].
Qed.

Lemma readChunks_missing store upload (n : nat) :
  forall (i j : Z) sink sums,
    i <= j < i + Z.of_nat n ->
    getChunk store upload j = None ->
    (forall k, i <= k < j -> getChunk store upload k <> None) ->
    exists sink' sums',
      readChunks store upload i n sink sums = (Some j, sink', sums').
Proof.
  induction n as [|n IH]; intros i j sink sums Hj Hnone Hbefore; [lia|].
  cbn [readChunks].
  destruct (getChunk store upload i) as [chunk|] eqn:E.
  - assert (i <> j) by (intros ->; congruence).
    apply IH; [lia | assumption | intros k Hk; apply Hbefore; lia].
  - assert (i = j) as ->.
    { destruct (Z.eq_dec i j); [assumption|].
      exfalso. apply (Hbefore i); [lia | exact E]. }
    eauto.
Qed.

Lemma fold_sinkWrite sink datas :
  fold_left sinkWrite datas sink
  = {| mode := mode sink; sinkType := sinkType sink;
       written := written sink ++ datas;
       closed := closed sink; aborted := aborted sink |}.
Proof.
  revert sink. induction datas as [|d datas IH]; intros sink; cbn.
  - rewrite app_nil_r. now destruct sink.
  - rewrite IH. cbn. now rewrite <- app_assoc.
Qed.

(** C2, as stated, fails: an expected checksum that is the empty string is
    provided and differs from every computed checksum, yet the finalizer
    takes it as absent ([expectedChecksum && ...]) and succeeds. *)
Lemma finalize_empty_expected_checksum :
  finalizeIncomingTransferFromStore None None emptyStore "u" emptyFile (Some "")
  = (Success {| blobBytes := []; blobType := "application/octet-stream" |}
       "811c9dc5" Memory,
     {| mode := Memory; sinkType := "application/octet-stream";
        written := []; closed := true; aborted := false |}) /\
  Integrity.deriveFileChecksumFromChunkChecksums None
    (storedChecksums emptyStore "u" 0) = "811c9dc5" /\
  ~ (forall subtleDigest opfs store upload metadata expected,
       (forall i, 0 <= i < Types.totalChunks metadata ->
          getChunk store upload i <> None) ->
       expected
       <> Integrity.deriveFileChecksumFromChunkChecksums subtleDigest
            (storedChecksums store upload (Types.totalChunks metadata)) ->
       fst (finalizeIncomingTransferFromStore subtleDigest opfs store upload
              metadata (Some expected))
       = ChecksumMismatch
           (Integrity.deriveFileChecksumFromChunkChecksums subtleDigest
              (storedChecksums store upload (Types.totalChunks metadata)))).
Proof.
  split; [reflexivity|]. split; [reflexivity|].
  intros Hclaim.
  specialize (Hclaim None None emptyStore "u" emptyFile "").
  cbn in Hclaim.
  assert (Success {| blobBytes := []; blobType := "application/octet-stream" |}
            "811c9dc5" Memory = ChecksumMismatch "811c9dc5") as Habsurd.
  { apply Hclaim; [intros i Hi; lia | discriminate]. }
  discriminate Habsurd.
Qed.

Lemma seqZ_to_nat (start total : Z) :
  seqZ start (Z.of_nat (Z.to_nat total)) = seqZ start total.
Proof. unfold seqZ. now rewrite Nat2Z.id. Qed.

(** C2, amended. With [totalChunks] chunks expected, the finalizer returns
    [missing_chunk i] for the smallest index [i] in [[0, totalChunks)]
    without a stored chunk and aborts the sink.  When every chunk is there
    it derives the file checksum from the stored chunk checksums in index
    order; it returns [checksum_mismatch] with the computed checksum and
    aborts the sink exactly when [expectedChecksum] is a non-empty string
    that differs from the computed one; otherwise it closes the sink and
    returns the blob of the chunk bytes in index order, the computed
    checksum as [fileChecksum], and the sink's storage mode. *)
Theorem finalizeIncomingTransferFromStore_result
    (subtleDigest : option (list byte -> list byte)) (opfs : option string)
    (store : TransferStore) (upload : string)
    (metadata : Types.FileMetadata) (expectedChecksum : option string) :
  let total := Types.totalChunks metadata in
  let computed :=
    Integrity.deriveFileChecksumFromChunkChecksums subtleDigest
      (storedChecksums store upload total) in
  let outcome :=
    finalizeIncomingTransferFromStore subtleDigest opfs store upload
      metadata expectedChecksum in
  (forall i, 0 <= i < total -> getChunk store upload i = None ->
     (forall j, 0 <= j < i -> getChunk store upload j <> None) ->
     fst outcome = MissingChunk i /\ aborted (snd outcome) = true) /\
  ((forall i, 0 <= i < total -> getChunk store upload i <> None) ->
   (forall expected,
      expectedChecksum = Some expected ->
      expected <> "" -> expected <> computed ->
      fst outcome = ChecksumMismatch computed /\
      aborted (snd outcome) = true) /\
   (expectedChecksum = None \/ expectedChecksum = Some "" \/
    expectedChecksum = Some computed ->
    exists blob,
      fst outcome
      = Success blob computed
          (match opfs with Some _ => Opfs | None => Memory end) /\
      blobBytes blob = storedBytes store upload total /\
      aborted (snd outcome) = false /\ closed (snd outcome) = true)).
Proof.
  intros total computed outcome. subst outcome.
  unfold finalizeIncomingTransferFromStore. fold total.
  set (sink := match createOpfsChunkSink opfs upload with
               | Some opfsSink => opfsSink
               | None => createInMemoryChunkSink (Types.type metadata)
               end).
  split.
  - intros i Hi Hnone Hbefore.
    destruct (readChunks_missing store upload (Z.to_nat total) 0 i sink [])
      as (sink' & sums' & ->); [lia | assumption | assumption |].
    split; reflexivity.
  - intros Hall.
    rewrite readChunks_present by (intros k Hk; apply Hall; lia).
    rewrite !seqZ_to_nat, fold_sinkWrite. cbn [app].
    fold (storedChecksums store upload total). fold computed.
    assert (mode sink = match opfs with Some _ => Opfs | None => Memory end
            /\ written sink = [] /\ aborted sink = false) as (Hmode & Hw & Ha).
    { subst sink. destruct opfs; cbn; auto. }
    split.
    + intros expected -> Hnonempty Hdiffers.
      destruct (String.eqb_spec expected ""); [contradiction|].
      destruct (String.eqb_spec computed expected); [congruence|].
      cbn. split; reflexivity.
    + intros Hcase.
      assert (match expectedChecksum with
              | Some expected =>
                  negb (String.eqb expected "")
                  && negb (String.eqb computed expected)
              | None => false
              end = false) as ->.
      { destruct Hcase as [->|[->| ->]]; [reflexivity|reflexivity|].
        rewrite String.eqb_refl. apply andb_false_r. }
      cbn. eexists. rewrite Hmode, Hw, Ha. cbn.
      split; [reflexivity|]. split; [reflexivity|]. split; reflexivity.
Qed.

Lemma twoChunkStore_present (i : Z) :
  0 <= i < 2 -> getChunk twoChunkStore "u" i <> None.
Proof.
  intros Hi. assert (i = 0 \/ i = 1) as [->| ->] by lia; discriminate.
Qed.

Lemma finalizeIncomingTransferFromStore_result_witness :
  fst (finalizeIncomingTransferFromStore None None gapStore "u"
         twoChunkFile None) = MissingChunk 1 /\
  fst (finalizeIncomingTransferFromStore None None twoChunkStore "u"
         twoChunkFile (Some "00000000")) = ChecksumMismatch "61524a9c" /\
  exists blob,
    fst (finalizeIncomingTransferFromStore None None twoChunkStore "u"
           twoChunkFile None) = Success blob "61524a9c" Memory /\
    blobBytes blob = ["a"%byte; "b"%byte; "c"%byte].
Proof.
  pose proof (finalizeIncomingTransferFromStore_result None None gapStore "u"
                twoChunkFile None) as [Hgap _].
  pose proof (finalizeIncomingTransferFromStore_result None None twoChunkStore
                "u" twoChunkFile (Some "00000000")) as [_ Hwrong].
  pose proof (finalizeIncomingTransferFromStore_result None None twoChunkStore
                "u" twoChunkFile None) as [_ Hright].
  split; [|split].
  - apply (Hgap 1); [cbn; lia | reflexivity |].
    intros j Hj. assert (j = 0) as -> by lia. discriminate.
  - destruct (Hwrong twoChunkStore_present) as [Hmismatch _].
    apply (Hmismatch "00000000"); [reflexivity | discriminate | discriminate].
  - destruct (Hright twoChunkStore_present) as [_ Hsuccess].
    destruct (Hsuccess (or_introl eq_refl)) as (blob & Hresult & Hbytes & _).
    exists blob. split; [exact Hresult | exact Hbytes].
Defined.

End FinalizerFacts.

(** ** Theorems: the receive side of the transfer engine *)

Section TransferFacts.
Import TransferStore Transfer Samples.

Lemma getSession_supported store key session :
  getSession store key = Some session -> isSupported store = true.
Proof.
  unfold getSession. destruct (isSupported store); [reflexivity | discriminate].
Qed.

Lemma getSession_putSession store session :
  isSupported store = true ->
  getSession (putSession store session) (sessionKey session) = Some session.
Proof.
  intros Hs. unfold getSession, putSession. rewrite Hs. cbn [negb].
  unfold isSupported in *. cbn [supported sessions]. rewrite Hs. cbn [negb].
  apply lookup_insert_eq.
Qed.

(** C9. When the store already holds a session under the key of
    [(direction, uploadId)], [upsertPersistedSession] stores under that key a
    session that keeps the old [createdAt], keeps the old [fingerprint] and
    [fileChecksum] wherever the option is not supplied (and takes the
    supplied one otherwise), and carries the new status, [nextChunkIndex],
    [bytesTransferred] and the current time as [updatedAt]. *)
Theorem upsertPersistedSession_preserves
    (now : Z) (conn : P2PConnection)
    (direction : PersistedTransferDirection) (meta : Types.FileMetadata)
    (newStatus : PersistedTransferStatus) (next transferred : Z)
    (optionFingerprint optionFileChecksum : option string)
    (existing : PersistedTransferSession) :
  let key := createTransferSessionKey direction (getUploadId meta) in
  getSession (transferStore conn) key = Some existing ->
  exists session,
    getSession
      (transferStore
         (upsertPersistedSession now conn direction meta newStatus next
            transferred optionFingerprint optionFileChecksum))
      key = Some session /\
    createdAt session = createdAt existing /\
    fingerprint session
    = match optionFingerprint with
      | Some given => Some given
      | None => fingerprint existing
      end /\
    fileChecksum session
    = match optionFileChecksum with
      | Some given => Some given
      | None => fileChecksum existing
      end /\
    status session = newStatus /\
    nextChunkIndex session = next /\
    bytesTransferred session = transferred /\
    updatedAt session = now.
Proof.
  intros key Hexisting.
  pose proof (getSession_supported _ _ _ Hexisting) as Hs.
  unfold upsertPersistedSession. rewrite Hs. cbn [negb].
  fold key. rewrite Hexisting. cbn [transferStore withTransferStore].
  match goal with
  | |- context [putSession _ ?built] => set (session := built)
  end.
  exists session. split.
  - change key with (sessionKey session). now apply getSession_putSession.
  - subst session. cbn. unfold nullish.
    destruct optionFingerprint, optionFileChecksum; repeat split; reflexivity.
Qed.

Lemma upsertPersistedSession_preserves_witness :
  exists session,
    getSession
      (transferStore
         (upsertPersistedSession 900 sampleConnection Incoming twoChunkFile
            Completed 2 3 None (Some "ffffffff")))
      "incoming:u" = Some session /\
    createdAt session = 100 /\
    fingerprint session = Some "two.bin::3::application/octet-stream::7" /\
    fileChecksum session = Some "ffffffff" /\
    status session = Completed /\
    updatedAt session = 900.
Proof.
  destruct (upsertPersistedSession_preserves 900 sampleConnection Incoming
              twoChunkFile Completed 2 3 None (Some "ffffffff") storedSession
              eq_refl)
    as (session & Hget & Hcreated & Hfp & Hck & Hst & _ & _ & Hup).
  exists session. repeat split; assumption.
Defined.

Lemma sendTransferError_effect conn fileId code message :
  let after := sendTransferError conn fileId code message in
  sent after
  = sent conn
    ++ (if isDataChannelReady conn
        then [Control (TransferError fileId code message)] else []) /\
  incomingTransfers after = incomingTransfers conn /\
  inMemoryIncomingChunks after = inMemoryIncomingChunks conn /\
  currentReceivingFileId after = currentReceivingFileId conn /\
  transferStore after = transferStore conn /\
  fileOffers after = fileOffers conn.
Proof.
  unfold sendTransferError, isDataChannelReady, channelSend, sent.
  destruct (dataChannel conn) as [channel|] eqn:E; cbn.
  - destruct (readyState channel); cbn; rewrite ?E, ?app_nil_r;
      repeat split; reflexivity.
  - rewrite E. repeat split; reflexivity.
Qed.

(** C4. An offer whose id is missing or is not a non-empty string is
    answered by [sendTransferError] with code INVALID_FILE_ID, and one with a
    usable id but a chunk size that is not a number, is at most 0 or is below
    16 KiB, or a size that is not a number or is negative, by
    [sendTransferError] with code INVALID_METADATA.  Nothing else happens:
    the transfer-error frame is the only frame sent (it goes out when the
    data channel is open), so no receiver-ready is sent, and the map of
    incoming transfers is as before. *)
Theorem handleIncomingFileOffer_rejects
    (now : Z) (conn : P2PConnection) (offer : FileOfferMetadata) :
  (invalidFileId offer ->
   handleIncomingFileOffer now conn offer
   = Some (sendTransferError conn "" "INVALID_FILE_ID" "Invalid fileId")) /\
  (forall fileId,
     offerId offer = Js.VString fileId -> fileId <> "" ->
     invalidMetadata offer ->
     handleIncomingFileOffer now conn offer
     = Some (sendTransferError conn fileId "INVALID_METADATA"
               "Invalid metadata")) /\
  (forall fileId code message,
     let after := sendTransferError conn fileId code message in
     sent after
     = sent conn
       ++ (if isDataChannelReady conn
           then [Control (TransferError fileId code message)] else []) /\
     incomingTransfers after = incomingTransfers conn).
Proof.
  split; [|split].
  - intros Hid. unfold handleIncomingFileOffer.
    destruct (offerId offer) as [ | | | |text| | ] eqn:E; try reflexivity.
    rewrite (Hid text E). reflexivity.
  - intros fileId Hid Hnonempty Hbad. unfold handleIncomingFileOffer.
    rewrite Hid. destruct (String.eqb_spec fileId ""); [contradiction|].
    destruct Hbad as [Hchunk|[(c & Hchunk & Hc)|[Hsize|(z & Hsize & Hz)]]].
    + destruct (offerChunkSize offer) as [ | | |c| | | ] eqn:E;
        try reflexivity.
      now destruct (Hchunk c).
    + rewrite Hchunk.
      destruct (offerSize offer) as [ | | |z| | | ]; try reflexivity.
      change (Js.ofZ MIN_CHUNK_SIZE) with (Js.ofZ 16384).
      destruct Hc as [-> | ->]; [reflexivity|].
      now rewrite orb_true_r.
    + destruct (offerChunkSize offer) as [ | | |c| | | ]; try reflexivity.
      destruct (offerSize offer) as [ | | |z| | | ] eqn:E; try reflexivity.
      now destruct (Hsize z).
    + rewrite Hsize.
      destruct (offerChunkSize offer) as [ | | |c| | | ]; try reflexivity.
      rewrite Hz. now rewrite orb_true_r.
  - intros fileId code message after.
    pose proof (sendTransferError_effect conn fileId code message)
      as (Hsent & Htransfers & _).
    split; assumption.
Qed.

Lemma handleIncomingFileOffer_rejects_witness :
  (exists after,
     handleIncomingFileOffer 5 sampleConnection
       (sampleOffer Js.VUndefined (Js.VNumber (Js.ofZ 65536))) = Some after /\
     sent after = [Control (TransferError "" "INVALID_FILE_ID" "Invalid fileId")] /\
     incomingTransfers after = ∅) /\
  (exists after,
     handleIncomingFileOffer 5 sampleConnection
       (sampleOffer (Js.VString "f") (Js.VNumber (Js.ofZ 4096))) = Some after /\
     sent after
     = [Control (TransferError "f" "INVALID_METADATA" "Invalid metadata")] /\
     incomingTransfers after = ∅).
Proof.
  split.
  - destruct (handleIncomingFileOffer_rejects 5 sampleConnection
                (sampleOffer Js.VUndefined (Js.VNumber (Js.ofZ 65536))))
      as (Hid & _ & Heffect).
    eexists. split; [apply Hid; intros text [=]|].
    destruct (Heffect "" "INVALID_FILE_ID" "Invalid fileId") as [-> ->].
    split; reflexivity.
  - destruct (handleIncomingFileOffer_rejects 5 sampleConnection
                (sampleOffer (Js.VString "f") (Js.VNumber (Js.ofZ 4096))))
      as (_ & Hmeta & Heffect).
    eexists. split.
    + apply (Hmeta "f" eq_refl); [discriminate|].
      right. left. exists (Js.ofZ 4096). split; [reflexivity|].
      right. reflexivity.
    + destruct (Heffect "f" "INVALID_METADATA" "Invalid metadata") as [-> ->].
      split; reflexivity.
Defined.

(** For contrast: a well-formed offer does create the incoming
    transfer and is answered with receiver-ready. *)
Lemma handleIncomingFileOffer_accepts_sample :
  exists after transfer,
    handleIncomingFileOffer 5 sampleConnection
      (sampleOffer (Js.VString "f") (Js.VNumber (Js.ofZ 65536))) = Some after /\
    incomingTransfers after !! "f" = Some transfer /\
    ready transfer = true /\
    Types.totalChunks (metadata transfer) = 2 /\
    sent after = [Control (ReceiverReady "f" "u2" 0)] /\
    currentReceivingFileId after = Some "f".
Proof.
  eexists. eexists. split; [reflexivity|].
  split; [vm_compute; reflexivity|].
  repeat split; reflexivity.
Qed.


Lemma toInteger_ltb x z :
  toInteger x = Some z -> forall k, Js.ltb x (Js.ofZ k) = (z <? k).
Proof.
  destruct x as [ | | |q]; try discriminate. cbn -[Qle_bool inject_Z].
  destruct (Qeq_bool q (inject_Z (Qfloor q))) eqn:E; [|discriminate].
  intros [= <-] k. apply Qeq_bool_iff in E.
  destruct (Z.ltb_spec (Qfloor q) k) as [Hlt|Hge].
  - destruct (Qle_bool (inject_Z k) q) eqn:Hq; [|reflexivity].
    apply Qle_bool_iff in Hq. rewrite E in Hq.
    rewrite <- Zle_Qle in Hq. lia.
  - apply negb_false_iff, Qle_bool_iff. rewrite E. now rewrite <- Zle_Qle.
Qed.

Lemma calculateTotalChunks_nonneg size chunk :
  0 <= size -> 0 <= Integrity.calculateTotalChunks size chunk.
Proof.
  intros Hsize. unfold Integrity.calculateTotalChunks.
  destruct (Z.leb_spec chunk 0); [lia|].
  pose proof (ceilDiv_bounds size chunk ltac:(lia)). nia.
Qed.

Lemma chunkCountsValid_insert conn fileId transfer :
  chunkCountsValid conn ->
  0 <= Types.totalChunks (metadata transfer) ->
  chunkCountsValid
    (withIncomingTransfers conn (<[fileId := transfer]> (incomingTransfers conn))).
Proof.
  intros Hvalid Htotal key held. cbn.
  destruct (decide (fileId = key)) as [->|Hne].
  - rewrite lookup_insert_eq. now intros [= <-].
  - rewrite lookup_insert_ne by assumption. apply Hvalid.
Qed.

Lemma chunkCountsValid_same conn other :
  incomingTransfers other = incomingTransfers conn ->
  chunkCountsValid conn -> chunkCountsValid other.
Proof. intros Heq Hvalid key held. rewrite Heq. apply Hvalid. Qed.

Lemma chunkCountsValid_sendReceiverReady conn fileId upload resume :
  chunkCountsValid conn ->
  chunkCountsValid (sendReceiverReady conn fileId upload resume).
Proof.
  intros Hvalid. unfold sendReceiverReady.
  destruct (isDataChannelReady conn); cbn [negb]; [|assumption].
  intros key held.
  assert (incomingTransfers
            (logEvent
               (channelSend
                  (withIncomingTransfers conn
                     (alter markReady fileId (incomingTransfers conn)))
                  (Control (ReceiverReady fileId upload resume)))
               "transfer_receiver_ready_sent")
          = alter markReady fileId (incomingTransfers conn)) as ->.
  { unfold channelSend. cbn. now destruct (dataChannel conn). }
  rewrite lookup_alter. destruct (decide (fileId = key)) as [->|Hne].
  - destruct (incomingTransfers conn !! key) as [old|] eqn:Hold;
      cbn; [|discriminate].
    intros [= <-]. cbn. now apply (Hvalid key old).
  - apply Hvalid.
Qed.

Lemma chunkCountsValid_upsert now conn direction meta st next bytes fp ck :
  chunkCountsValid conn ->
  chunkCountsValid
    (upsertPersistedSession now conn direction meta st next bytes fp ck).
Proof.
  apply chunkCountsValid_same. unfold upsertPersistedSession.
  now destruct (isSupported (transferStore conn)).
Qed.

(** Accepting an offer keeps every expected chunk count non-negative; this
    is why [requestRetransmit] and [normalizeChunkIndex] can count on a
    [totalChunks] that is not negative. *)
Lemma handleIncomingFileOffer_chunkCountsValid now conn offer after :
  chunkCountsValid conn ->
  handleIncomingFileOffer now conn offer = Some after ->
  chunkCountsValid after.
Proof.
  intros Hvalid. unfold handleIncomingFileOffer.
  assert (forall fileId code message,
            chunkCountsValid (sendTransferError conn fileId code message))
    as Hreject.
  { intros fileId code message.
    apply (chunkCountsValid_same conn); [|assumption].
    apply sendTransferError_effect. }
  destruct (offerId offer) as [ | | | |fileId| | ];
    try (intros [= <-]; apply Hreject).
  destruct (String.eqb fileId ""); [intros [= <-]; apply Hreject|].
  destruct (offerChunkSize offer) as [ | | |chunk| | | ];
    try (intros [= <-]; apply Hreject).
  destruct (offerSize offer) as [ | | |size| | | ];
    try (intros [= <-]; apply Hreject).
  destruct (Js.leb chunk (Js.ofZ 0) || Js.ltb chunk (Js.ofZ MIN_CHUNK_SIZE)
            || Js.ltb size (Js.ofZ 0)) eqn:Hchecks;
    [intros [= <-]; apply Hreject|].
  destruct (toInteger chunk) as [chunkSize|] eqn:Hchunk; [|discriminate].
  destruct (toInteger size) as [fileSize|] eqn:Hsize; [|discriminate].
  intros [= <-].
  apply orb_false_iff in Hchecks as [_ Hnonneg].
  rewrite (toInteger_ltb _ _ Hsize) in Hnonneg. apply Z.ltb_ge in Hnonneg.
  pose proof (calculateTotalChunks_nonneg fileSize chunkSize Hnonneg) as Htotal.
  unfold acceptFileOffer.
  set (total := Integrity.calculateTotalChunks fileSize chunkSize) in *.
  match goal with
  | |- context [match ?probe with (_, _) => _ end] =>
      destruct probe as [[resume received] probed] eqn:Hprobe
  end.
  assert (incomingTransfers probed = incomingTransfers conn) as Hsame.
  { revert Hprobe.
    repeat match goal with
           | |- context [if ?b then _ else _] => destruct b
           | |- context [match ?o with Some _ => _ | None => _ end] =>
               destruct o
           end; intros [= _ _ <-]; reflexivity. }
  apply (chunkCountsValid_same _ _ eq_refl).
  apply chunkCountsValid_sendReceiverReady, chunkCountsValid_upsert.
  match goal with
  | |- chunkCountsValid (if ?b then logEvent ?c _ else ?c) =>
      apply (chunkCountsValid_same c); [now destruct b|]
  end.
  apply chunkCountsValid_insert; [|exact Htotal].
  now apply (chunkCountsValid_same conn).
Qed.

Lemma inKeyRange_true upload lower key :
  inKeyRange upload lower key = true
  <-> key.1 = upload /\ lower <= key.2 <= MAX_SAFE_INTEGER.
Proof.
  unfold inKeyRange.
  rewrite !andb_true_iff, String.eqb_eq, !Z.leb_le. tauto.
Qed.

Lemma getChunk_deleteChunksFrom store upload fromChunk other i :
  getChunk (deleteChunksFrom store upload fromChunk) other i
  = if inKeyRange upload (Z.max 0 fromChunk) (other, i) then None
    else getChunk store other i.
Proof.
  unfold getChunk, deleteChunksFrom, isSupported.
  destruct (supported store) eqn:Hs; cbn [negb].
  - cbn [supported chunks negb]. rewrite ?Hs. cbn [negb].
    unfold deleteKeyRange.
    destruct (inKeyRange upload (Z.max 0 fromChunk) (other, i)) eqn:Hrange.
    + apply map_lookup_filter_None. right. intros record _. cbn.
      congruence.
    + destruct (chunks store !! (other, i)) as [record|] eqn:Hget.
      * apply map_lookup_filter_Some. split; [assumption | exact Hrange].
      * apply map_lookup_filter_None. left. assumption.
  - rewrite ?Hs. cbn [negb]. now destruct (inKeyRange _ _ _).
Qed.

Lemma getChunk_putSession store session upload i :
  getChunk (putSession store session) upload i = getChunk store upload i.
Proof.
  unfold getChunk, putSession, isSupported.
  destruct (supported store) eqn:Hs; cbn [negb]; rewrite ?Hs; reflexivity.
Qed.

Lemma getChunks_putSession store session upload :
  getChunks (putSession store session) upload = getChunks store upload.
Proof.
  unfold getChunks, putSession, isSupported.
  destruct (supported store) eqn:Hs; cbn [negb]; rewrite ?Hs; reflexivity.
Qed.

Lemma upsertPersistedSession_chunks now conn direction meta st next bytes fp ck :
  let store :=
    transferStore
      (upsertPersistedSession now conn direction meta st next bytes fp ck) in
  (forall upload i, getChunk store upload i = getChunk (transferStore conn) upload i)
  /\ (forall upload, getChunks store upload = getChunks (transferStore conn) upload).
Proof.
  unfold upsertPersistedSession.
  destruct (isSupported (transferStore conn)); cbn [negb]; [|now split].
  cbn [transferStore withTransferStore]. split; intros.
  - apply getChunk_putSession.
  - apply getChunks_putSession.
Qed.


Lemma requestRetransmit_store now conn transfer fromChunk reason :
  let startChunk :=
    Integrity.normalizeChunkIndex fromChunk
      (Types.totalChunks (metadata transfer)) in
  let store := transferStore (snd (requestRetransmit now conn transfer
                                     fromChunk reason)) in
  let deleted :=
    deleteChunksFrom (transferStore conn) (uploadId transfer) startChunk in
  (forall upload i, getChunk store upload i = getChunk deleted upload i) /\
  (forall upload, getChunks store upload = getChunks deleted upload).
Proof.
  cbv zeta. unfold requestRetransmit.
  cbn [snd uploadId bytesReceived metadata].
  set (startChunk := Integrity.normalizeChunkIndex _ _).
  assert (forall c e, transferStore (logEvent c e) = transferStore c)
    as Hlog by reflexivity.
  assert (forall c (b : bool) frame,
            transferStore (if b then channelSend c frame else c)
            = transferStore c) as Hsend.
  { intros c [] frame; [|reflexivity].
    unfold channelSend. now destruct (dataChannel c). }
  rewrite Hlog, Hsend.
  match goal with
  | |- context [upsertPersistedSession now ?c ?d ?m ?s ?n ?b ?f ?k] =>
      destruct (upsertPersistedSession_chunks now c d m s n b f k)
        as [Hchunk Hchunks]
  end.
  split.
  - intros upload i. rewrite Hchunk.
    destruct (isSupported (transferStore conn)) eqn:Hs; [reflexivity|].
    unfold deleteChunksFrom. rewrite Hs. reflexivity.
  - intros upload. rewrite Hchunks.
    destruct (isSupported (transferStore conn)) eqn:Hs; [reflexivity|].
    unfold deleteChunksFrom. rewrite Hs. reflexivity.
Qed.



End TransferFacts.

(** ** More on transfer-integrity *)

Section ChunkArithmetic.
Import Integrity.

(** X1. For a file of [0 <= size <= 2 ^ 53 - 1] bytes and a positive integer
    chunk size, the chunk boundaries that the code computes in double
    precision partition the file: no bytes before chunk 0, all [size]
    bytes after the last chunk, and for every chunk index below
    [calculateTotalChunks] the boundary is [i * chunkSize], the chunk is not
    empty and has at most [chunkSize] bytes. *)
Theorem bytesForChunkIndex_partition (size chunkSize : Z) :
  0 <= size <= TransferStore.MAX_SAFE_INTEGER -> 0 < chunkSize < 2 ^ 1024 ->
  exists total,
    NumberIntegrity.calculateTotalChunks (Js.ofZ size) (Js.ofZ chunkSize)
    = Js.ofZ total /\
    0 <= total /\
    NumberIntegrity.bytesForChunkIndex
      (Js.ofZ 0) (Js.ofZ chunkSize) (Js.ofZ size) = Js.ofZ 0 /\
    NumberIntegrity.bytesForChunkIndex
      (Js.ofZ total) (Js.ofZ chunkSize) (Js.ofZ size) = Js.ofZ size /\
    forall i, 0 <= i < total ->
      NumberIntegrity.bytesForChunkIndex
        (Js.ofZ i) (Js.ofZ chunkSize) (Js.ofZ size) = Js.ofZ (i * chunkSize) /\
      exists next,
        NumberIntegrity.bytesForChunkIndex
          (Js.ofZ (i + 1)) (Js.ofZ chunkSize) (Js.ofZ size) = Js.ofZ next /\
        0 < next - i * chunkSize <= chunkSize.
Proof.
  intros Hsize Hchunk. unfold TransferStore.MAX_SAFE_INTEGER in Hsize.
  exists (calculateTotalChunks size chunkSize).
  set (total := calculateTotalChunks size chunkSize).
  assert ((total - 1) * chunkSize < size <= total * chunkSize) as Hbounds.
  { subst total. unfold calculateTotalChunks.
    destruct (Z.leb_spec chunkSize 0); [lia|]. apply ceilDiv_bounds. lia. }
  assert (0 <= total) by nia.
  split; [apply calculateTotalChunks_exact; lia|].
  split; [assumption|].
  rewrite !bytesForChunkIndex_exact by lia.
  split; [f_equal; unfold bytesForChunkIndex; lia|].
  split; [f_equal; unfold bytesForChunkIndex; nia|].
  intros i Hi. rewrite !bytesForChunkIndex_exact by lia.
  split; [f_equal; unfold bytesForChunkIndex; nia|].
  eexists. split; [reflexivity|]. unfold bytesForChunkIndex. nia.
Qed.

Lemma bytesForChunkIndex_partition_witness :
  exists total,
    NumberIntegrity.calculateTotalChunks (Js.ofZ 10) (Js.ofZ 4) = Js.ofZ total /\
    NumberIntegrity.bytesForChunkIndex (Js.ofZ total) (Js.ofZ 4) (Js.ofZ 10)
    = Js.ofZ 10 /\
    NumberIntegrity.bytesForChunkIndex (Js.ofZ 2) (Js.ofZ 4) (Js.ofZ 10)
    = Js.ofZ (2 * 4).
Proof.
  destruct (bytesForChunkIndex_partition 10 4)
    as (total & Htotal & _ & _ & Hlast & Hinner).
  - vm_compute. split; discriminate.
  - split; reflexivity.
  - exists total. split; [exact Htotal|]. split; [exact Hlast|].
    apply (Hinner 2).
    assert (total = 3) as ->.
    { assert (Js.ofZ total = Js.ofZ 3) as Heq by (rewrite <- Htotal; reflexivity).
      injection Heq as Heq. exact Heq. }
    lia.
Defined.

(** Whatever the arguments (negative ones included), the byte count never
    leaves [[0, max 0 fileSize]] and never decreases when the chunk index
    grows. *)
Theorem bytesForChunkIndex_saturates (i j chunkSize fileSize : Z) :
  0 <= bytesForChunkIndex i chunkSize fileSize <= Z.max 0 fileSize /\
  (i <= j ->
   bytesForChunkIndex i chunkSize fileSize
   <= bytesForChunkIndex j chunkSize fileSize).
Proof. unfold bytesForChunkIndex. split; [nia|]. intros Hij. nia. Qed.

Lemma normalizeChunkIndex_integer (k n : Z) :
  0 <= k <= n -> normalizeChunkIndex (Js.ofZ k) n = k.
Proof.
  intros Hk. unfold normalizeChunkIndex, Js.ofZ, Js.leb, Js.geb, Js.leb.
  destruct (Qle_bool (inject_Z k) (inject_Z 0)) eqn:E0.
  - apply Qle_bool_iff in E0. rewrite <- Zle_Qle in E0. lia.
  - destruct (Qle_bool (inject_Z n) (inject_Z k)) eqn:En.
    + apply Qle_bool_iff in En. rewrite <- Zle_Qle in En. lia.
    + apply Qfloor_Z.
Qed.

(** Normalizing is idempotent, and leaves every integer index of
    [[0, totalChunks]] as it is. *)
Theorem normalizeChunkIndex_idempotent (x : Js.number) (n : Z) :
  0 <= n ->
  normalizeChunkIndex (Js.ofZ (normalizeChunkIndex x n)) n
  = normalizeChunkIndex x n /\
  (forall k, 0 <= k <= n -> normalizeChunkIndex (Js.ofZ k) n = k).
Proof.
  intros Hn. split.
  - apply normalizeChunkIndex_integer. now apply normalizeChunkIndex_bounds.
  - intros k Hk. now apply normalizeChunkIndex_integer.
Qed.

Lemma normalizeChunkIndex_idempotent_witness :
  normalizeChunkIndex (Js.ofZ (normalizeChunkIndex (Js.Finite (17 # 2)) 5)) 5
  = normalizeChunkIndex (Js.Finite (17 # 2)) 5.
Proof.
  destruct (normalizeChunkIndex_idempotent (Js.Finite (17 # 2)) 5 ltac:(lia))
    as [Hidem _].
  exact Hidem.
Defined.

End ChunkArithmetic.

(** ** More on transfer-integrity: checksums *)

Section ChecksumText.
Import Integrity.

Lemma chars_append (a b : string) :
  list_ascii_of_string (String.append a b)
  = list_ascii_of_string a ++ list_ascii_of_string b.
Proof.
  induction a as [|c a IH]; [reflexivity|].
  change (list_ascii_of_string (String.append (String c a) b))
    with (c :: list_ascii_of_string (String.append a b)).
  now rewrite IH.
Qed.

Lemma length_chars (text : string) :
  length (list_ascii_of_string text) = String.length text.
Proof. induction text as [|c text IH]; cbn; [reflexivity | now rewrite IH]. Qed.

Lemma hexDigit_isHexDigit (z : Z) : isHexDigit (hexDigit (z mod 16)) = true.
Proof.
  pose proof (Z.mod_pos_bound z 16 ltac:(lia)) as Hrange.
  unfold hexDigit.
  assert (Z.to_nat (z mod 16) < 16)%nat as Hlt by lia.
  generalize dependent (Z.to_nat (z mod 16)). intros n Hlt.
  do 16 (destruct n as [|n]; [reflexivity|]). lia.
Qed.

Lemma hexFixed_shape (width : nat) (z : Z) :
  length (list_ascii_of_string (hexFixed width z)) = width /\
  forallb isHexDigit (list_ascii_of_string (hexFixed width z)) = true.
Proof.
  revert z. induction width as [|width IH]; intros z; [now split|].
  change (hexFixed (S width) z)
    with (String.append (hexFixed width (z / 16))
            (String (hexDigit (z mod 16)) EmptyString)).
  rewrite chars_append. destruct (IH (z / 16)) as [Hlen Hhex].
  split.
  - rewrite length_app, Hlen. cbn. lia.
  - rewrite forallb_app, Hhex.
    change (list_ascii_of_string (String (hexDigit (z mod 16)) EmptyString))
      with [hexDigit (z mod 16)].
    cbn [forallb andb]. now rewrite hexDigit_isHexDigit.
Qed.

Lemma toHex_shape (buffer : list byte) :
  length (list_ascii_of_string (toHex buffer)) = (2 * length buffer)%nat /\
  forallb isHexDigit (list_ascii_of_string (toHex buffer)) = true.
Proof.
  unfold toHex.
  assert (forall acc,
    length (list_ascii_of_string
              (fold_left (fun hex b => String.append hex (hexFixed 2 (byteValue b)))
                 buffer acc))
    = (length (list_ascii_of_string acc) + 2 * length buffer)%nat /\
    (forallb isHexDigit (list_ascii_of_string acc) = true ->
     forallb isHexDigit
       (list_ascii_of_string
          (fold_left (fun hex b => String.append hex (hexFixed 2 (byteValue b)))
             buffer acc)) = true)) as Hgen.
  { induction buffer as [|b buffer IH]; intros acc; cbn [fold_left].
    - split; [cbn; lia | trivial].
    - destruct (IH (String.append acc (hexFixed 2 (byteValue b)))) as [Hlen Hhex].
      destruct (hexFixed_shape 2 (byteValue b)) as [Hlen2 Hhex2].
      split.
      + rewrite Hlen, chars_append, length_app, Hlen2. cbn [length]. lia.
      + intros Hacc. apply Hhex. rewrite chars_append, forallb_app.
        now rewrite Hacc, Hhex2. }
  destruct (Hgen EmptyString) as [Hlen Hhex]. split; [exact Hlen | now apply Hhex].
Qed.

(** X2. Every checksum is a string of lower-case hexadecimal digits: eight of
    them from the FNV-1a fallback, two per digest byte otherwise.  So a
    checksum never contains the line feed that joins checksums. *)
Theorem hashArrayBuffer_hex
    (subtleDigest : option (list byte -> list byte)) (data : list byte) :
  forallb isHexDigit
    (list_ascii_of_string (hashArrayBuffer subtleDigest data)) = true /\
  String.length (hashArrayBuffer subtleDigest data)
  = match subtleDigest with
    | Some sha256 => (2 * length (sha256 data))%nat
    | None => 8%nat
    end.
Proof.
  unfold hashArrayBuffer, fnv1a32Hex. rewrite <- length_chars.
  destruct subtleDigest as [sha256|].
  - destruct (toHex_shape (sha256 data)) as [Hlen Hhex]. now split.
  - destruct (hexFixed_shape 8 (fold_left fnv1a32Step data 2166136261))
      as [Hlen Hhex]. now split.
Qed.

End ChecksumText.

(** ** More on transfer-integrity: the text behind the file checksum *)

Section ChecksumJoin.
Import Integrity.

Lemma isChecksumText_chars (text : string) :
  isChecksumText text = true ->
  list_ascii_of_string text <> [] /\
  Forall (fun c => c <> lineFeed) (list_ascii_of_string text).
Proof.
  unfold isChecksumText. intros H. apply andb_true_iff in H as [Hne Hhex].
  split.
  - destruct text; [discriminate | discriminate].
  - apply List.Forall_forall. intros c Hin.
    rewrite forallb_forall in Hhex. specialize (Hhex c Hin).
    intros ->. discriminate.
Qed.

Lemma split_at_lineFeed (x y r1 r2 : list ascii) :
  Forall (fun c => c <> lineFeed) x ->
  Forall (fun c => c <> lineFeed) y ->
  x ++ lineFeed :: r1 = y ++ lineFeed :: r2 ->
  x = y /\ r1 = r2.
Proof.
  revert y. induction x as [|c x IH]; intros y Hx Hy Heq.
  - destruct y as [|d y]; cbn in Heq.
    + now injection Heq.
    + injection Heq as Hd _. apply Forall_cons_1 in Hy as [Hd' _].
      congruence.
  - apply Forall_cons_1 in Hx as [Hc Hx].
    destruct y as [|d y]; cbn in Heq.
    + injection Heq as Hd _. congruence.
    + injection Heq as -> Hrest. apply Forall_cons_1 in Hy as [_ Hy].
      destruct (IH y Hx Hy Hrest) as [-> ->]. now split.
Qed.

Lemma chars_concat_cons (x y : string) (rest : list string) :
  list_ascii_of_string (String.concat newline (x :: y :: rest))
  = list_ascii_of_string x
    ++ lineFeed :: list_ascii_of_string (String.concat newline (y :: rest)).
Proof.
  change (String.concat newline (x :: y :: rest))
    with (String.append x
            (String.append newline (String.concat newline (y :: rest)))).
  now rewrite !chars_append.
Qed.

Lemma chars_injective (a b : string) :
  list_ascii_of_string a = list_ascii_of_string b -> a = b.
Proof.
  intros H. rewrite <- (string_of_list_ascii_of_string a),
    <- (string_of_list_ascii_of_string b). now rewrite H.
Qed.

Lemma joined_chars_injective (l1 : list string) :
  forall l2,
    Forall (fun text => isChecksumText text = true) l1 ->
    Forall (fun text => isChecksumText text = true) l2 ->
    list_ascii_of_string (String.concat newline l1)
    = list_ascii_of_string (String.concat newline l2) ->
    l1 = l2.
Proof.
  induction l1 as [|x l1 IH]; intros l2 H1 H2 Heq.
  - destruct l2 as [|y l2]; [reflexivity|]. exfalso.
    apply Forall_cons_1 in H2 as [Hy _].
    apply isChecksumText_chars in Hy as [Hy _].
    destruct l2 as [|y' l2]; [cbn in Heq; congruence|].
    rewrite chars_concat_cons in Heq. cbn in Heq.
    destruct (list_ascii_of_string y); [congruence | discriminate].
  - apply Forall_cons_1 in H1 as [Hx H1].
    pose proof (isChecksumText_chars _ Hx) as [Hxne Hxnl].
    destruct l2 as [|y l2].
    + exfalso. destruct l1 as [|x' l1]; [cbn in Heq; congruence|].
      rewrite chars_concat_cons in Heq. cbn in Heq.
      destruct (list_ascii_of_string x); [congruence | discriminate].
    + apply Forall_cons_1 in H2 as [Hy H2].
      pose proof (isChecksumText_chars _ Hy) as [Hyne Hynl].
      destruct l1 as [|x' l1], l2 as [|y' l2].
      * f_equal. apply chars_injective. exact Heq.
      * exfalso. rewrite chars_concat_cons in Heq. cbn [String.concat] in Heq.
        rewrite Heq in Hxnl. apply Forall_app in Hxnl as [_ Hbad].
        apply Forall_cons_1 in Hbad as [Hbad _]. congruence.
      * exfalso. rewrite chars_concat_cons in Heq. cbn [String.concat] in Heq.
        rewrite <- Heq in Hynl. apply Forall_app in Hynl as [_ Hbad].
        apply Forall_cons_1 in Hbad as [Hbad _]. congruence.
      * rewrite !chars_concat_cons in Heq.
        destruct (split_at_lineFeed _ _ _ _ Hxnl Hynl Heq) as [Hhead Htail].
        apply chars_injective in Hhead. subst y. f_equal.
        now apply IH.
Qed.

(** X3. The text that [deriveFileChecksumFromChunkChecksums] hashes determines
    the list of chunk checksums: two lists of checksums (non-empty
    hexadecimal strings) that differ, be it in one entry, in length or in
    order, are hashed from different texts. *)
Theorem deriveFileChecksum_text_injective
    (subtleDigest : option (list byte -> list byte)) (l1 l2 : list string) :
  Forall (fun text => isChecksumText text = true) l1 ->
  Forall (fun text => isChecksumText text = true) l2 ->
  deriveFileChecksumFromChunkChecksums subtleDigest l1
  = hashText subtleDigest (String.concat newline l1) /\
  (String.concat newline l1 = String.concat newline l2 -> l1 = l2).
Proof.
  intros H1 H2. split; [reflexivity|].
  intros Heq. apply (joined_chars_injective l1 l2 H1 H2). now rewrite Heq.
Qed.

Lemma deriveFileChecksum_text_injective_witness :
  deriveFileChecksumFromChunkChecksums None ["aa"; "bb"]
  = hashText None (String.concat newline ["aa"; "bb"]) /\
  (String.concat newline ["aa"; "bb"] = String.concat newline ["aa"; "bb"] ->
   ["aa"; "bb"] = ["aa"; "bb"]).
Proof.
  apply (deriveFileChecksum_text_injective None ["aa"; "bb"] ["aa"; "bb"]).
  - repeat constructor.
  - repeat constructor.
Defined.

End ChecksumJoin.


(** ** More on adaptive-chunk: the shape of a plan *)

Section ChunkPlanShape.
Import AdaptiveChunk.

Lemma flooredTo4KiB_props (v : Z) :
  16384 <= flooredTo4KiB v /\
  flooredTo4KiB v mod 4096 = 0 /\
  flooredTo4KiB v <= Z.max 16384 v /\
  (16384 <= v -> v - 4096 < flooredTo4KiB v).
Proof.
  unfold flooredTo4KiB.
  pose proof (Z.div_mod v 4096 ltac:(lia)) as Hdm.
  pose proof (Z.mod_pos_bound v 4096 ltac:(lia)) as Hmod.
  set (k := v / 4096) in *.
  split; [lia|]. split; [|lia].
  destruct (Z.max_spec 16384 (4096 * k)) as [[_ ->]|[_ ->]].
  - rewrite Z.mul_comm. apply Z.mod_mul. lia.
  - reflexivity.
Qed.

Lemma flooredTo4KiB_mono (a b : Z) :
  a <= b -> flooredTo4KiB a <= flooredTo4KiB b.
Proof.
  intros Hab. unfold flooredTo4KiB.
  pose proof (Z.div_le_mono a b 4096 ltac:(lia) Hab). lia.
Qed.

Lemma planned_chunkSize (base : Z) (maxMessageSize : option Z) (rtt : option Q) :
  chunkSize (buildAdaptiveChunkPlan base maxMessageSize rtt)
  = match maxMessageSize with
    | None => rttTieredSize base rtt
    | Some m =>
        if m =? 0 then rttTieredSize base rtt
        else Z.min (rttTieredSize base rtt) (messageLimitSize m)
    end.
Proof.
  cbn. rewrite chooseChunkSizeByRtt_spec.
  unfold clampChunkSizeByMaxMessageSize.
  rewrite roundChunkSize_spec, rttTieredSize_fixed.
  destruct maxMessageSize as [m|]; [|reflexivity].
  destruct (Z.eqb_spec m 0); [reflexivity|].
  rewrite roundChunkSize_spec.
  unfold MIN_CHUNK_SIZE_BYTES, MESSAGE_OVERHEAD_BYTES.
  change (16 * 1024) with 16384. now rewrite flooredTo4KiB_lower.
Qed.

Lemma rttTieredSize_props (base : Z) (rtt : option Q) :
  16384 <= rttTieredSize base rtt /\
  rttTieredSize base rtt mod 4096 = 0 /\
  rttTieredSize base rtt <= flooredTo4KiB base.
Proof.
  unfold rttTieredSize. destruct rtt as [r|].
  - repeat match goal with |- context [if ?b then _ else _] => destruct b end;
      (split; [apply flooredTo4KiB_props|];
       split; [apply flooredTo4KiB_props|];
       apply flooredTo4KiB_mono; lia).
  - split; [apply flooredTo4KiB_props|].
    split; [apply flooredTo4KiB_props | lia].
Qed.

(** X4. Whatever the base size, the message limit and the RTT sample, the
    planned chunk size is at least 16 KiB, a multiple of 4 KiB, and never
    above the base size (or 16 KiB when the base is smaller). *)
Theorem buildAdaptiveChunkPlan_shape
    (base : Z) (maxMessageSize : option Z) (rtt : option Q) :
  let size := chunkSize (buildAdaptiveChunkPlan base maxMessageSize rtt) in
  16384 <= size /\ size mod 4096 = 0 /\ size <= Z.max 16384 base.
Proof.
  cbv zeta. rewrite planned_chunkSize.
  destruct (rttTieredSize_props base rtt) as (Hlow & Hmod & Hup).
  destruct (flooredTo4KiB_props base) as (_ & _ & Hbase & _).
  assert (forall m,
    16384 <= Z.min (rttTieredSize base rtt) (messageLimitSize m) /\
    Z.min (rttTieredSize base rtt) (messageLimitSize m) mod 4096 = 0 /\
    Z.min (rttTieredSize base rtt) (messageLimitSize m) <= Z.max 16384 base)
    as Hmin.
  { intros m. unfold messageLimitSize.
    destruct (flooredTo4KiB_props (m - 1024)) as (Hl & Hm & _ & _).
    destruct (Z.min_spec (rttTieredSize base rtt) (flooredTo4KiB (m - 1024)))
      as [[_ ->]|[Hle ->]]; repeat split; try assumption; lia. }
  destruct maxMessageSize as [m|]; [destruct (m =? 0)|];
    try apply Hmin; (split; [assumption|]; split; [assumption | lia]).
Qed.

(** X5. A message limit of at least 17 KiB leaves room for a chunk and the
    1 KiB of overhead, and the plan wastes less than 4 KiB of it unless
    the RTT tier is smaller; a non-zero limit below 17 KiB cannot be
    honoured: the plan falls back to the 16 KiB minimum. *)
Theorem buildAdaptiveChunkPlan_message_room
    (base m : Z) (rtt : option Q) :
  let size := chunkSize (buildAdaptiveChunkPlan base (Some m) rtt) in
  (17408 <= m ->
     size + 1024 <= m /\
     (size < rttTieredSize base rtt -> m - 1024 - 4096 < size)) /\
  (m <> 0 -> m < 17408 -> size = 16384).
Proof.
  cbv zeta. rewrite planned_chunkSize.
  destruct (rttTieredSize_props base rtt) as (Hlow & _ & _).
  unfold messageLimitSize.
  destruct (flooredTo4KiB_props (m - 1024)) as (Hl & _ & Hu & Hgt).
  split.
  - intros Hm. destruct (Z.eqb_spec m 0); [lia|]. lia.
  - intros Hm0 Hm. destruct (Z.eqb_spec m 0); [contradiction|].
    assert (flooredTo4KiB (m - 1024) = 16384) as ->; [|lia].
    unfold flooredTo4KiB.
    assert ((m - 1024) / 4096 < 4) by (apply Z.div_lt_upper_bound; lia).
    lia.
Qed.

Lemma buildAdaptiveChunkPlan_message_room_witness :
  chunkSize (buildAdaptiveChunkPlan 262144 (Some 65536) None) + 1024 <= 65536 /\
  chunkSize (buildAdaptiveChunkPlan 262144 (Some 9000) None) = 16384.
Proof.
  destruct (buildAdaptiveChunkPlan_message_room 262144 65536 None) as [Hfit _].
  destruct (buildAdaptiveChunkPlan_message_room 262144 9000 None) as [_ Hmin].
  split.
  - apply Hfit. lia.
  - apply Hmin; lia.
Defined.

(** X6. The reason recorded in a plan tells which rule decided the size:
    ["max_message_size"] exactly when the message limit cut the RTT tier;
    ["rtt_adaptive"] only when the RTT tier is the size and lies below the
    rounded base; ["default"] only when the size is the rounded base. *)
Theorem buildAdaptiveChunkPlan_reason
    (base : Z) (maxMessageSize : option Z) (rtt : option Q) :
  let plan := buildAdaptiveChunkPlan base maxMessageSize rtt in
  (reason plan = ReasonMaxMessageSize <->
     chunkSize plan < chooseChunkSizeByRtt base rtt) /\
  (reason plan = ReasonRttAdaptive ->
     chunkSize plan = chooseChunkSizeByRtt base rtt /\
     chunkSize plan < roundChunkSize base /\ rtt <> None) /\
  (reason plan = ReasonDefault -> chunkSize plan = roundChunkSize base).
Proof.
  cbv zeta.
  assert (clampChunkSizeByMaxMessageSize (chooseChunkSizeByRtt base rtt)
            maxMessageSize <= chooseChunkSizeByRtt base rtt) as Hclamp.
  { pose proof (planned_chunkSize base maxMessageSize rtt) as Heq.
    cbn in Heq. rewrite Heq, chooseChunkSizeByRtt_spec.
    destruct maxMessageSize as [m|]; [destruct (m =? 0)|]; lia. }
  assert (chooseChunkSizeByRtt base rtt <= roundChunkSize base) as Htier.
  { rewrite chooseChunkSizeByRtt_spec, roundChunkSize_spec.
    apply rttTieredSize_props. }
  cbn.
  set (byRtt := chooseChunkSizeByRtt base rtt) in *.
  set (byLimit := clampChunkSizeByMaxMessageSize byRtt maxMessageSize) in *.
  destruct (Z.ltb_spec byLimit byRtt) as [Hlt|Hge].
  - split; [tauto|]. split; discriminate.
  - destruct rtt as [r|];
      [destruct (Z.eqb_spec byRtt (roundChunkSize base)) as [Heq|Hne]|];
      cbn [negb].
    + split; [split; [discriminate | lia]|].
      split; [discriminate | intros _; lia].
    + split; [split; [discriminate | lia]|].
      split; [intros _; repeat split; [lia | lia | discriminate]
             | discriminate].
    + split; [split; [discriminate | lia]|].
      split; [discriminate|]. intros _.
      assert (byRtt = roundChunkSize base) by reflexivity. lia.
Qed.

Lemma Qle_bool_trans_false (a b c : Q) :
  (a <= b)%Q -> Qle_bool a c = false -> Qle_bool b c = true -> False.
Proof.
  intros Hab Hac Hbc. apply Qle_bool_iff in Hbc.
  assert (Qle_bool a c = true) as Habs
    by (apply Qle_bool_iff; now apply Qle_trans with b).
  congruence.
Qed.

Lemma rttTieredSize_antitone (base : Z) (r1 r2 : Q) :
  (r1 <= r2)%Q ->
  rttTieredSize base (Some r2) <= rttTieredSize base (Some r1).
Proof.
  intros Hr. unfold rttTieredSize.
  destruct (Qle_bool r1 60) eqn:A1, (Qle_bool r1 140) eqn:B1,
    (Qle_bool r1 280) eqn:C1, (Qle_bool r2 60) eqn:A2,
    (Qle_bool r2 140) eqn:B2, (Qle_bool r2 280) eqn:C2;
    try (exfalso; eapply (Qle_bool_trans_false r1 r2 60); eassumption);
    try (exfalso; eapply (Qle_bool_trans_false r1 r2 140); eassumption);
    try (exfalso; eapply (Qle_bool_trans_false r1 r2 280); eassumption);
    apply flooredTo4KiB_mono; lia.
Qed.

Lemma rttTieredSize_mono_base (b1 b2 : Z) (rtt : option Q) :
  b1 <= b2 -> rttTieredSize b1 rtt <= rttTieredSize b2 rtt.
Proof.
  intros Hb. unfold rttTieredSize. destruct rtt as [r|].
  - repeat match goal with |- context [if ?b then _ else _] => destruct b end;
      apply flooredTo4KiB_mono; lia.
  - now apply flooredTo4KiB_mono.
Qed.

(** X7. The planned size never grows when the RTT gets worse, never shrinks
    when the base size grows, and never shrinks when a (non-zero) message
    limit grows; a plan without RTT sample is at least as large as any
    plan with one. *)
Theorem buildAdaptiveChunkPlan_monotone
    (base : Z) (maxMessageSize : option Z) (rtt : option Q) :
  let size b m r := chunkSize (buildAdaptiveChunkPlan b m r) in
  (forall r1 r2, (r1 <= r2)%Q ->
     size base maxMessageSize (Some r2) <= size base maxMessageSize (Some r1)) /\
  size base maxMessageSize rtt <= size base maxMessageSize None /\
  (forall base', base <= base' ->
     size base maxMessageSize rtt <= size base' maxMessageSize rtt) /\
  (forall m m', 0 < m <= m' ->
     size base (Some m) rtt <= size base (Some m') rtt).
Proof.
  cbv zeta. split; [|split; [|split]].
  - intros r1 r2 Hr. rewrite !planned_chunkSize.
    pose proof (rttTieredSize_antitone base r1 r2 Hr).
    destruct maxMessageSize as [m|]; [destruct (m =? 0)|]; lia.
  - rewrite !planned_chunkSize.
    pose proof (rttTieredSize_props base rtt) as (_ & _ & Hup).
    change (rttTieredSize base None) with (flooredTo4KiB base).
    destruct maxMessageSize as [m|]; [destruct (m =? 0)|]; lia.
  - intros base' Hb. rewrite !planned_chunkSize.
    pose proof (rttTieredSize_mono_base base base' rtt Hb).
    destruct maxMessageSize as [m|]; [destruct (m =? 0)|]; lia.
  - intros m m' Hm. rewrite !planned_chunkSize.
    destruct (Z.eqb_spec m 0); [lia|]. destruct (Z.eqb_spec m' 0); [lia|].
    unfold messageLimitSize.
    pose proof (flooredTo4KiB_mono (m - 1024) (m' - 1024) ltac:(lia)). lia.
Qed.

Lemma buildAdaptiveChunkPlan_monotone_witness :
  chunkSize (buildAdaptiveChunkPlan 65536 (Some 262144) (Some 200%Q))
  <= chunkSize (buildAdaptiveChunkPlan 65536 (Some 262144) (Some 100%Q)) /\
  chunkSize (buildAdaptiveChunkPlan 65536 (Some 20000) None)
  <= chunkSize (buildAdaptiveChunkPlan 65536 (Some 40000) None).
Proof.
  destruct (buildAdaptiveChunkPlan_monotone 65536 (Some 262144) None)
    as (Hrtt & _).
  destruct (buildAdaptiveChunkPlan_monotone 65536 None None)
    as (_ & _ & _ & Hlimit).
  split.
  - apply (Hrtt 100%Q 200%Q). discriminate.
  - apply (Hlimit 20000 40000). lia.
Defined.

(** X8. [normalizeMaxMessageSize] answers null or a non-negative integer not
    above the reported value; it answers 0, which the planner reads as "no
    limit", exactly for a reported value strictly between 0 and 1. *)
Theorem normalizeMaxMessageSize_range (raw : option Js.number) (m : Z) :
  normalizeMaxMessageSize raw = Some m ->
  exists q, raw = Some (Js.Finite q) /\ (0 < q)%Q /\ 0 <= m /\
    (inject_Z m <= q)%Q /\ (q < inject_Z (m + 1))%Q /\
    (m = 0 <-> (q < 1)%Q).
Proof.
  unfold normalizeMaxMessageSize.
  destruct raw as [[| | |q]|]; try discriminate.
  destruct (Qle_bool q 0) eqn:E; [discriminate|].
  intros [= <-]. exists q.
  assert (0 < q)%Q as Hpos.
  { apply Qnot_le_lt. intros Hle. apply Qle_bool_iff in Hle. congruence. }
  pose proof (Qfloor_le q) as Hle. pose proof (Qlt_floor q) as Hlt.
  assert (0 <= Qfloor q) as Hnn.
  { apply Z.lt_succ_r. rewrite Zlt_Qlt. change (inject_Z 0) with 0%Q.
    eapply Qlt_trans; [exact Hpos|]. exact Hlt. }
  repeat split; try assumption.
  - intros H0. rewrite H0 in Hlt. exact Hlt.
  - intros H1. assert (Qfloor q < 1); [|lia].
    rewrite Zlt_Qlt. eapply Qle_lt_trans; [exact Hle | exact H1].
Qed.

Lemma normalizeMaxMessageSize_range_witness :
  exists q, Some (Js.Finite (1 # 2)) = Some (Js.Finite q) /\ (0 < q)%Q /\
    0 <= 0 /\ (inject_Z 0 <= q)%Q /\ (q < inject_Z (0 + 1))%Q /\
    (0 = 0 <-> (q < 1)%Q).
Proof.
  apply (normalizeMaxMessageSize_range (Some (Js.Finite (1 # 2))) 0).
  reflexivity.
Defined.

End ChunkPlanShape.


(** ** More on transfer-store: chunks *)

Section ChunkStoreFacts.
Import TransferStore.

(** A chunk that was put is what [getChunk] returns for its key, with the
    size of its data; the other chunks and all sessions stay as they were.
    Without IndexedDB nothing is stored at all. *)
Theorem putChunk_getChunk
    (now : Z) (store : TransferStore) (upload : string) (index : Z)
    (bytes : list byte) (sum : string) :
  let after := putChunk now store upload index bytes sum in
  (isSupported store = true ->
     exists record,
       getChunk after upload index = Some record /\
       data record = bytes /\ checksum record = sum /\
       chunkSizeBytes record = Z.of_nat (length bytes)) /\
  (isSupported store = false -> getChunk after upload index = None) /\
  (forall other i, (other, i) <> (upload, index) ->
     getChunk after other i = getChunk store other i) /\
  (forall key, getSession after key = getSession store key).
Proof.
  unfold putChunk, getChunk, getSession, isSupported.
  destruct (supported store) eqn:Hs; cbn [negb supported chunks sessions];
    rewrite ?Hs; cbn [negb].
  - split; [|split; [discriminate|split]].
    + intros _. eexists. rewrite lookup_insert_eq. repeat split.
    + intros other i Hne. now rewrite lookup_insert_ne by congruence.
    + reflexivity.
  - split; [discriminate|]. repeat split.
Qed.

Lemma putChunk_getChunk_witness :
  exists record,
    getChunk (putChunk 7 Samples.emptyStore "u" 0 ["a"%byte] "c0") "u" 0
    = Some record /\
    data record = ["a"%byte] /\ checksum record = "c0" /\
    chunkSizeBytes record = 1.
Proof.
  destruct (putChunk_getChunk 7 Samples.emptyStore "u" 0 ["a"%byte] "c0")
    as [Hput _].
  apply Hput. reflexivity.
Defined.

Lemma contiguousFrom_spec store upload (n : nat) :
  forall start,
    let c := contiguousFrom store upload start n in
    start <= c <= start + Z.of_nat n /\
    (forall i, start <= i < c -> getChunk store upload i <> None) /\
    (c < start + Z.of_nat n -> getChunk store upload c = None).
Proof.
  induction n as [|n IH]; intros start; cbn [contiguousFrom].
  - cbv zeta. split; [lia|]. split; [intros i Hi; lia | lia].
  - destruct (getChunk store upload start) eqn:Hget.
    + specialize (IH (start + 1)). cbv zeta in IH |- *.
      destruct IH as (Hrange & Hpresent & Hstop).
      split; [lia|]. split.
      * intros i Hi. destruct (Z.eq_dec i start) as [->|Hne];
          [congruence | apply Hpresent; lia].
      * intros Hlt. apply Hstop. lia.
    + cbv zeta. split; [lia|]. split; [intros i Hi; lia | now intros _].
Qed.

(** X9. [getContiguousChunkCount] is the length of the longest prefix of the
    upload that is stored: every index below it has a chunk, and, unless
    it is the whole [totalChunks], the chunk at that index is missing. *)
Theorem getContiguousChunkCount_prefix
    (store : TransferStore) (upload : string) (totalChunks : Z) :
  let c := getContiguousChunkCount store upload totalChunks in
  0 <= c <= Z.max 0 totalChunks /\
  (forall i, 0 <= i < c -> getChunk store upload i <> None) /\
  (c < totalChunks -> getChunk store upload c = None).
Proof.
  unfold getContiguousChunkCount.
  pose proof (contiguousFrom_spec store upload (Z.to_nat totalChunks) 0)
    as (Hrange & Hpresent & Hstop).
  cbv zeta. split; [lia|]. split; [exact Hpresent|].
  intros Hlt. apply Hstop. lia.
Qed.

Lemma contiguous_prefix store upload totalChunks :
  let c := getContiguousChunkCount store upload totalChunks in
  0 <= c <= Z.max 0 totalChunks /\
  (forall i, 0 <= i < c -> getChunk store upload i <> None) /\
  (c < totalChunks -> getChunk store upload c = None).
Proof.
  unfold getContiguousChunkCount.
  destruct (contiguousFrom_spec store upload (Z.to_nat totalChunks) 0)
    as (Hrange & Hpresent & Hstop).
  cbv zeta. repeat split; try lia; [exact Hpresent|].
  intros Hlt. apply Hstop. lia.
Qed.

Lemma getContiguousChunkCount_unique store upload totalChunks (c : Z) :
  0 <= c <= Z.max 0 totalChunks ->
  (forall i, 0 <= i < c -> getChunk store upload i <> None) ->
  (c < totalChunks -> getChunk store upload c = None) ->
  getContiguousChunkCount store upload totalChunks = c.
Proof.
  intros Hc Hpresent Hstop.
  destruct (contiguous_prefix store upload totalChunks)
    as (Hrange & Hpresent' & Hstop').
  set (c' := getContiguousChunkCount store upload totalChunks) in *.
  destruct (Z.lt_trichotomy c' c) as [Hlt|[Heq|Hgt]]; [|exact Heq|].
  - exfalso. apply (Hpresent c'); [lia|]. apply Hstop'. lia.
  - exfalso. apply (Hpresent' c); [lia|]. apply Hstop. lia.
Qed.

(** X10. Deleting the chunks from an index on cuts the stored prefix at that
    index, and leaves the chunks below it and those of other uploads. *)
Theorem deleteChunksFrom_contiguous
    (store : TransferStore) (upload : string) (fromChunk totalChunks : Z) :
  totalChunks <= MAX_SAFE_INTEGER ->
  let after := deleteChunksFrom store upload fromChunk in
  getContiguousChunkCount after upload totalChunks
  = Z.min (getContiguousChunkCount store upload totalChunks)
      (Z.max 0 fromChunk) /\
  (forall i, i < Z.max 0 fromChunk ->
     getChunk after upload i = getChunk store upload i) /\
  (forall other i, other <> upload ->
     getChunk after other i = getChunk store other i).
Proof.
  intros Htotal after.
  destruct (contiguous_prefix store upload totalChunks)
    as (Hrange & Hpresent & Hstop).
  set (c := getContiguousChunkCount store upload totalChunks) in *.
  assert (forall i, i < Z.max 0 fromChunk ->
            getChunk after upload i = getChunk store upload i) as Hbelow.
  { intros i Hi. subst after. rewrite getChunk_deleteChunksFrom.
    destruct (inKeyRange upload (Z.max 0 fromChunk) (upload, i)) eqn:E;
      [|reflexivity].
    apply inKeyRange_true in E. cbn in E. lia. }
  split; [|split; [exact Hbelow|]].
  - apply getContiguousChunkCount_unique.
    + lia.
    + intros i Hi. rewrite Hbelow by lia. apply Hpresent. lia.
    + intros Hlt. destruct (Z.lt_ge_cases c (Z.max 0 fromChunk)) as [Hc|Hc].
      * rewrite Z.min_l in * by lia. rewrite Hbelow by lia.
        apply Hstop. lia.
      * rewrite Z.min_r in * by lia. subst after.
        rewrite getChunk_deleteChunksFrom.
        destruct (inKeyRange upload (Z.max 0 fromChunk)
                    (upload, Z.max 0 fromChunk)) eqn:E; [reflexivity|].
        exfalso. apply not_true_iff_false in E. apply E.
        apply inKeyRange_true. cbn. split; [reflexivity | lia].
  - intros other i Hne. subst after. rewrite getChunk_deleteChunksFrom.
    destruct (inKeyRange upload (Z.max 0 fromChunk) (other, i)) eqn:E;
      [|reflexivity].
    apply inKeyRange_true in E. cbn in E. destruct E as [E _]. congruence.
Qed.

Lemma deleteChunksFrom_contiguous_witness :
  getContiguousChunkCount (deleteChunksFrom Samples.twoChunkStore "u" 1) "u" 2
  = Z.min (getContiguousChunkCount Samples.twoChunkStore "u" 2) (Z.max 0 1).
Proof.
  destruct (deleteChunksFrom_contiguous Samples.twoChunkStore "u" 1 2)
    as [Hcut _].
  - vm_compute. discriminate.
  - exact Hcut.
Defined.

End ChunkStoreFacts.


(** ** More on transfer-store: counting chunks, deleting an upload *)

Section UploadStoreFacts.
Import TransferStore.

Lemma getChunkCount_lower store upload (total : Z) :
  total <= MAX_SAFE_INTEGER + 1 ->
  (forall i, 0 <= i < total -> getChunk store upload i <> None) ->
  total <= getChunkCount store upload.
Proof.
  intros Htotal Hpresent.
  destruct (Z.le_gt_cases total 0) as [Hle|Hpos].
  { unfold getChunkCount. destruct (negb (isSupported store)); lia. }
  assert (isSupported store = true) as Hs.
  { specialize (Hpresent 0 ltac:(lia)). unfold getChunk in Hpresent.
    destruct (isSupported store); [reflexivity | now cbn in Hpresent]. }
  unfold getChunkCount. rewrite Hs. cbn [negb].
  set (held := List.filter (fun entry => inKeyRange upload 0 entry.1)
                 (map_to_list (chunks store))).
  set (keys := (fun i => (upload, i)) <$> seqZ 0 total).
  assert (length keys = Z.to_nat total) as Hlen
    by (subst keys; now rewrite length_fmap, length_seqZ).
  assert (keys ⊆+ held.*1) as Hsub.
  { apply NoDup_submseteq.
    - subst keys. apply NoDup_fmap_2; [|apply NoDup_seqZ].
      intros i j [= ->]. reflexivity.
    - intros key Hkey. subst keys.
      apply list_elem_of_fmap in Hkey as (i & -> & Hi).
      apply elem_of_seqZ in Hi.
      specialize (Hpresent i ltac:(lia)). unfold getChunk in Hpresent.
      rewrite Hs in Hpresent. cbn [negb] in Hpresent.
      destruct (chunks store !! (upload, i)) as [record|] eqn:Hget;
        [|congruence].
      apply list_elem_of_fmap. exists ((upload, i), record).
      split; [reflexivity|]. apply list_elem_of_In. subst held.
      apply filter_In. split.
      + apply list_elem_of_In, elem_of_map_to_list. exact Hget.
      + apply inKeyRange_true. cbn. split; [reflexivity | lia]. }
  apply submseteq_length in Hsub. rewrite length_fmap in Hsub. lia.
Qed.

(** When the store counts fewer chunks than the file has, the stored
    prefix is short of the file and the chunk right after it is missing:
    this is the chunk from which [completeTransfer] asks again. *)
Theorem getChunkCount_short_prefix
    (store : TransferStore) (upload : string) (totalChunks : Z) :
  totalChunks <= MAX_SAFE_INTEGER + 1 ->
  getChunkCount store upload < totalChunks ->
  let c := getContiguousChunkCount store upload totalChunks in
  0 <= c < totalChunks /\ getChunk store upload c = None.
Proof.
  intros Htotal Hcount c.
  destruct (contiguous_prefix store upload totalChunks)
    as (Hrange & Hpresent & Hstop).
  fold c in Hrange, Hpresent, Hstop.
  assert (c < totalChunks) as Hlt.
  { destruct (Z.lt_ge_cases c totalChunks) as [Hlt|Hge]; [exact Hlt|].
    exfalso.
    assert (0 <= getChunkCount store upload)
      by (unfold getChunkCount; destruct (negb (isSupported store)); lia).
    assert (c = totalChunks) as Hc by lia.
    pose proof (getChunkCount_lower store upload totalChunks Htotal) as Hlow.
    assert (totalChunks <= getChunkCount store upload); [|lia].
    apply Hlow. intros i Hi. apply Hpresent. lia. }
  split; [lia | now apply Hstop].
Qed.

Lemma getChunkCount_short_prefix_witness :
  getChunk Samples.gapStore "u"
    (getContiguousChunkCount Samples.gapStore "u" 2) = None.
Proof.
  destruct (getChunkCount_short_prefix Samples.gapStore "u" 2) as [_ Hgap].
  - vm_compute. discriminate.
  - vm_compute. reflexivity.
  - exact Hgap.
Defined.

Lemma fold_delete_lookup (stale : list PersistedTransferSession) :
  forall (table : gmap string PersistedTransferSession) (key : string),
    fold_left (fun held session => delete (sessionKey session) held)
      stale table !! key
    = if existsb (fun session => String.eqb (sessionKey session) key) stale
      then None else table !! key.
Proof.
  induction stale as [|session stale IH]; intros table key; cbn [fold_left existsb].
  - reflexivity.
  - rewrite IH. destruct (existsb _ stale); cbn [orb].
    + now rewrite orb_true_r.
    + rewrite orb_false_r. destruct (String.eqb_spec (sessionKey session) key) as [->|Hne].
      * apply lookup_delete_eq.
      * now apply lookup_delete_ne.
Qed.

Lemma getSession_deleteUpload store upload key :
  keyedBySessionKey store ->
  getSession (deleteUpload store upload) key
  = match getSession store key with
    | Some session =>
        if String.eqb (uploadId session) upload then None else Some session
    | None => None
    end.
Proof.
  intros Hkeyed. unfold getSession, deleteUpload, isSupported.
  destruct (supported store) eqn:Hs; cbn [negb]; [|now rewrite Hs].
  cbn [supported sessions negb]. rewrite fold_delete_lookup.
  unfold getSessionsByUploadId, isSupported. rewrite Hs. cbn [negb].
  destruct (existsb _ _) eqn:Hex.
  - apply existsb_exists in Hex as (session & Hin & Hkey).
    apply String.eqb_eq in Hkey.
    apply filter_In in Hin as [Hin Hupload].
    apply in_map_iff in Hin as ([k s] & Hs' & Hin). cbn in Hs'. subst s.
    apply list_elem_of_In, elem_of_map_to_list in Hin.
    pose proof (Hkeyed _ _ Hin) as Hk. rewrite Hkey in Hk. subst k.
    rewrite Hin. now rewrite Hupload.
  - destruct (sessions store !! key) as [session|] eqn:Hget; [|reflexivity].
    destruct (String.eqb (uploadId session) upload) eqn:Hupload;
      [|reflexivity].
    exfalso. apply not_true_iff_false in Hex. apply Hex.
    apply existsb_exists. exists session. split.
    + apply filter_In. split; [|exact Hupload].
      apply in_map_iff. exists (key, session). split; [reflexivity|].
      apply list_elem_of_In, elem_of_map_to_list. exact Hget.
    + apply String.eqb_eq. now apply Hkeyed.
Qed.

Lemma getChunk_deleteUpload store upload other i :
  getChunk (deleteUpload store upload) other i
  = if inKeyRange upload 0 (other, i) then None else getChunk store other i.
Proof.
  unfold getChunk, deleteUpload, isSupported.
  destruct (supported store) eqn:Hs; cbn [negb].
  - cbn [supported chunks negb]. rewrite ?Hs. cbn [negb].
    unfold deleteKeyRange.
    destruct (inKeyRange upload 0 (other, i)) eqn:Hrange.
    + apply map_lookup_filter_None. right. intros record _. cbn. congruence.
    + destruct (chunks store !! (other, i)) as [record|] eqn:Hget.
      * apply map_lookup_filter_Some. split; [assumption | exact Hrange].
      * apply map_lookup_filter_None. left. assumption.
  - rewrite ?Hs. cbn [negb]. now destruct (inKeyRange _ _ _).
Qed.

Lemma keyedBySessionKey_deleteUpload store upload :
  keyedBySessionKey store -> keyedBySessionKey (deleteUpload store upload).
Proof.
  intros Hkeyed key session Hget.
  destruct (supported store) eqn:Hs.
  - pose proof (getSession_deleteUpload store upload key Hkeyed) as Heq.
    unfold getSession at 1 in Heq. unfold isSupported in Heq.
    assert (supported (deleteUpload store upload) = true) as Hs'
      by (unfold deleteUpload, isSupported; now rewrite Hs).
    rewrite Hs' in Heq. cbn [negb] in Heq. rewrite Hget in Heq.
    unfold getSession, isSupported in Heq. rewrite Hs in Heq.
    cbn [negb] in Heq.
    destruct (sessions store !! key) as [old|] eqn:Hold; [|discriminate].
    destruct (String.eqb (uploadId old) upload); [discriminate|].
    injection Heq as ->. now apply Hkeyed.
  - unfold deleteUpload, isSupported in Hget. rewrite Hs in Hget.
    now apply Hkeyed.
Qed.

Lemma chunks_deleteUpload_empty store upload :
  isSupported (deleteUpload store upload) = true ->
  List.filter (fun entry => inKeyRange upload 0 entry.1)
    (map_to_list (chunks (deleteUpload store upload))) = [].
Proof.
  intros Hs.
  destruct (List.filter _ _) as [|[[u i] record] rest] eqn:Hfilter;
    [reflexivity|]. exfalso.
  assert (In ((u, i), record)
            (List.filter (fun entry => inKeyRange upload 0 entry.1)
               (map_to_list (chunks (deleteUpload store upload))))) as Hin
    by (rewrite Hfilter; now left).
  apply filter_In in Hin as [Hin Hrange]. cbn in Hrange.
  apply list_elem_of_In, elem_of_map_to_list in Hin.
  assert (getChunk (deleteUpload store upload) u i = Some record) as Hget
    by (unfold getChunk; now rewrite Hs).
  rewrite getChunk_deleteUpload, Hrange in Hget. discriminate.
Qed.

Lemma getChunkCount_deleteUpload store upload :
  getChunkCount (deleteUpload store upload) upload = 0.
Proof.
  unfold getChunkCount.
  destruct (isSupported (deleteUpload store upload)) eqn:Hs; [|reflexivity].
  cbn [negb]. now rewrite chunks_deleteUpload_empty.
Qed.

(** X11. After [deleteUpload] nothing of the upload is left: no session with
    its upload id, in either direction, and no chunk of it; sessions and
    chunks of other uploads are untouched. *)
Theorem deleteUpload_clears
    (store : TransferStore) (upload : string) :
  keyedBySessionKey store ->
  let after := deleteUpload store upload in
  getSessionsByUploadId after upload = [] /\
  getChunks after upload = [] /\
  getChunkCount after upload = 0 /\
  (forall key session,
     getSession store key = Some session -> uploadId session <> upload ->
     getSession after key = Some session) /\
  (forall other i, other <> upload ->
     getChunk after other i = getChunk store other i).
Proof.
  intros Hkeyed after.
  pose proof (chunks_deleteUpload_empty store upload) as Hnone.
  fold after in Hnone.
  split; [|split; [|split; [|split]]].
  - unfold getSessionsByUploadId.
    destruct (negb (isSupported after)) eqn:Hs; [reflexivity|].
    apply negb_false_iff in Hs. clear Hnone.
    destruct (List.filter _ (map snd _)) as [|session rest] eqn:Hfilter;
      [reflexivity|].
    exfalso.
    assert (In session
              (List.filter (fun s => String.eqb (uploadId s) upload)
                 (map snd (map_to_list (sessions after))))) as Hin
      by (rewrite Hfilter; now left).
    apply filter_In in Hin as [Hin Hupload].
    apply in_map_iff in Hin as ([k s] & Hs' & Hin). cbn in Hs'. subst s.
    apply list_elem_of_In, elem_of_map_to_list in Hin.
    assert (getSession after k = Some session) as Hget
      by (unfold getSession; now rewrite Hs).
    subst after. rewrite getSession_deleteUpload in Hget by assumption.
    destruct (getSession store k) as [old|]; [|discriminate].
    destruct (String.eqb (uploadId old) upload) eqn:E; [discriminate|].
    injection Hget as ->. congruence.
  - unfold getChunks. destruct (isSupported after); [|reflexivity].
    cbn [negb]. now rewrite Hnone.
  - unfold getChunkCount. destruct (isSupported after); [|reflexivity].
    cbn [negb]. now rewrite Hnone.
  - intros key session Hget Hne. subst after.
    rewrite getSession_deleteUpload, Hget by assumption.
    destruct (String.eqb_spec (uploadId session) upload); [contradiction|].
    reflexivity.
  - intros other i Hne. subst after. rewrite getChunk_deleteUpload.
    destruct (inKeyRange upload 0 (other, i)) eqn:E; [|reflexivity].
    apply inKeyRange_true in E. cbn in E. destruct E as [E _]. congruence.
Qed.

Lemma deleteUpload_clears_witness :
  getSessionsByUploadId
    (deleteUpload (putSession Samples.twoChunkStore Samples.storedSession) "u")
    "u" = [] /\
  getChunkCount
    (deleteUpload (putSession Samples.twoChunkStore Samples.storedSession) "u")
    "u" = 0.
Proof.
  destruct (deleteUpload_clears
              (putSession Samples.twoChunkStore Samples.storedSession) "u")
    as (Hsessions & _ & Hcount & _).
  - intros key session. cbn. intros Hget.
    apply lookup_insert_Some in Hget as [[<- <-]|[_ Hget]];
      [reflexivity | now rewrite lookup_empty in Hget].
  - split; assumption.
Defined.

End UploadStoreFacts.


(** ** More on transfer-store: resuming and pruning *)

Section SessionStoreFacts.
Import TransferStore.

Lemma insertByUpdatedAt_Permutation session sorted :
  Permutation (insertByUpdatedAt session sorted) (session :: sorted).
Proof.
  induction sorted as [|head rest IH]; cbn [insertByUpdatedAt].
  - reflexivity.
  - destruct (updatedAt head <? updatedAt session); [reflexivity|].
    rewrite IH. apply perm_swap.
Qed.

Lemma sortByUpdatedAt_fold candidates :
  forall sorted,
    Permutation
      (fold_left (fun held session => insertByUpdatedAt session held)
         candidates sorted)
      (sorted ++ candidates).
Proof.
  induction candidates as [|session candidates IH]; intros sorted;
    cbn [fold_left].
  - now rewrite app_nil_r.
  - rewrite IH, insertByUpdatedAt_Permutation.
    change (session :: sorted) with ([session] ++ sorted).
    rewrite <- (Permutation_middle sorted candidates session).
    reflexivity.
Qed.

Lemma sortByUpdatedAt_Permutation candidates :
  Permutation (sortByUpdatedAt candidates) candidates.
Proof. unfold sortByUpdatedAt. now rewrite sortByUpdatedAt_fold. Qed.

Lemma insertByUpdatedAt_sorted session sorted :
  StronglySorted newerFirst sorted ->
  StronglySorted newerFirst (insertByUpdatedAt session sorted).
Proof.
  induction sorted as [|head rest IH]; intros Hsorted;
    cbn [insertByUpdatedAt].
  - repeat constructor.
  - apply StronglySorted_inv in Hsorted as [Hrest Hhead].
    destruct (Z.ltb_spec (updatedAt head) (updatedAt session)) as [Hlt|Hge].
    + constructor; [now constructor|].
      constructor; [unfold newerFirst; lia|].
      eapply Forall_impl; [exact Hhead|].
      unfold newerFirst. intros other Hother. lia.
    + constructor; [now apply IH|].
      apply List.Forall_forall. intros other Hin.
      apply (Permutation_in _ (insertByUpdatedAt_Permutation session rest))
        in Hin.
      destruct Hin as [<-|Hin]; [exact Hge|].
      rewrite List.Forall_forall in Hhead. now apply Hhead.
Qed.

Lemma sortByUpdatedAt_sorted candidates :
  StronglySorted newerFirst (sortByUpdatedAt candidates).
Proof.
  unfold sortByUpdatedAt.
  assert (forall sorted, StronglySorted newerFirst sorted ->
            StronglySorted newerFirst
              (fold_left (fun held session => insertByUpdatedAt session held)
                 candidates sorted)) as Hfold.
  { induction candidates as [|session candidates IH]; intros sorted Hsorted;
      cbn [fold_left]; [exact Hsorted|].
    apply IH. now apply insertByUpdatedAt_sorted. }
  apply Hfold. constructor.
Qed.

Lemma find_newest (test : PersistedTransferSession -> bool) sorted found :
  StronglySorted newerFirst sorted ->
  List.find test sorted = Some found ->
  In found sorted /\ test found = true /\
  forall other, In other sorted -> test other = true ->
                updatedAt other <= updatedAt found.
Proof.
  induction sorted as [|head rest IH]; intros Hsorted Hfind;
    cbn [List.find] in Hfind; [discriminate|].
  apply StronglySorted_inv in Hsorted as [Hrest Hhead].
  destruct (test head) eqn:Htest.
  - injection Hfind as <-. split; [now left|]. split; [exact Htest|].
    intros other [<-|Hin] _; [lia|].
    rewrite List.Forall_forall in Hhead. now apply Hhead.
  - destruct (IH Hrest Hfind) as (Hin & Hfound & Hnewest).
    split; [now right|]. split; [exact Hfound|].
    intros other [<-|Hother] Hpass; [congruence|]. now apply Hnewest.
Qed.

(** X12. The session that a sender resumes from: an unfinished outgoing session
    with the file's fingerprint; one for the same peer if there is any,
    and the most recently updated among those it is chosen from.  Nothing
    is found only for an empty fingerprint or when no such session
    exists. *)
Theorem findOutgoingSessionByFingerprint_choice
    (store : TransferStore) (print remote : string) :
  let candidate session :=
    (exists key, getSession store key = Some session) /\
    fingerprint session = Some print /\
    direction session = Outgoing /\ status session <> Completed in
  match findOutgoingSessionByFingerprint store print remote with
  | Some found =>
      print <> EmptyString /\ candidate found /\
      forall other, candidate other ->
        (remotePeerId other = remote ->
           remotePeerId found = remote /\
           updatedAt other <= updatedAt found) /\
        (remotePeerId found <> remote ->
           updatedAt other <= updatedAt found)
  | None => print = EmptyString \/ forall session, ~ candidate session
  end.
Proof.
  cbv zeta. unfold findOutgoingSessionByFingerprint.
  destruct (isSupported store) eqn:Hs; cbn [negb orb].
  2:{ right. intros session ((key & Hget) & _).
      unfold getSession in Hget. now rewrite Hs in Hget. }
  destruct (String.eqb_spec print EmptyString) as [Hempty|Hprint];
    [now left|].
  set (matched := List.filter (hasFingerprint print)
                    (map snd (map_to_list (sessions store)))).
  set (candidates := sortByUpdatedAt (List.filter isResumeCandidate matched)).
  assert (forall session,
            In session candidates <->
            (exists key, getSession store key = Some session) /\
            fingerprint session = Some print /\
            direction session = Outgoing /\ status session <> Completed)
    as Hcandidates.
  { intros session. subst candidates matched. split.
    - intros Hin.
      apply (Permutation_in _ (sortByUpdatedAt_Permutation _)) in Hin.
      apply filter_In in Hin as [Hin Hresume].
      apply filter_In in Hin as [Hin Hprinted].
      apply in_map_iff in Hin as ([key held] & Hheld & Hin).
      cbn in Hheld. subst held.
      apply list_elem_of_In, elem_of_map_to_list in Hin.
      split; [exists key; unfold getSession; now rewrite Hs|].
      unfold hasFingerprint in Hprinted. unfold isResumeCandidate in Hresume.
      destruct (fingerprint session) as [held|]; [|discriminate].
      apply String.eqb_eq in Hprinted. subst held.
      split; [reflexivity|].
      destruct (direction session); [discriminate|].
      split; [reflexivity|].
      intros Hdone. rewrite Hdone in Hresume. discriminate.
    - intros ((key & Hget) & Hprinted & Hout & Hnot).
      apply (Permutation_in _
               (Permutation_sym (sortByUpdatedAt_Permutation _))).
      unfold getSession in Hget. rewrite Hs in Hget. cbn [negb] in Hget.
      apply filter_In. split.
      + apply filter_In. split.
        * apply in_map_iff. exists (key, session). split; [reflexivity|].
          apply list_elem_of_In, elem_of_map_to_list. exact Hget.
        * unfold hasFingerprint. rewrite Hprinted. apply String.eqb_refl.
      + unfold isResumeCandidate. rewrite Hout.
        destruct (status session); try reflexivity. congruence. }
  pose proof (sortByUpdatedAt_sorted (List.filter isResumeCandidate matched))
    as Hsorted.
  fold candidates in Hsorted.
  destruct candidates as [|first rest] eqn:Hlist.
  { right. intros session Hc. apply Hcandidates in Hc. destruct Hc. }
  rewrite <- Hlist in *.
  destruct (List.find _ candidates) as [samePeer|] eqn:Hfind.
  - destruct (find_newest _ _ _ Hsorted Hfind) as (Hin & Hpeer & Hnewest).
    apply String.eqb_eq in Hpeer.
    split; [exact Hprint|]. split; [now apply Hcandidates|].
    intros other Hother. apply Hcandidates in Hother. split.
    + intros Hsame. split; [exact Hpeer|]. apply Hnewest; [exact Hother|].
      now apply String.eqb_eq.
    + intros Hne. contradiction.
  - assert (In first candidates) as Hin by (rewrite Hlist; now left).
    split; [exact Hprint|]. split; [now apply Hcandidates|].
    intros other Hother. apply Hcandidates in Hother.
    assert (updatedAt other <= updatedAt first) as Hnewest.
    { rewrite Hlist in Hsorted, Hother.
      apply StronglySorted_inv in Hsorted as [_ Hhead].
      destruct Hother as [<-|Hother]; [lia|].
      rewrite List.Forall_forall in Hhead. now apply Hhead. }
    split; [|intros _; exact Hnewest].
    intros Hsame. exfalso.
    pose proof (find_none _ _ Hfind other Hother) as Hno.
    cbn in Hno. apply String.eqb_neq in Hno. contradiction.
Qed.

Lemma addUpload_In uploads upload other :
  In other (addUpload uploads upload) <-> In other uploads \/ other = upload.
Proof.
  unfold addUpload. destruct (existsb (String.eqb upload) uploads) eqn:Hheld.
  - apply existsb_exists in Hheld as (held & Hin & Heq).
    apply String.eqb_eq in Heq. subst held.
    split; [now left | intros [H| ->]; assumption].
  - rewrite in_app_iff. cbn. split.
    + intros [H|[<-|[]]]; [now left | now right].
    + intros [H| ->]; [now left | right; now left].
Qed.

Lemma staleUploads_In now maxAgeMs allSessions :
  forall uploads upload,
    In upload
      (fold_left
         (fun held session =>
            if maxAgeMs <? now - updatedAt session
            then addUpload held (uploadId session) else held)
         allSessions uploads)
    <-> In upload uploads \/
        exists session, In session allSessions /\
          uploadId session = upload /\ maxAgeMs < now - updatedAt session.
Proof.
  induction allSessions as [|session rest IH]; intros uploads upload;
    cbn [fold_left].
  - split; [now left | intros [H|(s & [] & _)]; exact H].
  - rewrite IH.
    destruct (Z.ltb_spec maxAgeMs (now - updatedAt session)) as [Hold|Hfresh].
    + rewrite addUpload_In. split.
      * intros [[H| ->]|(s & Hin & Hrest)].
        -- now left.
        -- right. exists session. split; [now left | now split].
        -- right. exists s. split; [now right | exact Hrest].
      * intros [H|(s & [<-|Hin] & Hu & Hage)].
        -- left. now left.
        -- left. right. now symmetry.
        -- right. exists s. now split.
    + split.
      * intros [H|(s & Hin & Hrest)]; [now left|].
        right. exists s. split; [now right | exact Hrest].
      * intros [H|(s & [<-|Hin] & Hu & Hage)]; [now left | lia |].
        right. exists s. now split.
Qed.

Lemma fold_deleteUpload uploads :
  forall store,
    keyedBySessionKey store ->
    let after := fold_left deleteUpload uploads store in
    (forall key,
       getSession after key
       = match getSession store key with
         | Some session =>
             if existsb (String.eqb (uploadId session)) uploads
             then None else Some session
         | None => None
         end) /\
    (forall upload i,
       getChunk after upload i
       = if existsb (fun stale => inKeyRange stale 0 (upload, i)) uploads
         then None else getChunk store upload i).
Proof.
  induction uploads as [|stale uploads IH]; intros store Hkeyed;
    cbn [fold_left existsb].
  - cbv zeta. split; [|reflexivity].
    intros key. now destruct (getSession store key).
  - destruct (IH (deleteUpload store stale)
                (keyedBySessionKey_deleteUpload store stale Hkeyed))
      as [Hsessions Hchunks].
    cbv zeta. split.
    + intros key. rewrite Hsessions, getSession_deleteUpload by assumption.
      destruct (getSession store key) as [session|]; [|reflexivity].
      destruct (String.eqb (uploadId session) stale); reflexivity.
    + intros upload i. rewrite Hchunks, getChunk_deleteUpload.
      destruct (inKeyRange stale 0 (upload, i)); cbn [orb];
        [now destruct (existsb _ uploads) | reflexivity].
Qed.

(** X13. Pruning deletes whole uploads: an upload goes, with all its sessions
    and chunks, when one of its sessions was last updated more than
    [maxAgeMs] ago; every other session and chunk stays.  So every session
    left is fresh. *)
Theorem pruneStaleSessions_effect
    (now : Z) (store : TransferStore) (maxAgeMs : Z) :
  keyedBySessionKey store ->
  let after := pruneStaleSessions now store maxAgeMs in
  let stale upload :=
    exists key session,
      getSession store key = Some session /\ uploadId session = upload /\
      maxAgeMs < now - updatedAt session in
  (forall key session,
     getSession after key = Some session ->
     getSession store key = Some session /\
     ~ stale (uploadId session) /\ now - updatedAt session <= maxAgeMs) /\
  (forall key session,
     getSession store key = Some session -> ~ stale (uploadId session) ->
     getSession after key = Some session) /\
  (forall upload i,
     stale upload -> 0 <= i <= MAX_SAFE_INTEGER ->
     getChunk after upload i = None) /\
  (forall upload i,
     ~ stale upload -> getChunk after upload i = getChunk store upload i).
Proof.
  intros Hkeyed. cbv zeta. unfold pruneStaleSessions.
  destruct (isSupported store) eqn:Hs; cbn [negb].
  2:{ assert (forall key, getSession store key = None) as Hnone
        by (intros key; unfold getSession; now rewrite Hs).
      split; [intros key session Hget; now rewrite Hnone in Hget|].
      split; [intros key session Hget; now rewrite Hnone in Hget|].
      split; [|reflexivity].
      intros upload i (key & session & Hget & _). now rewrite Hnone in Hget. }
  set (uploads := staleUploads now maxAgeMs
                    (map snd (map_to_list (sessions store)))).
  assert (forall upload,
            existsb (String.eqb upload) uploads = true <->
            exists key session,
              getSession store key = Some session /\
              uploadId session = upload /\
              maxAgeMs < now - updatedAt session) as Hstale.
  { intros upload. rewrite existsb_exists. split.
    - intros (held & Hin & Heq). apply String.eqb_eq in Heq. subst held.
      subst uploads. unfold staleUploads in Hin.
      apply staleUploads_In in Hin as [[]|(session & Hin & Hu & Hage)].
      apply in_map_iff in Hin as ([key held] & Hheld & Hin).
      cbn in Hheld. subst held.
      apply list_elem_of_In, elem_of_map_to_list in Hin.
      exists key, session. unfold getSession. rewrite Hs. now split.
    - intros (key & session & Hget & Hu & Hage).
      exists upload. split; [|apply String.eqb_refl].
      subst uploads. unfold staleUploads. apply staleUploads_In. right.
      exists session. split; [|now split].
      unfold getSession in Hget. rewrite Hs in Hget. cbn [negb] in Hget.
      apply in_map_iff. exists (key, session). split; [reflexivity|].
      apply list_elem_of_In, elem_of_map_to_list. exact Hget. }
  destruct (fold_deleteUpload uploads store Hkeyed) as [Hsessions Hchunks].
  split; [|split; [|split]].
  - intros key session Hget. rewrite Hsessions in Hget.
    destruct (getSession store key) as [held|] eqn:Hheld; [|discriminate].
    destruct (existsb (String.eqb (uploadId held)) uploads) eqn:Hex;
      [discriminate|].
    injection Hget as ->. split; [reflexivity|].
    assert (~ (exists key' other,
                 getSession store key' = Some other /\
                 uploadId other = uploadId session /\
                 maxAgeMs < now - updatedAt other)) as Hfresh.
    { intros Hold. apply Hstale in Hold. congruence. }
    split; [exact Hfresh|].
    destruct (Z.le_gt_cases (now - updatedAt session) maxAgeMs) as [Hle|Hgt];
      [exact Hle|].
    exfalso. apply Hfresh. exists key, session. split; [exact Hheld|].
    split; [reflexivity | lia].
  - intros key session Hget Hfresh. rewrite Hsessions, Hget.
    destruct (existsb (String.eqb (uploadId session)) uploads) eqn:Hex;
      [|reflexivity].
    exfalso. apply Hfresh. now apply Hstale.
  - intros upload i Hold Hi. rewrite Hchunks.
    apply Hstale in Hold. apply existsb_exists in Hold as (held & Hin & Heq).
    apply String.eqb_eq in Heq. subst held.
    assert (existsb (fun stale => inKeyRange stale 0 (upload, i)) uploads
            = true) as ->; [|reflexivity].
    apply existsb_exists. exists upload. split; [exact Hin|].
    apply inKeyRange_true. cbn. split; [reflexivity | lia].
  - intros upload i Hfresh. rewrite Hchunks.
    destruct (existsb (fun stale => inKeyRange stale 0 (upload, i)) uploads)
      eqn:Hex; [|reflexivity].
    exfalso. apply Hfresh. apply Hstale.
    apply existsb_exists in Hex as (held & Hin & Hrange).
    apply inKeyRange_true in Hrange. cbn in Hrange.
    destruct Hrange as [<- _].
    apply existsb_exists. exists upload. split; [exact Hin|].
    apply String.eqb_refl.
Qed.

Lemma pruneStaleSessions_effect_witness :
  getChunk
    (pruneStaleSessions 1000
       (putSession Samples.twoChunkStore Samples.storedSession) 500)
    "u" 0 = None.
Proof.
  destruct (pruneStaleSessions_effect 1000
              (putSession Samples.twoChunkStore Samples.storedSession) 500)
    as (_ & _ & Hgone & _).
  - intros key session. cbn. intros Hget.
    apply lookup_insert_Some in Hget as [[<- <-]|[_ Hget]];
      [reflexivity | now rewrite lookup_empty in Hget].
  - apply Hgone.
    + exists "incoming:u"%string, Samples.storedSession.
      split; [|split; [reflexivity | vm_compute; reflexivity]].
      unfold getSession. cbn. apply lookup_insert_eq.
    + vm_compute. split; discriminate.
Defined.

End SessionStoreFacts.


(** ** More on send-queue: the summary, the next item, revisions *)

Section SendQueueViews.
Import SendQueue.

Lemma countItem_fold queue :
  forall summary,
    let count wanted :=
      Z.of_nat
        (length (List.filter (fun item => statusEqb (status item) wanted)
                   queue)) in
    let after := fold_left countItem queue summary in
    total after = total summary /\
    queued after = queued summary + count Queued /\
    sending after = sending summary + count Sending /\
    completed after = completed summary + count Completed /\
    failed after = failed summary + count Failed.
Proof.
  induction queue as [|item queue IH]; intros summary; cbv zeta.
  - cbn. repeat split; lia.
  - cbn [fold_left]. destruct (IH (countItem summary item))
      as (Ht & Hq & Hs & Hc & Hf).
    cbv zeta in Ht, Hq, Hs, Hc, Hf. rewrite Ht, Hq, Hs, Hc, Hf.
    unfold countItem. cbn [total queued sending completed failed List.filter].
    destruct (status item); cbn [statusEqb length]; repeat split; lia.
Qed.

(** X14. The summary counts every item exactly once: the four counters add up
    to the total, which is the length of the queue; [sending] is the
    number of items being sent, and [queued] is positive exactly when
    [hasQueuedItems] holds. *)
Theorem getSendQueueSummary_counts (state : SendQueueState) :
  let summary := getSendQueueSummary state in
  total summary = Z.of_nat (length (items state)) /\
  total summary
  = queued summary + sending summary + completed summary + failed summary /\
  sending summary = Z.of_nat (sendingCount (items state)) /\
  0 <= queued summary /\
  (0 <? queued summary) = hasQueuedItems state.
Proof.
  cbv zeta. unfold getSendQueueSummary, hasQueuedItems, sendingCount.
  destruct (countItem_fold (items state)
              {| total := Z.of_nat (length (items state));
                 queued := 0; sending := 0; completed := 0; failed := 0 |})
    as (Ht & Hq & Hs & Hc & Hf).
  cbv zeta in Ht, Hq, Hs, Hc, Hf. rewrite Ht, Hq, Hs, Hc, Hf.
  clear Ht Hq Hs Hc Hf. cbn [total queued sending completed failed].
  split; [reflexivity|]. split; [|split; [lia|split; [lia|]]].
  - induction (items state) as [|item queue IH]; [reflexivity|].
    cbn [List.filter length]. destruct (status item); cbn [statusEqb length];
      lia.
  - induction (items state) as [|item queue IH]; [reflexivity|].
    cbn [List.filter existsb]. destruct (statusEqb (status item) Queued).
    + cbn [length orb]. apply Z.ltb_lt. lia.
    + cbn [orb]. exact IH.
Qed.

(** [selectNextQueuedItem] returns the first queued item in queue order:
    everything before it is not queued; it returns null exactly when
    [hasQueuedItems] is false. *)
Theorem selectNextQueuedItem_first (state : SendQueueState) :
  match selectNextQueuedItem state with
  | Some item =>
      status item = Queued /\ hasQueuedItems state = true /\
      exists before after,
        items state = before ++ item :: after /\
        Forall (fun earlier => status earlier <> Queued) before
  | None =>
      hasQueuedItems state = false /\
      Forall (fun item => status item <> Queued) (items state)
  end.
Proof.
  unfold selectNextQueuedItem, hasQueuedItems.
  induction (items state) as [|item queue IH]; cbn [List.find existsb].
  - split; [reflexivity | constructor].
  - destruct (statusEqb (status item) Queued) eqn:Hq; cbn [orb].
    + split; [now apply statusEqb_eq|]. split; [reflexivity|].
      exists [], queue. split; [reflexivity | constructor].
    + assert (status item <> Queued) as Hne.
      { intros Heq. apply statusEqb_eq in Heq. congruence. }
      destruct (List.find _ queue) as [next|].
      * destruct IH as (Hstatus & Hsome & before & after & Hsplit & Hbefore).
        split; [exact Hstatus|]. split; [exact Hsome|].
        exists (item :: before), after. split; [now rewrite Hsplit|].
        now constructor.
      * destruct IH as [Hnone Hall]. split; [exact Hnone|].
        now constructor.
Qed.

(** X15. The revision counts the changes of the queue: an action either
    returns the state it was given, or a state whose revision is one
    higher; and a state that is returned unchanged keeps its revision. *)
Theorem sendQueueReducer_revision
    (now : Z) (state : SendQueueState) (action : SendQueueAction) :
  let next := sendQueueReducer now state action in
  (next = state \/ revision next = revision state + 1) /\
  (revision next = revision state -> next = state).
Proof.
  cbv zeta.
  assert (forall next,
            next = state \/ revision next = revision state + 1 ->
            (next = state \/ revision next = revision state + 1) /\
            (revision next = revision state -> next = state)) as Hboth.
  { intros next [->|Hbump]; (split; [tauto|]); [reflexivity|]. lia. }
  apply Hboth. destruct action; cbn [sendQueueReducer];
    repeat match goal with
           | |- context [if ?b then _ else _] => destruct b
           | |- context [match List.find ?f ?l with _ => _ end] =>
               destruct (List.find f l)
           end;
    first [now left | right; reflexivity].
Qed.




(** X17. No action reorders the queue: the ids left after an action are the
    ids before it (and, for [enqueue], the new ones at the end) in the
    same order, with some of them removed. *)
Theorem sendQueueReducer_order
    (now : Z) (state : SendQueueState) (action : SendQueueAction) :
  let next := sendQueueReducer now state action in
  map id (items next)
  `sublist_of` map id (items state)
               ++ match action with
                  | Enqueue newItems => map id newItems
                  | _ => []
                  end /\
  match action with
  | Enqueue newItems =>
      map id (items next) = map id (items state) ++ map id newItems
  | MarkSending _ | UpdateProgress _ _ _ | MarkCompleted _
  | MarkFailed _ _ | Retry _ =>
      map id (items next) = map id (items state)
  | _ => True
  end.
Proof.
  cbv zeta.
  assert (forall keep queue,
            map id (List.filter keep queue) `sublist_of` map id queue)
    as Hfilter.
  { intros keep queue. induction queue as [|item queue IH]; [constructor|].
    cbn [List.filter]. destruct (keep item); cbn [map];
      [now apply sublist_skip | now apply sublist_cons]. }
  destruct action; cbn [sendQueueReducer]; rewrite ?app_nil_r.
  - destruct newItems as [|item newItems].
    + cbn [length map]. change (Z.of_nat 0 =? 0) with true. cbn iota.
      rewrite app_nil_r. split; reflexivity.
    + cbn [length]. destruct (Z.eqb_spec (Z.of_nat (S (length newItems))) 0);
        [lia|]. rewrite withRevision_fresh. cbn [items].
      rewrite map_app. split; reflexivity.
  - destruct (existsb _ _); cbn [negb]; [|split; reflexivity].
    rewrite withRevision_fresh. cbn [items].
    rewrite map_id_preserved by apply markSendingItem_id. split; reflexivity.
  - rewrite withRevision_fresh. cbn [items].
    rewrite map_id_preserved by (intros; apply updateProgressItem_same).
    split; reflexivity.
  - destruct (existsb _ _); cbn [negb]; [|split; reflexivity].
    rewrite withRevision_fresh. cbn [items].
    rewrite map_id_preserved by (intros; apply markCompletedItem_same).
    split; reflexivity.
  - destruct (existsb _ _); cbn [negb]; [|split; reflexivity].
    rewrite withRevision_fresh. cbn [items].
    rewrite map_id_preserved by (intros; apply markFailedItem_same).
    split; reflexivity.
  - destruct (existsb _ _); cbn [negb]; [|split; reflexivity].
    rewrite withRevision_fresh. cbn [items].
    rewrite map_id_preserved by (intros; apply retryItem_same).
    split; reflexivity.
  - split; [|exact I]. destruct (List.find _ _) as [target|]; [|reflexivity].
    destruct (statusEqb (status target) Sending); [reflexivity|].
    rewrite withRevision_fresh. cbn [items]. apply Hfilter.
  - split; [|exact I]. destruct (_ =? _); [reflexivity|].
    rewrite withRevision_fresh. cbn [items]. apply Hfilter.
  - split; [|exact I]. destruct (_ && _); [reflexivity|].
    cbn [items map]. apply sublist_nil_l.
Qed.

End SendQueueViews.


(** ** More on send-queue: the active item *)

Section SendQueueActive.
Import SendQueue.

Lemma releaseActive_Some state itemId other :
  releaseActive state itemId = Some other
  <-> activeItemId state = Some other /\ other <> itemId.
Proof.
  unfold releaseActive, sameId. destruct (activeItemId state) as [held|].
  - destruct (String.eqb_spec held itemId) as [->|Hne]; split.
    + discriminate.
    + intros [[= ->] Hne]. contradiction.
    + intros [= ->]. now split.
    + now intros [-> _].
  - split; [discriminate | now intros [? _]].
Qed.

Lemma activeIsSending_mapped (f : OutgoingQueueItem -> OutgoingQueueItem)
    state newActive :
  (forall item, id (f item) = id item) ->
  (forall itemId,
     newActive = Some itemId <->
     exists item, In item (items state) /\ id item = itemId /\
                  status (f item) = Sending) ->
  activeIsSending
    {| items := map f (items state); activeItemId := newActive;
       revision := revision state + 1 |}.
Proof.
  intros Hid Hactive itemId. cbn [activeItemId items]. rewrite Hactive.
  split.
  - intros (item & Hin & Hitem & Hstatus). exists (f item).
    split; [now apply in_map|]. now rewrite Hid.
  - intros (mapped & Hin & Hitem & Hstatus).
    apply in_map_iff in Hin as (item & <- & Hin).
    exists item. rewrite Hid in Hitem. now split.
Qed.

Lemma activeIsSending_filtered (keep : OutgoingQueueItem -> bool)
    state newActive :
  (forall itemId,
     newActive = Some itemId <->
     exists item, In item (items state) /\ keep item = true /\
                  id item = itemId /\ status item = Sending) ->
  activeIsSending
    {| items := List.filter keep (items state); activeItemId := newActive;
       revision := revision state + 1 |}.
Proof.
  intros Hactive itemId. cbn [activeItemId items]. rewrite Hactive.
  split.
  - intros (item & Hin & Hkeep & Hitem & Hstatus). exists item.
    split; [apply filter_In; now split | now split].
  - intros (item & Hin & Hitem & Hstatus).
    apply filter_In in Hin as [Hin Hkeep]. exists item. now repeat split.
Qed.

Lemma sendQueueReducer_activeIsSending now state action :
  activeIsSending state -> freshEnqueue state action ->
  activeIsSending (sendQueueReducer now state action).
Proof.
  intros Hactive Hfresh.
  destruct action
    as [newItems|itemId|itemId sent amount|itemId|itemId message|itemId
       |itemId| |]; cbn [sendQueueReducer].
  - destruct (_ =? _); [exact Hactive|]. rewrite withRevision_fresh.
    destruct Hfresh as [Hidle _]. intros itemId. cbn [activeItemId items].
    rewrite (Hactive itemId). split.
    + intros (item & Hin & Hrest). exists item.
      split; [apply in_or_app; now left | exact Hrest].
    + intros (item & Hin & Hitem & Hstatus).
      apply in_app_or in Hin as [Hin|Hin]; [exists item; now split|].
      rewrite List.Forall_forall in Hidle. now apply Hidle in Hin.
  - destruct (existsb _ _) eqn:Hfound; cbn [negb]; [|exact Hactive].
    rewrite withRevision_fresh.
    apply activeIsSending_mapped; [apply markSendingItem_id|].
    intros other. split.
    + intros [= <-]. apply existsb_exists in Hfound as (item & Hin & Hid).
      apply String.eqb_eq in Hid. exists item.
      split; [exact Hin|]. split; [exact Hid|].
      now apply markSendingItem_status.
    + intros (item & _ & Hitem & Hstatus).
      apply markSendingItem_status in Hstatus. congruence.
  - rewrite withRevision_fresh.
    apply activeIsSending_mapped; [intros; apply updateProgressItem_same|].
    intros other. rewrite (Hactive other).
    split; intros (item & Hin & Hitem & Hstatus); exists item;
      (split; [exact Hin|]; split; [exact Hitem|]);
      destruct (updateProgressItem_same itemId sent amount item) as [_ Hsame];
      congruence.
  - destruct (existsb _ _); cbn [negb]; [|exact Hactive].
    rewrite withRevision_fresh.
    apply activeIsSending_mapped; [intros; apply markCompletedItem_same|].
    intros other. rewrite releaseActive_Some, (Hactive other). split.
    + intros [(item & Hin & Hitem & Hstatus) Hne]. exists item.
      split; [exact Hin|]. split; [exact Hitem|].
      unfold markCompletedItem, hasId.
      assert (String.eqb (id item) itemId = false) as ->
        by (apply String.eqb_neq; congruence).
      exact Hstatus.
    + intros (item & Hin & Hitem & Hstatus).
      unfold markCompletedItem, hasId in Hstatus.
      destruct (String.eqb_spec (id item) itemId) as [Heq|Hne];
        cbn [negb] in Hstatus; [discriminate|].
      split; [exists item; now split | congruence].
  - destruct (existsb _ _); cbn [negb]; [|exact Hactive].
    rewrite withRevision_fresh.
    apply activeIsSending_mapped; [intros; apply markFailedItem_same|].
    intros other. rewrite releaseActive_Some, (Hactive other). split.
    + intros [(item & Hin & Hitem & Hstatus) Hne]. exists item.
      split; [exact Hin|]. split; [exact Hitem|].
      unfold markFailedItem, hasId.
      assert (String.eqb (id item) itemId = false) as ->
        by (apply String.eqb_neq; congruence).
      exact Hstatus.
    + intros (item & Hin & Hitem & Hstatus).
      unfold markFailedItem, hasId in Hstatus.
      destruct (String.eqb_spec (id item) itemId) as [Heq|Hne];
        cbn [negb] in Hstatus; [discriminate|].
      split; [exists item; now split | congruence].
  - destruct (existsb _ _); cbn [negb]; [|exact Hactive].
    rewrite withRevision_fresh.
    apply activeIsSending_mapped; [intros; apply retryItem_same|].
    intros other. rewrite (Hactive other).
    split; intros (item & Hin & Hitem & Hstatus); exists item;
      (split; [exact Hin|]; split; [exact Hitem|]).
    + unfold retryItem, retryMatches. rewrite Hstatus.
      now rewrite andb_false_r.
    + now apply retryItem_same in Hstatus.
  - destruct (List.find _ _) as [target|]; [|exact Hactive].
    destruct (statusEqb (status target) Sending); [exact Hactive|].
    rewrite withRevision_fresh. apply activeIsSending_filtered.
    intros other. rewrite releaseActive_Some, (Hactive other).
    unfold hasId. split.
    + intros [(item & Hin & Hitem & Hstatus) Hne]. exists item.
      split; [exact Hin|]. split; [|now split].
      apply negb_true_iff, String.eqb_neq. congruence.
    + intros (item & Hin & Hkeep & Hitem & Hstatus).
      apply negb_true_iff, String.eqb_neq in Hkeep.
      split; [exists item; now split | congruence].
  - destruct (_ =? _); [exact Hactive|].
    rewrite withRevision_fresh. apply activeIsSending_filtered.
    intros other. rewrite (Hactive other). split.
    + intros (item & Hin & Hitem & Hstatus). exists item.
      split; [exact Hin|]. split; [|now split]. now rewrite Hstatus.
    + intros (item & Hin & _ & Hrest). exists item. now split.
  - destruct (_ && _); [exact Hactive|].
    intros other. cbn [activeItemId items].
    split; [discriminate | now intros (item & [] & _)].
Qed.

(** X18. In every state that the client can reach, [activeItemId] is the id of
    the item being sent: it is set exactly when some item is being sent,
    and then names that item. *)
Theorem sendQueue_active_is_sending (state : SendQueueState) :
  reachableFresh state ->
  activeIsSending state /\
  (activeItemId state = None <-> sendingCount (items state) = 0%nat).
Proof.
  intros Hreach.
  assert (activeIsSending state) as Hactive.
  { induction Hreach as [|now state action _ IH Hfresh].
    - intros itemId. cbn. split; [discriminate | now intros (item & [] & _)].
    - now apply sendQueueReducer_activeIsSending. }
  split; [exact Hactive|]. unfold sendingCount. split.
  - intros Hnone.
    destruct (List.filter _ (items state)) as [|item rest] eqn:Hfilter;
      [reflexivity|]. exfalso.
    assert (In item (List.filter
                       (fun held => statusEqb (status held) Sending)
                       (items state))) as Hin
      by (rewrite Hfilter; now left).
    apply filter_In in Hin as [Hin Hstatus]. apply statusEqb_eq in Hstatus.
    assert (activeItemId state = Some (id item)) as Hsome
      by (apply Hactive; exists item; now split).
    congruence.
  - intros Hzero. destruct (activeItemId state) as [itemId|] eqn:Hid;
      [|reflexivity]. exfalso.
    apply Hactive in Hid as (item & Hin & _ & Hstatus).
    assert (In item (List.filter
                       (fun held => statusEqb (status held) Sending)
                       (items state))) as Hfiltered
      by (apply filter_In; split; [exact Hin | now apply statusEqb_eq]).
    destruct (List.filter _ (items state)); [destruct Hfiltered | discriminate].
Qed.

Lemma sendQueue_active_is_sending_witness :
  exists item,
    In item (items Samples.sampleRun) /\ id item = "b" /\
    status item = Sending.
Proof.
  destruct (sendQueue_active_is_sending Samples.sampleRun
              sampleRun_reachableFresh) as [Hactive _].
  apply (Hactive "b"). reflexivity.
Defined.

End SendQueueActive.


(** ** More on send-queue: the items the client enqueues *)

Section SendQueueCreate.
Import SendQueue.

Lemma map_imap_index_free {A B C : Type} (g : B -> C) (h : A -> C)
    (entries : list A) :
  forall f : nat -> A -> B,
    (forall index entry, g (f index entry) = h entry) ->
    map g (imap f entries) = map h entries.
Proof.
  induction entries as [|entry entries IH]; intros f Hf; [reflexivity|].
  cbn [imap map]. rewrite Hf. f_equal. apply IH. intros index other.
  apply Hf.
Qed.

Lemma Forall_imap_index_free {A B : Type} (P : B -> Prop) (entries : list A) :
  forall f : nat -> A -> B,
    (forall index entry, P (f index entry)) -> Forall P (imap f entries).
Proof.
  induction entries as [|entry entries IH]; intros f Hf; cbn [imap];
    constructor; [apply Hf | apply IH; intros; apply Hf].
Qed.

(** The items that the client creates for the chosen files are queued, in
    the order of the files, with nothing sent and the file size as total;
    when the generated ids are new and distinct, enqueueing them keeps
    the queue among the states in which at most one item is being sent
    and [activeItemId] names it. *)
Theorem createOutgoingQueueItems_enqueue
    (created now : Z) (files : list (string * File)) (state : SendQueueState) :
  reachableFresh state ->
  NoDup (map id (items state) ++ map fst files) ->
  let newItems := createOutgoingQueueItems created files in
  let next := sendQueueReducer now state (Enqueue newItems) in
  map id newItems = map fst files /\
  map file newItems = map snd files /\
  Forall (fun item =>
            status item = Queued /\ sentBytes item = 0 /\
            totalBytes item = fileSize (file item) /\ attempts item = 0)
    newItems /\
  items next = items state ++ newItems /\
  reachableFresh next /\
  sendingCount (items next) = sendingCount (items state).
Proof.
  intros Hreach Hids newItems next.
  assert (map id newItems = map fst files) as Hmap
    by (apply map_imap_index_free; reflexivity).
  assert (Forall (fun item =>
                    status item = Queued /\ sentBytes item = 0 /\
                    totalBytes item = fileSize (file item) /\
                    attempts item = 0) newItems) as Hqueued
    by (apply Forall_imap_index_free; intros; repeat split).
  assert (Forall (fun item => status item <> Sending) newItems) as Hidle.
  { eapply Forall_impl; [exact Hqueued|].
    intros item (Hstatus & _). cbn in Hstatus. congruence. }
  split; [exact Hmap|].
  split; [apply map_imap_index_free; reflexivity|].
  split; [exact Hqueued|].
  assert (items next = items state ++ newItems) as Hitems.
  { subst next. cbn [sendQueueReducer].
    destruct (Z.eqb_spec (Z.of_nat (length newItems)) 0) as [Hzero|Hsome].
    - destruct newItems; [now rewrite app_nil_r | cbn in Hzero; lia].
    - reflexivity. }
  split; [exact Hitems|]. split.
  - subst next. apply reachableFresh_step; [exact Hreach|].
    cbn [freshEnqueue]. split; [exact Hidle|].
    now rewrite map_app, Hmap.
  - rewrite Hitems, sendingCount_app, (sendingCount_none newItems Hidle).
    lia.
Qed.

Lemma createOutgoingQueueItems_enqueue_witness :
  map id (createOutgoingQueueItems 40 [("c"%string, Samples.sampleFile)])
  = ["c"%string] /\
  reachableFresh
    (sendQueueReducer 41 Samples.sampleRun
       (Enqueue (createOutgoingQueueItems 40
                   [("c"%string, Samples.sampleFile)]))).
Proof.
  destruct (createOutgoingQueueItems_enqueue 40 41
              [("c"%string, Samples.sampleFile)] Samples.sampleRun
              sampleRun_reachableFresh)
    as (Hids & _ & _ & _ & Hreach & _).
  - apply (bool_decide_unpack _). vm_compute. exact I.
  - split; [exact Hids | exact Hreach].
Defined.

End SendQueueCreate.


(** ** More on structured-event: what the parser accepts *)

Section StructuredEventParser.
Import StructuredEvent.

(** X19. The parser accepts exactly the records that have a string [event] and
    a finite numeric [timestamp]; what it returns always has the kind and
    version of the protocol, that event and that timestamp. *)
Theorem parseStructuredEventEnvelope_accepts (raw : Js.value) :
  ((exists envelope, parseStructuredEventEnvelope raw = Some envelope) <->
   exists fields eventName time,
     raw = Js.VObject fields /\
     fields !! "event" = Some (Js.VString eventName) /\
     fields !! "timestamp" = Some (Js.VNumber (Js.Finite time))) /\
  (forall envelope,
     parseStructuredEventEnvelope raw = Some envelope ->
     kind envelope = "peershare.event" /\
     Js.eqb (version envelope) (Js.ofZ 1) = true /\
     Js.isFinite (timestamp envelope) = true /\
     exists fields,
       raw = Js.VObject fields /\
       fields !! "event" = Some (Js.VString (event envelope)) /\
       fields !! "timestamp" = Some (Js.VNumber (timestamp envelope))).
Proof.
  assert (forall envelope,
            parseStructuredEventEnvelope raw = Some envelope ->
            kind envelope = "peershare.event" /\
            Js.eqb (version envelope) (Js.ofZ 1) = true /\
            Js.isFinite (timestamp envelope) = true /\
            exists fields,
              raw = Js.VObject fields /\
              fields !! "event" = Some (Js.VString (event envelope)) /\
              fields !! "timestamp" = Some (Js.VNumber (timestamp envelope)))
    as Hshape.
  { intros envelope Hparse. unfold parseStructuredEventEnvelope in Hparse.
    destruct raw as [| | | | | |fields]; try discriminate.
    destruct (standardEnvelope fields) as [standard|] eqn:Hstandard.
    - injection Hparse as <-.
      apply standardEnvelope_Some in Hstandard
        as (Hk & Hv & Ht & _ & _ & He & Hts & _).
      repeat split; try assumption. exists fields. now repeat split.
    - apply legacyEnvelope_Some in Hparse as (Hk & Hv & Ht & He & Hts & _).
      repeat split; try assumption; [now rewrite Hv|].
      exists fields. now repeat split. }
  split; [|exact Hshape]. split.
  - intros (envelope & Hparse).
    destruct (Hshape envelope Hparse) as (_ & _ & Ht & fields & -> & He & Hts).
    destruct (timestamp envelope) as [| | |time]; try discriminate.
    exists fields, (event envelope), time. now repeat split.
  - intros (fields & eventName & time & -> & He & Hts).
    unfold parseStructuredEventEnvelope.
    destruct (standardEnvelope fields) as [standard|]; [now eexists|].
    unfold legacyEnvelope, Js.get. rewrite He, Hts. cbn. now eexists.
Qed.

(** X20. Parsing is a normal form: the envelope that the parser returns, taken
    as a value again, parses to itself. *)
Theorem parseStructuredEventEnvelope_idempotent
    (raw : Js.value) (envelope : StructuredEventEnvelope) :
  parseStructuredEventEnvelope raw = Some envelope ->
  parseStructuredEventEnvelope (envelopeValue envelope) = Some envelope.
Proof.
  intros Hparse.
  assert (kind envelope = STRUCTURED_EVENT_KIND /\
          Js.eqb (version envelope) STRUCTURED_EVENT_VERSION = true /\
          Js.isFinite (timestamp envelope) = true) as (Hk & Hv & Ht).
  { unfold parseStructuredEventEnvelope in Hparse.
    destruct raw as [| | | | | |fields]; try discriminate.
    destruct (standardEnvelope fields) as [standard|] eqn:Hstandard.
    - injection Hparse as <-.
      apply standardEnvelope_Some in Hstandard as (Hk & Hv & Ht & _).
      now repeat split.
    - apply legacyEnvelope_Some in Hparse as (Hk & Hv & Ht & _).
      rewrite Hv. now repeat split. }
  unfold envelopeValue, parseStructuredEventEnvelope, standardEnvelope, Js.get.
  repeat (rewrite ?lookup_insert_eq; rewrite ?lookup_insert_ne by discriminate).
  rewrite Hk, String.eqb_refl, Hv, Ht. cbn [andb].
  rewrite <- Hk. now destruct envelope.
Qed.

Lemma parseStructuredEventEnvelope_idempotent_witness :
  exists envelope,
    parseStructuredEventEnvelope (Js.VObject Samples.sampleLegacyRecord)
    = Some envelope /\
    parseStructuredEventEnvelope (envelopeValue envelope) = Some envelope.
Proof.
  eexists. split; [reflexivity|].
  apply (parseStructuredEventEnvelope_idempotent
           (Js.VObject Samples.sampleLegacyRecord)).
  reflexivity.
Defined.

End StructuredEventParser.

(** ** More on transfer-finalizer: the sink, and the stored prefix *)

Section FinalizerSink.
Import TransferStore Finalizer.

Lemma readChunks_sink store upload (n : nat) :
  forall (i : Z) sink sums missing sink' sums',
    readChunks store upload i n sink sums = (missing, sink', sums') ->
    mode sink' = mode sink /\ sinkType sink' = sinkType sink /\
    closed sink' = closed sink /\ aborted sink' = aborted sink.
Proof.
  induction n as [|n IH]; intros i sink sums missing sink' sums' Hread;
    cbn [readChunks] in Hread.
  - injection Hread as _ <- _. now repeat split.
  - destruct (getChunk store upload i) as [chunk|].
    + apply IH in Hread as (Hm & Ht & Hc & Ha). now repeat split.
    + injection Hread as _ <- _. now repeat split.
Qed.

(** X21. With a chunk store that answers and a sink whose operations
    succeed, the finalizer leaves its sink closed and not aborted after a
    success, and aborted and not closed after a missing chunk or a checksum
    mismatch.  It succeeds only with every chunk of the file stored; the
    blob then holds the data of the chunks [0 .. totalChunks - 1] in index
    order.  The blob is an OPFS file exactly when an OPFS sink could be
    opened, and has the type that the file system reports; a blob that was
    assembled in memory has the type of the offer as the [Blob] constructor
    keeps it: in lower case, or empty when it has a character outside
    U+0020..U+007E. *)
Theorem finalizeIncomingTransferFromStore_sink
    (subtleDigest : option (list byte -> list byte)) (opfs : option string)
    (store : TransferStore) (upload : string)
    (metadata : Types.FileMetadata) (expectedChecksum : option string) :
  let total := Types.totalChunks metadata in
  let outcome :=
    finalizeIncomingTransferFromStore subtleDigest opfs store upload
      metadata expectedChecksum in
  match fst outcome with
  | Success blob _ storageMode =>
      closed (snd outcome) = true /\ aborted (snd outcome) = false /\
      (forall i, 0 <= i < total -> getChunk store upload i <> None) /\
      blobBytes blob = storedBytes store upload total /\
      storageMode = match opfs with Some _ => Opfs | None => Memory end /\
      blobType blob
      = match opfs with
        | Some reportedType => reportedType
        | None => blobTypeOf (Types.type metadata)
        end
  | _ => closed (snd outcome) = false /\ aborted (snd outcome) = true
  end.
Proof.
  intros total outcome. subst outcome.
  destruct (contiguous_prefix store upload total)
    as (Hrange & Hpresent & Hstop).
  unfold finalizeIncomingTransferFromStore. fold total.
  set (sink := match createOpfsChunkSink opfs upload with
               | Some opfsSink => opfsSink
               | None => createInMemoryChunkSink (Types.type metadata)
               end).
  assert (closed sink = false /\ aborted sink = false /\ written sink = [] /\
          mode sink = match opfs with Some _ => Opfs | None => Memory end /\
          sinkType sink = match opfs with
                          | Some reportedType => reportedType
                          | None => Types.type metadata
                          end) as (Hc & Ha & Hw & Hm & Ht)
    by (subst sink; destruct opfs; now repeat split).
  destruct (Z.lt_ge_cases (getContiguousChunkCount store upload total) total)
    as [Hshort|Hfull].
  - destruct (readChunks_missing store upload (Z.to_nat total) 0
                (getContiguousChunkCount store upload total) sink [])
      as (sink' & sums' & Hread); [lia | now apply Hstop | exact Hpresent |].
    rewrite Hread.
    apply readChunks_sink in Hread as (_ & _ & Hc' & _).
    cbn. now rewrite Hc', Hc.
  - assert (forall i, 0 <= i < total -> getChunk store upload i <> None)
      as Hall by (intros i Hi; apply Hpresent; lia).
    rewrite readChunks_present by (intros k Hk; apply Hall; lia).
    rewrite !seqZ_to_nat, fold_sinkWrite. rewrite Hw. cbn [app].
    match goal with |- context [if ?b then _ else _] => destruct b end.
    + cbn. now rewrite Hc.
    + cbn. rewrite Ha, Hm, Ht.
      split; [reflexivity|]. split; [reflexivity|]. split; [exact Hall|].
      split; [reflexivity|]. split; [reflexivity|].
      destruct opfs; reflexivity.
Qed.

(** X22. The finalizer reports a missing chunk exactly when the stored prefix,
    as [getContiguousChunkCount] measures it, is short of the file; the
    chunk it reports is the first one after that prefix. *)
Theorem finalizeIncomingTransferFromStore_prefix
    (subtleDigest : option (list byte -> list byte)) (opfs : option string)
    (store : TransferStore) (upload : string)
    (metadata : Types.FileMetadata) (expectedChecksum : option string) :
  let total := Types.totalChunks metadata in
  let contiguous := getContiguousChunkCount store upload total in
  let outcome :=
    finalizeIncomingTransferFromStore subtleDigest opfs store upload
      metadata expectedChecksum in
  (contiguous < total -> fst outcome = MissingChunk contiguous) /\
  (forall i, fst outcome = MissingChunk i ->
     i = contiguous /\ 0 <= i < total /\ getChunk store upload i = None).
Proof.
  intros total contiguous outcome.
  destruct (contiguous_prefix store upload total)
    as (Hrange & Hpresent & Hstop).
  fold contiguous in Hrange, Hpresent, Hstop.
  assert (contiguous < total -> fst outcome = MissingChunk contiguous)
    as Hshort.
  { intros Hlt. subst outcome. unfold finalizeIncomingTransferFromStore.
    fold total.
    match goal with
    | |- context [readChunks store upload 0 (Z.to_nat total) ?sink []] =>
        destruct (readChunks_missing store upload (Z.to_nat total) 0
                    contiguous sink [])
          as (sink' & sums' & ->); [lia | now apply Hstop | exact Hpresent |]
    end.
    reflexivity. }
  split; [exact Hshort|].
  intros i Houtcome.
  destruct (Z.lt_ge_cases contiguous total) as [Hlt|Hge].
  - rewrite (Hshort Hlt) in Houtcome. injection Houtcome as <-.
    split; [reflexivity|]. split; [lia | now apply Hstop].
  - exfalso. subst outcome. unfold finalizeIncomingTransferFromStore in Houtcome.
    fold total in Houtcome.
    rewrite readChunks_present in Houtcome
      by (intros k Hk; apply Hpresent; lia).
    match type of Houtcome with
    | context [if ?b then _ else _] => destruct b
    end; cbn in Houtcome; discriminate.
Qed.

Lemma finalizeIncomingTransferFromStore_prefix_witness :
  fst (finalizeIncomingTransferFromStore None None Samples.gapStore "u"
         Samples.twoChunkFile None)
  = MissingChunk (getContiguousChunkCount Samples.gapStore "u" 2).
Proof.
  destruct (finalizeIncomingTransferFromStore_prefix None None
              Samples.gapStore "u" Samples.twoChunkFile None) as [Hshort _].
  apply Hshort. vm_compute. reflexivity.
Defined.

End FinalizerSink.


(** ** The send side: chunks and message sizes *)

Section SenderChunks.
Import Integrity Sender.

Lemma chunkAt_take_drop (content : list byte) (chunkSize i : Z) :
  0 <= i -> 0 < chunkSize ->
  chunkAt content chunkSize i
  = take (Z.to_nat chunkSize) (drop (Z.to_nat (i * chunkSize)) content).
Proof.
  intros Hi Hchunk. unfold chunkAt, fileSlice, relativeIndex.
  set (size := Z.of_nat (length content)).
  assert (0 <= size) by (subst size; lia).
  assert (0 <= i * chunkSize) by nia.
  destruct (Z.ltb_spec (i * chunkSize) 0); [lia|].
  destruct (Z.ltb_spec (Z.min (i * chunkSize + chunkSize) size) 0); [lia|].
  destruct (Z.le_gt_cases size (i * chunkSize)) as [Hout|Hin].
  - assert (Z.min (i * chunkSize) size = size) as -> by lia.
    rewrite (drop_ge content (Z.to_nat size)) by (subst size; lia).
    rewrite (drop_ge content (Z.to_nat (i * chunkSize))) by (subst size; lia).
    now rewrite !take_nil.
  - assert (Z.min (i * chunkSize) size = i * chunkSize) as -> by lia.
    set (rest := drop (Z.to_nat (i * chunkSize)) content).
    assert (Z.of_nat (length rest) = size - i * chunkSize) as Hrest
      by (subst rest size; rewrite length_drop; lia).
    destruct (Z.le_gt_cases (i * chunkSize + chunkSize) size) as [Hfull|Hlast].
    + f_equal. lia.
    + rewrite (take_ge rest (Z.to_nat chunkSize)) by lia.
      apply take_ge. lia.
Qed.

Lemma chunks_concat (content : list byte) (chunkSize : Z) (n : nat) :
  forall k, 0 <= k -> 0 < chunkSize ->
    concat (map (chunkAt content chunkSize) (seqZ k (Z.of_nat n)))
    = take (n * Z.to_nat chunkSize)
        (drop (Z.to_nat (k * chunkSize)) content).
Proof.
  induction n as [|n IH]; intros k Hk Hchunk.
  - reflexivity.
  - rewrite seqZ_succ. cbn [map concat].
    rewrite IH by lia. rewrite chunkAt_take_drop by lia.
    replace (Z.to_nat ((k + 1) * chunkSize))
      with (Z.to_nat (k * chunkSize) + Z.to_nat chunkSize)%nat by nia.
    rewrite <- drop_drop. rewrite take_take_drop. f_equal.
Qed.

Lemma chunksFrom_concat (content : list byte) (chunkSize : Z) :
  0 < chunkSize ->
  let total := calculateTotalChunks (Z.of_nat (length content)) chunkSize in
  forall k, 0 <= k <= total ->
    concat (chunksFrom content chunkSize k total)
    = drop (Z.to_nat (k * chunkSize)) content.
Proof.
  intros Hchunk total k Hk.
  assert ((total - 1) * chunkSize < Z.of_nat (length content)
          <= total * chunkSize) as Hbounds.
  { subst total. unfold calculateTotalChunks.
    destruct (Z.leb_spec chunkSize 0); [lia|]. now apply ceilDiv_bounds. }
  unfold chunksFrom. rewrite <- (Z2Nat.id (total - k)) by lia.
  rewrite chunks_concat by lia. apply take_ge.
  rewrite length_drop. nia.
Qed.

(** X23. The buffers that [sendFile] sends from a start chunk on are the file
    from that chunk's byte boundary to its end, cut in order and without
    gap or overlap; from chunk 0 they are the whole file.  Every chunk
    holds between 1 and [chunkSize] bytes: the difference of its two
    boundaries. *)
Theorem sendFile_chunks_cover
    (content : list byte) (chunkSize startChunk : Z) :
  0 < chunkSize ->
  let size := Z.of_nat (length content) in
  let total := calculateTotalChunks size chunkSize in
  0 <= startChunk <= total ->
  concat (chunksFrom content chunkSize startChunk total)
  = drop (Z.to_nat (bytesForChunkIndex startChunk chunkSize size)) content /\
  concat (chunksFrom content chunkSize 0 total) = content /\
  (forall i, 0 <= i < total ->
     let bytes := Z.of_nat (length (chunkAt content chunkSize i)) in
     bytes = bytesForChunkIndex (i + 1) chunkSize size
             - bytesForChunkIndex i chunkSize size /\
     0 < bytes <= chunkSize).
Proof.
  intros Hchunk size total Hstart.
  assert ((total - 1) * chunkSize < size <= total * chunkSize) as Hbounds.
  { subst total. unfold calculateTotalChunks.
    destruct (Z.leb_spec chunkSize 0); [lia|]. now apply ceilDiv_bounds. }
  assert (0 <= size) by (subst size; lia).
  pose proof (chunksFrom_concat content chunkSize Hchunk) as Hfrom.
  cbv zeta in Hfrom. fold size total in Hfrom.
  split; [|split].
  - rewrite Hfrom by lia. unfold bytesForChunkIndex.
    rewrite !Z.max_r by lia.
    destruct (Z.le_gt_cases (startChunk * chunkSize) size) as [Hin|Hout].
    + now rewrite Z.min_l by lia.
    + rewrite Z.min_r by lia.
      rewrite !drop_ge; [reflexivity | subst size; lia | subst size; lia].
  - rewrite Hfrom by lia. reflexivity.
  - intros i Hi bytes. subst bytes.
    rewrite chunkAt_take_drop by lia.
    rewrite length_take, length_drop. unfold bytesForChunkIndex.
    fold size. nia.
Qed.

Lemma sendFile_chunks_cover_witness :
  concat (chunksFrom ["a"%byte; "b"%byte; "c"%byte] 2 0
            (calculateTotalChunks 3 2))
  = ["a"%byte; "b"%byte; "c"%byte].
Proof.
  destruct (sendFile_chunks_cover ["a"%byte; "b"%byte; "c"%byte] 2 0
              ltac:(lia)) as (_ & Hwhole & _).
  - vm_compute. split; discriminate.
  - exact Hwhole.
Defined.

(** X24. With a message limit of at least 16 KiB (so with every forced
    override) no chunk that [sendFile] cuts is refused as
    MESSAGE_TOO_LARGE; with a positive limit below 16 KiB the first chunk
    of every file of at least 16 KiB is refused, because the planner
    never goes below 16 KiB. *)
Theorem sendFile_message_size
    (forced : option Z) (runtime : option Js.number)
    (configuredChunkSize : Z) (rtt : option Q) (content : list byte) :
  let maxMessageSize := resolveMaxMessageSize forced runtime in
  let chunkSize := plannedChunkSize configuredChunkSize maxMessageSize rtt in
  16384 <= chunkSize /\
  (forced <> None -> exists limit,
     maxMessageSize = Some limit /\ 16384 <= limit) /\
  (forall limit i,
     maxMessageSize = Some limit -> 16384 <= limit -> 0 <= i ->
     messageTooLarge maxMessageSize (chunkAt content chunkSize i) = false) /\
  (forall limit,
     maxMessageSize = Some limit -> limit < 16384 ->
     16384 <= Z.of_nat (length content) ->
     messageTooLarge maxMessageSize (chunkAt content chunkSize 0) = true).
Proof.
  intros maxMessageSize chunkSize.
  assert (16384 <= chunkSize) as Hmin
    by (subst chunkSize; unfold plannedChunkSize, Transfer.MIN_CHUNK_SIZE; lia).
  assert (forall i, 0 <= i ->
            Z.of_nat (length (chunkAt content chunkSize i)) <= chunkSize)
    as Hlength.
  { intros i Hi. rewrite chunkAt_take_drop by lia. rewrite length_take. lia. }
  split; [exact Hmin|]. split; [|split].
  - intros Hforced. subst maxMessageSize. unfold resolveMaxMessageSize.
    destruct forced as [override|]; [|contradiction].
    eexists. split; [reflexivity|].
    unfold DEFAULT_FORCED_MAX_MESSAGE_SIZE. lia.
  - intros limit i Hlimit Hbig Hi. rewrite Hlimit. cbn [messageTooLarge].
    apply Z.ltb_ge. specialize (Hlength i Hi).
    assert (chunkSize <= limit); [|lia].
    subst chunkSize. unfold plannedChunkSize, Transfer.MIN_CHUNK_SIZE.
    rewrite Hlimit, planned_chunkSize.
    destruct (rttTieredSize_props configuredChunkSize rtt) as (Hlow & _ & _).
    destruct (Z.eqb_spec limit 0); [lia|].
    unfold AdaptiveChunk.messageLimitSize.
    destruct (flooredTo4KiB_props (limit - 1024)) as (_ & _ & Hup & _).
    destruct (Z.le_gt_cases 17408 limit).
    + lia.
    + assert (AdaptiveChunk.flooredTo4KiB (limit - 1024) = 16384).
      { unfold AdaptiveChunk.flooredTo4KiB.
        assert ((limit - 1024) / 4096 < 4)
          by (apply Z.div_lt_upper_bound; lia).
        lia. }
      lia.
  - intros limit Hlimit Hsmall Hsize. rewrite Hlimit. cbn [messageTooLarge].
    apply Z.ltb_lt. rewrite chunkAt_take_drop by lia.
    rewrite Z.mul_0_l. change (Z.to_nat 0) with 0%nat. rewrite drop_0.
    rewrite length_take. lia.
Qed.

Lemma sendFile_message_size_witness :
  messageTooLarge (resolveMaxMessageSize (Some 1) None)
    (chunkAt ["a"%byte; "b"%byte] 
       (plannedChunkSize 65536 (resolveMaxMessageSize (Some 1) None) None) 0)
  = false.
Proof.
  destruct (sendFile_message_size (Some 1) None 65536 None
              ["a"%byte; "b"%byte]) as (_ & _ & Hfits & _).
  apply (Hfits 16384); [reflexivity | lia | lia].
Defined.

End SenderChunks.


(** ** The receive side: chunks into the store *)

Section ReceiveFacts.
Import TransferStore Transfer.

Variable subtleDigest : option (list byte -> list byte).
Variable opfs : option string.
Variable percentOf : Z -> Z -> Js.number.
Variable reachedMilestone : Z -> Z -> bool.

Lemma upsertPersistedSession_fields now conn direction meta st next bytes fp ck :
  let after :=
    upsertPersistedSession now conn direction meta st next bytes fp ck in
  dataChannel after = dataChannel conn /\
  currentReceivingFileId after = currentReceivingFileId conn /\
  incomingTransfers after = incomingTransfers conn /\
  inMemoryIncomingChunks after = inMemoryIncomingChunks conn /\
  isSupported (transferStore after) = isSupported (transferStore conn).
Proof.
  cbv zeta. unfold upsertPersistedSession.
  destruct (isSupported (transferStore conn)) eqn:Hs; cbn [negb].
  - cbn [dataChannel currentReceivingFileId incomingTransfers
           inMemoryIncomingChunks transferStore withTransferStore].
    repeat split. unfold putSession. rewrite Hs. cbn [negb isSupported supported].
    exact Hs.
  - now repeat split.
Qed.

Lemma putChunk_lookup now store upload index bytes sum other i :
  isSupported store = true ->
  getChunk (putChunk now store upload index bytes sum) other i
  = if decide ((other, i) = (upload, index))
    then Some {| chunkUploadId := upload; chunkIndex := index;
                 data := bytes; checksum := sum;
                 chunkSizeBytes := Z.of_nat (length bytes);
                 chunkUpdatedAt := now |}
    else getChunk store other i.
Proof.
  intros Hs. unfold getChunk, putChunk. rewrite Hs. cbn [negb].
  unfold isSupported in *. cbn [supported chunks]. rewrite Hs. cbn [negb].
  destruct (decide ((other, i) = (upload, index))) as [[= -> ->]|Hne].
  - apply lookup_insert_eq.
  - apply lookup_insert_ne. congruence.
Qed.

(** What one binary frame does to a receiver that uses IndexedDB and
    still expects chunks. *)
Lemma processFileChunk_stored now conn fileId transfer bytes :
  isSupported (transferStore conn) = true ->
  currentReceivingFileId conn = Some fileId -> fileId <> EmptyString ->
  incomingTransfers conn !! fileId = Some transfer ->
  receivedChunks transfer < Types.totalChunks (metadata transfer) ->
  let after :=
    fst (processFileChunk subtleDigest percentOf reachedMilestone now conn
           bytes) in
  isSupported (transferStore after) = true /\
  currentReceivingFileId after = Some fileId /\
  dataChannel after = dataChannel conn /\
  (exists received,
     incomingTransfers after !! fileId = Some received /\
     metadata received = metadata transfer /\
     uploadId received = uploadId transfer /\
     expectedFileChecksum received = expectedFileChecksum transfer /\
     receivedChunks received = receivedChunks transfer + 1 /\
     expectedChunkIndex received = receivedChunks transfer + 1 /\
     bytesReceived received
     = bytesReceived transfer + Z.of_nat (length bytes)) /\
  (forall upload i,
     getChunk (transferStore after) upload i
     = if decide ((upload, i) = (uploadId transfer, receivedChunks transfer))
       then Some {| chunkUploadId := uploadId transfer;
                    chunkIndex := receivedChunks transfer;
                    data := bytes;
                    checksum := Integrity.hashArrayBuffer subtleDigest bytes;
                    chunkSizeBytes := Z.of_nat (length bytes);
                    chunkUpdatedAt := now |}
       else getChunk (transferStore conn) upload i).
Proof.
  intros Hs Hcurrent Hid Hheld Hroom. cbv zeta.
  unfold processFileChunk. rewrite Hcurrent.
  destruct (String.eqb_spec fileId EmptyString) as [|_]; [contradiction|].
  rewrite Hheld. unfold processFileChunkInternal.
  destruct (Z.leb_spec (Types.totalChunks (metadata transfer))
              (receivedChunks transfer)) as [|_]; [lia|].
  set (warned := if MAX_CHUNK_SEQUENCE_GAP <? _ then _ else conn).
  assert (transferStore warned = transferStore conn /\
          currentReceivingFileId warned = currentReceivingFileId conn /\
          dataChannel warned = dataChannel conn /\
          incomingTransfers warned = incomingTransfers conn)
    as (Hstore & Hcur & Hchannel & Hmap)
    by (subst warned; destruct (_ <? _); now repeat split).
  rewrite Hstore, Hs.
  set (stored := withTransferStore warned _).
  set (upserted := upsertPersistedSession now stored _ _ _ _ _ _ _).
  destruct (upsertPersistedSession_fields now stored Incoming
              (metadata transfer) Active (receivedChunks transfer + 1)
              (bytesReceived transfer + Z.of_nat (length bytes)) None None)
    as (Hch & Hcu & Hin & _ & Hsup).
  destruct (upsertPersistedSession_chunks now stored Incoming
              (metadata transfer) Active (receivedChunks transfer + 1)
              (bytesReceived transfer + Z.of_nat (length bytes)) None None)
    as [Hchunks _].
  cbn [receivedChunks bytesReceived] in upserted.
  fold upserted in Hch, Hcu, Hin, Hsup, Hchunks.
  set (logged := if reachedMilestone _ _ then _ else upserted).
  assert (transferStore logged = transferStore upserted /\
          currentReceivingFileId logged = currentReceivingFileId upserted /\
          dataChannel logged = dataChannel upserted /\
          incomingTransfers logged = incomingTransfers upserted)
    as (Hstore' & Hcur' & Hchannel' & Hmap')
    by (subst logged; destruct (reachedMilestone _ _); now repeat split).
  cbn [fst transferStore currentReceivingFileId dataChannel incomingTransfers
         withIncomingTransfers].
  rewrite Hstore', Hcur', Hchannel', Hsup, Hcu, Hch.
  subst stored.
  cbn [transferStore currentReceivingFileId dataChannel withTransferStore].
  split.
  { unfold putChunk. rewrite Hs. cbn [negb isSupported supported]. exact Hs. }
  split; [now rewrite Hcur|]. split; [exact Hchannel|]. split.
  - eexists. rewrite lookup_insert_eq. split; [reflexivity|].
    now repeat split.
  - intros upload i. rewrite Hchunks.
    cbn [transferStore withTransferStore].
    now apply putChunk_lookup.
Qed.

Lemma receiveChunks_cons conn now bytes rest :
  fst (receiveChunks subtleDigest percentOf reachedMilestone conn
         ((now, bytes) :: rest))
  = fst (receiveChunks subtleDigest percentOf reachedMilestone
           (fst (processFileChunk subtleDigest percentOf reachedMilestone
                   now conn bytes))
           rest).
Proof.
  cbn [receiveChunks].
  destruct (processFileChunk _ _ _ now conn bytes) as [next calls].
  cbn [fst]. now destruct (receiveChunks _ _ _ next rest).
Qed.

Lemma receiveChunks_stored fileId (frames : list (Z * list byte)) :
  forall conn transfer,
    isSupported (transferStore conn) = true ->
    currentReceivingFileId conn = Some fileId -> fileId <> EmptyString ->
    incomingTransfers conn !! fileId = Some transfer ->
    receivedChunks transfer + Z.of_nat (length frames)
    <= Types.totalChunks (metadata transfer) ->
    let after :=
      fst (receiveChunks subtleDigest percentOf reachedMilestone conn frames)
    in
    isSupported (transferStore after) = true /\
    currentReceivingFileId after = Some fileId /\
    dataChannel after = dataChannel conn /\
    (exists received,
       incomingTransfers after !! fileId = Some received /\
       metadata received = metadata transfer /\
       uploadId received = uploadId transfer /\
       expectedFileChecksum received = expectedFileChecksum transfer /\
       receivedChunks received
       = receivedChunks transfer + Z.of_nat (length frames)) /\
    (forall (k : nat) now bytes,
       frames !! k = Some (now, bytes) ->
       exists record,
         getChunk (transferStore after) (uploadId transfer)
           (receivedChunks transfer + Z.of_nat k) = Some record /\
         data record = bytes /\
         checksum record = Integrity.hashArrayBuffer subtleDigest bytes) /\
    (forall upload i,
       ~ (upload = uploadId transfer /\
          receivedChunks transfer <= i
          < receivedChunks transfer + Z.of_nat (length frames)) ->
       getChunk (transferStore after) upload i
       = getChunk (transferStore conn) upload i).
Proof.
  induction frames as [|[now bytes] rest IH];
    intros conn transfer Hs Hcurrent Hid Hheld Hroom; cbv zeta.
  - cbn [receiveChunks fst length]. split; [exact Hs|].
    split; [exact Hcurrent|]. split; [reflexivity|]. split.
    + exists transfer. rewrite Z.add_0_r. now repeat split.
    + split; [intros k t b Hk; now rewrite lookup_nil in Hk | reflexivity].
  - rewrite receiveChunks_cons. cbn [length] in Hroom |- *.
    destruct (processFileChunk_stored now conn fileId transfer bytes
                Hs Hcurrent Hid Hheld ltac:(lia))
      as (Hs1 & Hcur1 & Hch1 & (first & Hheld1 & Hm1 & Hu1 & He1 & Hr1 & _)
          & Hchunks1).
    set (conn1 := fst (processFileChunk subtleDigest percentOf
                         reachedMilestone now conn bytes)) in *.
    destruct (IH conn1 first Hs1 Hcur1 Hid Hheld1
                ltac:(rewrite Hm1, Hr1; lia))
      as (Hs2 & Hcur2 & Hch2 & (received & Hheld2 & Hm2 & Hu2 & He2 & Hr2)
          & Hframes & Hframe).
    split; [exact Hs2|]. split; [exact Hcur2|].
    split; [now rewrite Hch2|]. split.
    + exists received. split; [exact Hheld2|].
      split; [congruence|]. split; [congruence|]. split; [congruence|].
      rewrite Hr2, Hr1. lia.
    + split.
      * intros [|k] t b Hk.
        -- cbn in Hk. injection Hk as <- <-.
           change (Z.of_nat 0) with 0. rewrite Z.add_0_r.
           rewrite Hframe by (rewrite Hr1; intros [_ Hi]; lia).
           rewrite Hchunks1.
           destruct (decide _) as [_|Hne]; [|congruence].
           eexists. now repeat split.
        -- cbn in Hk. destruct (Hframes k t b Hk) as (record & Hget & Hrest).
           exists record. rewrite Hu1, Hr1 in Hget.
           replace (receivedChunks transfer + Z.of_nat (S k))
             with (receivedChunks transfer + 1 + Z.of_nat k) by lia.
           now split.
      * intros upload i Hout.
        rewrite Hframe by (rewrite Hu1, Hr1; intros [-> Hi]; apply Hout;
                           split; [reflexivity | lia]).
        rewrite Hchunks1.
        destruct (decide _) as [[= -> ->]|_]; [|reflexivity].
        exfalso. apply Hout. split; [reflexivity | lia].
Qed.

Lemma finalize_all_present store upload meta expected :
  (forall i, 0 <= i < Types.totalChunks meta ->
     getChunk store upload i <> None) ->
  let total := Types.totalChunks meta in
  let computed :=
    Integrity.deriveFileChecksumFromChunkChecksums subtleDigest
      (Finalizer.storedChecksums store upload total) in
  fst (Finalizer.finalizeIncomingTransferFromStore subtleDigest opfs store
         upload meta expected)
  = if match expected with
       | Some wanted =>
           negb (String.eqb wanted EmptyString)
           && negb (String.eqb computed wanted)
       | None => false
       end
    then Finalizer.ChecksumMismatch computed
    else
      Finalizer.Success
        {| Finalizer.blobBytes := Finalizer.storedBytes store upload total;
           Finalizer.blobType :=
             match opfs with
             | Some reported => reported
             | None => Finalizer.blobTypeOf (Types.type meta)
             end |}
        computed
        (match opfs with
         | Some _ => Finalizer.Opfs
         | None => Finalizer.Memory
         end).
Proof.
  intros Hall total computed.
  unfold Finalizer.finalizeIncomingTransferFromStore. fold total.
  rewrite readChunks_present by (intros k Hk; apply Hall; lia).
  rewrite !seqZ_to_nat, fold_sinkWrite. cbn [app].
  fold (Finalizer.storedChecksums store upload total). fold computed.
  destruct (match expected with Some _ => _ | None => _ end);
    [reflexivity|].
  destruct opfs; reflexivity.
Qed.

Lemma hashArrayBuffer_nonempty (bytes : list byte) :
  match subtleDigest with
  | Some sha256 => forall input, sha256 input <> []
  | None => True
  end ->
  Integrity.hashArrayBuffer subtleDigest bytes <> EmptyString.
Proof.
  intros Hdigest Hempty.
  assert (length (list_ascii_of_string
                    (Integrity.hashArrayBuffer subtleDigest bytes)) = 0%nat)
    as Hlen by now rewrite Hempty.
  unfold Integrity.hashArrayBuffer, Integrity.fnv1a32Hex in Hlen.
  destruct subtleDigest as [sha256|].
  - destruct (toHex_shape (sha256 bytes)) as [Hshape _].
    rewrite Hshape in Hlen. specialize (Hdigest bytes).
    destruct (sha256 bytes); [contradiction | discriminate].
  - destruct (hexFixed_shape 8
                (fold_left Integrity.fnv1a32Step bytes 2166136261))
      as [Hshape _].
    rewrite Hshape in Hlen. discriminate.
Qed.

(** X25. A receiver that holds the first chunks of a file in IndexedDB, takes
    the remaining chunks of a sender in order and then the sender's
    [transfer-complete] delivers the file byte for byte: it calls
    [onFileComplete] once, with a blob holding exactly the content of the
    sender's file, asks for no retransmission, forgets the transfer and
    deletes the upload from the store. *)
Theorem completeTransfer_delivers
    (conn : P2PConnection) (fileId : string) (transfer : IncomingTransferState)
    (content : list byte) (frames : list (Z * list byte)) (finishedAt : Z) :
  let meta := metadata transfer in
  let chunkSize := Types.chunkSize meta in
  let total := Types.totalChunks meta in
  let upload := uploadId transfer in
  let checksumOf i :=
    Integrity.hashArrayBuffer subtleDigest
      (Sender.chunkAt content chunkSize i) in
  let senderChecksum :=
    Integrity.deriveFileChecksumFromChunkChecksums subtleDigest
      (map checksumOf (seqZ 0 total)) in
  isSupported (transferStore conn) = true ->
  currentReceivingFileId conn = Some fileId -> fileId <> EmptyString ->
  incomingTransfers conn !! fileId = Some transfer ->
  0 < chunkSize ->
  total = Integrity.calculateTotalChunks (Z.of_nat (length content)) chunkSize ->
  total <= MAX_SAFE_INTEGER + 1 ->
  0 <= receivedChunks transfer <= total ->
  (forall i, 0 <= i < receivedChunks transfer ->
     exists record,
       getChunk (transferStore conn) upload i = Some record /\
       data record = Sender.chunkAt content chunkSize i /\
       checksum record = checksumOf i) ->
  match subtleDigest with
  | Some sha256 => forall input, sha256 input <> []
  | None => True
  end ->
  map snd frames
  = Sender.chunksFrom content chunkSize (receivedChunks transfer) total ->
  let receiving :=
    fst (receiveChunks subtleDigest percentOf reachedMilestone conn frames) in
  exists after blob,
    completeTransfer subtleDigest opfs finishedAt receiving fileId
      (Some senderChecksum)
    = Some (after, [OnFileComplete blob meta]) /\
    Finalizer.blobBytes blob = content /\
    incomingTransfers after !! fileId = None /\
    currentReceivingFileId after = None /\
    getChunkCount (transferStore after) upload = 0 /\
    sent after = sent conn.
Proof.
  intros meta chunkSize total upload checksumOf senderChecksum
    Hs Hcurrent Hid Hheld Hchunk Htotal Hsafe Hreceived Hprefix Hdigest
    Hframes receiving.
  assert (length frames = Z.to_nat (total - receivedChunks transfer))
    as Hlength.
  { rewrite <- (length_map snd frames), Hframes. unfold Sender.chunksFrom.
    now rewrite length_map, length_seqZ. }
  destruct (receiveChunks_stored fileId frames conn transfer
              Hs Hcurrent Hid Hheld ltac:(fold meta total; lia))
    as (Hs' & Hcurrent' & Hchannel
        & (received & Hheld' & Hmeta & Hupload & _ & Hcount)
        & Hstored & Hframe).
  fold receiving in Hs', Hcurrent', Hchannel, Hheld', Hstored, Hframe.
  fold upload in Hupload, Hstored, Hframe.
  assert (forall i, 0 <= i < total ->
            exists record,
              getChunk (transferStore receiving) upload i = Some record /\
              data record = Sender.chunkAt content chunkSize i /\
              checksum record = checksumOf i) as Hall.
  { intros i Hi.
    destruct (Z.lt_ge_cases i (receivedChunks transfer)) as [Hold|Hnew].
    - rewrite Hframe by lia. apply Hprefix. lia.
    - set (k := Z.to_nat (i - receivedChunks transfer)).
      assert (map snd frames !! k
              = Some (Sender.chunkAt content chunkSize i)) as Hk.
      { rewrite Hframes. unfold Sender.chunksFrom.
        change (map (Sender.chunkAt content chunkSize))
          with (fmap (M := list) (Sender.chunkAt content chunkSize)).
        rewrite list_lookup_fmap, lookup_seqZ_lt by (subst k; lia).
        cbn. do 2 f_equal. subst k. lia. }
      change (map snd frames) with (snd <$> frames) in Hk.
      rewrite list_lookup_fmap in Hk.
      destruct (frames !! k) as [[now bytes]|] eqn:Hframe_k; [|discriminate].
      cbn in Hk. injection Hk as ->.
      destruct (Hstored k now _ Hframe_k) as (record & Hget & Hdata & Hsum).
      exists record.
      replace (receivedChunks transfer + Z.of_nat k) with i in Hget
        by (subst k; lia).
      now repeat split. }
  assert (Finalizer.storedChecksums (transferStore receiving) upload total
          = map checksumOf (seqZ 0 total)) as Hsums.
  { unfold Finalizer.storedChecksums. apply map_ext_in. intros i Hin.
    apply list_elem_of_In, elem_of_seqZ in Hin.
    destruct (Hall i ltac:(lia)) as (record & Hget & _ & Hsum).
    unfold Finalizer.checksumAt. now rewrite Hget. }
  assert (Finalizer.storedBytes (transferStore receiving) upload total
          = content) as Hbytes.
  { unfold Finalizer.storedBytes.
    pose proof (chunksFrom_concat content chunkSize Hchunk 0) as Hwhole.
    cbv zeta in Hwhole. rewrite <- Htotal in Hwhole.
    specialize (Hwhole ltac:(lia)). rewrite Z.mul_0_l in Hwhole.
    change (Z.to_nat 0) with 0%nat in Hwhole. rewrite drop_0 in Hwhole.
    etransitivity; [|exact Hwhole].
    unfold Sender.chunksFrom. rewrite Z.sub_0_r. f_equal.
    apply map_ext_in. intros i Hin.
    apply list_elem_of_In, elem_of_seqZ in Hin.
    destruct (Hall i ltac:(lia)) as (record & Hget & Hdata & _).
    unfold Finalizer.dataAt. now rewrite Hget. }
  assert (senderChecksum <> EmptyString) as Hsum.
  { subst senderChecksum.
    unfold Integrity.deriveFileChecksumFromChunkChecksums, Integrity.hashText.
    now apply hashArrayBuffer_nonempty. }
  unfold completeTransfer. rewrite Hheld'.
  destruct (String.eqb_spec senderChecksum EmptyString) as [|_];
    [contradiction|].
  cbn [metadata uploadId expectedFileChecksum withExpectedFileChecksum].
  rewrite Hmeta, Hupload. fold meta total upload.
  unfold orString.
  destruct (String.eqb_spec senderChecksum EmptyString) as [|_];
    [contradiction|].
  rewrite Hs'.
  destruct (Z.ltb_spec (getChunkCount (transferStore receiving) upload) total)
    as [Hshort|_].
  { exfalso.
    pose proof (getChunkCount_lower (transferStore receiving) upload total
                  Hsafe) as Hlow.
    assert (total <= getChunkCount (transferStore receiving) upload); [|lia].
    apply Hlow. intros i Hi. destruct (Hall i Hi) as (record & -> & _).
    discriminate. }
  rewrite finalize_all_present
    by (intros i Hi; destruct (Hall i Hi) as (record & -> & _); discriminate).
  fold total. rewrite Hsums. fold senderChecksum.
  rewrite String.eqb_refl, andb_false_r, Hbytes.
  unfold deliverFile.
  cbn [transferStore currentReceivingFileId incomingTransfers logEvent
         withTransferStore withInMemoryIncomingChunks withIncomingTransfers
         uploadId withExpectedFileChecksum metadata].
  rewrite Hs'.
  cbn [transferStore currentReceivingFileId incomingTransfers logEvent
         withTransferStore withInMemoryIncomingChunks withIncomingTransfers].
  rewrite Hcurrent', String.eqb_refl, ?Hmeta, ?Hupload.
  fold meta upload.
  eexists _, _. split; [reflexivity|].
  cbn [Finalizer.blobBytes transferStore currentReceivingFileId
         incomingTransfers withCurrentReceivingFileId withIncomingTransfers
         withInMemoryIncomingChunks withTransferStore logEvent].
  split; [reflexivity|]. split; [apply lookup_delete_eq|].
  split; [reflexivity|]. split; [apply getChunkCount_deleteUpload|].
  unfold sent.
  cbn [dataChannel withCurrentReceivingFileId withIncomingTransfers
         withInMemoryIncomingChunks withTransferStore logEvent].
  now rewrite Hchannel.
Qed.

End ReceiveFacts.


Section ReceiveExamples.
Import TransferStore Transfer.

Lemma completeTransfer_delivers_witness :
  exists after blob,
    completeTransfer None None 20
      (fst (receiveChunks None (fun _ _ => Js.NaN) (fun _ _ => false)
              Samples.receivingConnection Samples.abcFrames))
      "f"
      (Some
         (Integrity.deriveFileChecksumFromChunkChecksums None
            [Integrity.hashArrayBuffer None ["a"%byte; "b"%byte];
             Integrity.hashArrayBuffer None ["c"%byte]]))
    = Some (after, [OnFileComplete blob Samples.twoChunkFile]) /\
    Finalizer.blobBytes blob = ["a"%byte; "b"%byte; "c"%byte] /\
    incomingTransfers after !! "f" = None.
Proof.
  destruct (completeTransfer_delivers None None (fun _ _ => Js.NaN)
              (fun _ _ => false) Samples.receivingConnection "f"
              Samples.offeredTransfer ["a"%byte; "b"%byte; "c"%byte]
              Samples.abcFrames 20)
    as (after & blob & Hdone & Hbytes & Hgone & _).
  - reflexivity.
  - reflexivity.
  - discriminate.
  - reflexivity.
  - reflexivity.
  - reflexivity.
  - vm_compute. discriminate.
  - vm_compute. split; discriminate.
  - intros i Hi. cbn in Hi. lia.
  - exact I.
  - reflexivity.
  - exists after, blob. split; [exact Hdone|]. split; assumption.
Defined.

End ReceiveExamples.


(** ** The receive side: frames that are ignored, and retransmission *)

Section ReceiveRecovery.
Import TransferStore Transfer.

Variable subtleDigest : option (list byte -> list byte).
Variable opfs : option string.
Variable percentOf : Z -> Z -> Js.number.
Variable reachedMilestone : Z -> Z -> bool.

(** X26. A binary frame that arrives when no file is being received, when the
    current file id has no transfer, or when the transfer already has all
    its chunks, is dropped: nothing is stored, no transfer changes,
    nothing is sent and no callback is called. *)
Theorem processFileChunk_ignored
    (now : Z) (conn : P2PConnection) (bytes : list byte) :
  match currentReceivingFileId conn with
  | Some fileId =>
      fileId = EmptyString \/
      match incomingTransfers conn !! fileId with
      | Some transfer =>
          Types.totalChunks (metadata transfer) <= receivedChunks transfer
      | None => True
      end
  | None => True
  end ->
  let result :=
    processFileChunk subtleDigest percentOf reachedMilestone now conn bytes in
  snd result = [] /\
  transferStore (fst result) = transferStore conn /\
  incomingTransfers (fst result) = incomingTransfers conn /\
  inMemoryIncomingChunks (fst result) = inMemoryIncomingChunks conn /\
  currentReceivingFileId (fst result) = currentReceivingFileId conn /\
  sent (fst result) = sent conn.
Proof.
  intros Hcase. cbv zeta. unfold processFileChunk.
  destruct (currentReceivingFileId conn) as [fileId|] eqn:Hcurrent;
    [|now repeat split].
  destruct (String.eqb_spec fileId EmptyString) as [|Hid];
    [now repeat split|].
  destruct Hcase as [|Hcase]; [contradiction|].
  destruct (incomingTransfers conn !! fileId) as [transfer|] eqn:Hheld;
    [|now repeat split].
  unfold processFileChunkInternal.
  destruct (Z.leb_spec (Types.totalChunks (metadata transfer))
              (receivedChunks transfer)) as [_|]; [|lia].
  cbn [fst snd transferStore incomingTransfers inMemoryIncomingChunks
         currentReceivingFileId withIncomingTransfers logEvent].
  split; [reflexivity|]. split; [reflexivity|].
  split; [now apply insert_id|]. split; [reflexivity|].
  split; [exact Hcurrent | reflexivity].
Qed.

Lemma requestRetransmit_channel now conn transfer fromChunk reason :
  let startChunk :=
    Integrity.normalizeChunkIndex fromChunk
      (Types.totalChunks (metadata transfer)) in
  let after := snd (requestRetransmit now conn transfer fromChunk reason) in
  sent after
  = sent conn
    ++ (if isDataChannelReady conn
        then [Control (RequestRetransmit (Types.id (metadata transfer))
                         (uploadId transfer) startChunk reason)]
        else []) /\
  incomingTransfers after = incomingTransfers conn /\
  currentReceivingFileId after = currentReceivingFileId conn.
Proof.
  cbv zeta. unfold requestRetransmit.
  cbn [snd uploadId bytesReceived metadata].
  set (startChunk := Integrity.normalizeChunkIndex _ _).
  set (cleared := if isSupported (transferStore conn) then _ else _).
  assert (dataChannel cleared = dataChannel conn /\
          incomingTransfers cleared = incomingTransfers conn /\
          currentReceivingFileId cleared = currentReceivingFileId conn)
    as (Hch & Hin & Hcu)
    by (subst cleared; destruct (isSupported _); now repeat split).
  match goal with
  | |- context [upsertPersistedSession now ?c ?d ?m ?s ?n ?b ?f ?k] =>
      destruct (upsertPersistedSession_fields now c d m s n b f k)
        as (Hch' & Hcu' & Hin' & _ & _);
      set (upserted := upsertPersistedSession now c d m s n b f k) in *
  end.
  assert (isDataChannelReady upserted = isDataChannelReady conn) as Hready
    by (unfold isDataChannelReady; now rewrite Hch', Hch).
  rewrite Hready. unfold sent.
  cbn [dataChannel incomingTransfers currentReceivingFileId logEvent].
  destruct (isDataChannelReady conn) eqn:Hopen.
  - unfold channelSend. rewrite Hch', Hch.
    unfold isDataChannelReady in Hopen.
    destruct (dataChannel conn) as [channel|]; [|discriminate].
    cbn [dataChannel incomingTransfers currentReceivingFileId withDataChannel
           sentFrames].
    split; [reflexivity|]. split; congruence.
  - rewrite Hch', Hch. split; [now rewrite app_nil_r|]. split; congruence.
Qed.

Lemma retransmitFrom_effect now conn fileId transfer (fromChunk : Z) reason :
  0 <= fromChunk <= Types.totalChunks (metadata transfer) ->
  let result := retransmitFrom now conn fileId transfer fromChunk reason in
  snd result = [] /\
  sent (fst result)
  = sent conn
    ++ (if isDataChannelReady conn
        then [Control (RequestRetransmit (Types.id (metadata transfer))
                         (uploadId transfer) fromChunk reason)]
        else []) /\
  (exists held,
     incomingTransfers (fst result) !! fileId = Some held /\
     metadata held = metadata transfer /\
     uploadId held = uploadId transfer /\
     expectedFileChecksum held = expectedFileChecksum transfer /\
     receivedChunks held = fromChunk /\
     expectedChunkIndex held = fromChunk /\
     bytesReceived held
     = Integrity.bytesForChunkIndex fromChunk
         (Types.chunkSize (metadata transfer))
         (Types.size (metadata transfer))) /\
  currentReceivingFileId (fst result) = currentReceivingFileId conn /\
  (forall upload i,
     getChunk (transferStore (fst result)) upload i
     = getChunk (deleteChunksFrom (transferStore conn) (uploadId transfer)
                   fromChunk) upload i).
Proof.
  intros Hrange. cbv zeta. unfold retransmitFrom.
  pose proof (requestRetransmit_channel now conn transfer (Js.ofZ fromChunk)
                reason) as (Hsent & Hin & Hcu).
  pose proof (requestRetransmit_store now conn transfer (Js.ofZ fromChunk)
                reason) as [Hchunk _].
  cbv zeta in Hsent, Hin, Hcu, Hchunk.
  rewrite (normalizeChunkIndex_integer fromChunk _ Hrange)
    in Hsent, Hchunk.
  assert (fst (requestRetransmit now conn transfer (Js.ofZ fromChunk) reason)
          = {| metadata := metadata transfer;
               receivedChunks := fromChunk;
               bytesReceived :=
                 Integrity.bytesForChunkIndex fromChunk
                   (Types.chunkSize (metadata transfer))
                   (Types.size (metadata transfer));
               expectedChunkIndex := fromChunk;
               ready := ready transfer;
               uploadId := uploadId transfer;
               expectedFileChecksum := expectedFileChecksum transfer;
               chunkChecksums := sliceTo (chunkChecksums transfer) fromChunk;
               hasPersistenceError := hasPersistenceError transfer |})
    as Hfirst.
  { unfold requestRetransmit. cbn [fst].
    now rewrite (normalizeChunkIndex_integer fromChunk _ Hrange). }
  destruct (requestRetransmit now conn transfer (Js.ofZ fromChunk) reason)
    as [held after].
  cbn [fst snd] in *. subst held.
  split; [reflexivity|]. split; [exact Hsent|]. split.
  - eexists. cbn [incomingTransfers withIncomingTransfers].
    rewrite lookup_insert_eq. split; [reflexivity|]. now repeat split.
  - split; [exact Hcu | exact Hchunk].
Qed.

(** X27. When the sender announces the end of a file of which the store holds
    too few chunks, the receiver delivers nothing: it asks for the chunks
    again from the end of the stored prefix (a chunk that really is
    missing), rewinds the transfer to that chunk and keeps the prefix. *)
Theorem completeTransfer_missing_chunks
    (now : Z) (conn : P2PConnection) (fileId : string)
    (transfer : IncomingTransferState) (checksum : option string) :
  let meta := metadata transfer in
  let total := Types.totalChunks meta in
  let upload := uploadId transfer in
  let contiguous :=
    getContiguousChunkCount (transferStore conn) upload total in
  isSupported (transferStore conn) = true ->
  incomingTransfers conn !! fileId = Some transfer ->
  total <= MAX_SAFE_INTEGER + 1 ->
  getChunkCount (transferStore conn) upload < total ->
  exists after,
    completeTransfer subtleDigest opfs now conn fileId checksum
    = Some (after, []) /\
    0 <= contiguous < total /\
    getChunk (transferStore conn) upload contiguous = None /\
    sent after
    = sent conn
      ++ (if isDataChannelReady conn
          then [Control (RequestRetransmit (Types.id meta) upload contiguous
                           "missing_chunks")]
          else []) /\
    (exists held,
       incomingTransfers after !! fileId = Some held /\
       metadata held = meta /\
       receivedChunks held = contiguous /\
       expectedChunkIndex held = contiguous) /\
    (forall i, 0 <= i < contiguous ->
       getChunk (transferStore after) upload i
       = getChunk (transferStore conn) upload i) /\
    (forall i, contiguous <= i <= MAX_SAFE_INTEGER ->
       getChunk (transferStore after) upload i = None).
Proof.
  intros meta total upload contiguous Hs Hheld Hsafe Hcount.
  destruct (contiguous_prefix (transferStore conn) upload total)
    as (Hrange & Hpresent & Hstop).
  fold contiguous in Hrange, Hpresent, Hstop.
  assert (contiguous < total) as Hshort.
  { destruct (Z.lt_ge_cases contiguous total) as [|Hge]; [assumption|].
    exfalso.
    assert (total <= getChunkCount (transferStore conn) upload); [|lia].
    apply getChunkCount_lower; [exact Hsafe|].
    intros i Hi. apply Hpresent. lia. }
  unfold completeTransfer. rewrite Hheld.
  set (asked := match checksum with Some _ => _ | None => transfer end).
  assert (metadata asked = meta /\ uploadId asked = upload)
    as [Hmeta Hupload].
  { subst asked. destruct checksum as [given|]; [|now split].
    destruct (String.eqb given EmptyString); now split. }
  rewrite Hmeta, Hupload, Hs. fold meta total upload.
  destruct (Z.ltb_spec (getChunkCount (transferStore conn) upload) total)
    as [_|]; [|lia].
  fold contiguous.
  destruct (retransmitFrom_effect now conn fileId asked contiguous
              "missing_chunks" ltac:(rewrite Hmeta; fold meta total; lia))
    as (Hcalls & Hsent & (held & Hget & Hm & _ & _ & Hr & He & _) & _
        & Hchunks).
  destruct (retransmitFrom now conn fileId asked contiguous "missing_chunks")
    as [after calls].
  cbn [fst snd] in *. subst calls. rewrite Hmeta, Hupload in *.
  exists after. split; [reflexivity|]. split; [lia|].
  split; [now apply Hstop|]. split; [exact Hsent|]. split.
  - exists held. split; [exact Hget|]. now repeat split.
  - split.
    + intros i Hi. rewrite Hchunks, getChunk_deleteChunksFrom.
      destruct (inKeyRange _ _ _) eqn:Hin; [|reflexivity].
      apply inKeyRange_true in Hin. cbn in Hin. lia.
    + intros i Hi. rewrite Hchunks, getChunk_deleteChunksFrom.
      destruct (inKeyRange _ _ _) eqn:Hin; [reflexivity|].
      exfalso. apply not_true_iff_false in Hin. apply Hin.
      apply inKeyRange_true. cbn. split; [reflexivity | lia].
Qed.

(** X28. When all chunks are there but their checksums do not give the
    checksum that the sender announced, the receiver delivers nothing: it
    asks for the whole file again, rewinds the transfer to chunk 0 and
    deletes the chunks it holds. *)
Theorem completeTransfer_checksum_mismatch
    (now : Z) (conn : P2PConnection) (fileId : string)
    (transfer : IncomingTransferState) (announced : string) :
  let meta := metadata transfer in
  let total := Types.totalChunks meta in
  let upload := uploadId transfer in
  let computed :=
    Integrity.deriveFileChecksumFromChunkChecksums subtleDigest
      (Finalizer.storedChecksums (transferStore conn) upload total) in
  isSupported (transferStore conn) = true ->
  incomingTransfers conn !! fileId = Some transfer ->
  0 <= total <= MAX_SAFE_INTEGER + 1 ->
  (forall i, 0 <= i < total ->
     getChunk (transferStore conn) upload i <> None) ->
  announced <> EmptyString -> announced <> computed ->
  exists after,
    completeTransfer subtleDigest opfs now conn fileId (Some announced)
    = Some (after, []) /\
    sent after
    = sent conn
      ++ (if isDataChannelReady conn
          then [Control (RequestRetransmit (Types.id meta) upload 0
                           "CHECKSUM_MISMATCH")]
          else []) /\
    (exists held,
       incomingTransfers after !! fileId = Some held /\
       metadata held = meta /\
       expectedFileChecksum held = Some announced /\
       receivedChunks held = 0 /\ bytesReceived held = 0) /\
    (forall i, 0 <= i <= MAX_SAFE_INTEGER ->
       getChunk (transferStore after) upload i = None).
Proof.
  intros meta total upload computed Hs Hheld Hsafe Hall Hgiven Hdiffers.
  unfold completeTransfer. rewrite Hheld.
  destruct (String.eqb_spec announced EmptyString) as [|_]; [contradiction|].
  cbn [metadata uploadId expectedFileChecksum withExpectedFileChecksum].
  fold meta total upload. unfold orString.
  destruct (String.eqb_spec announced EmptyString) as [|_]; [contradiction|].
  rewrite Hs.
  destruct (Z.ltb_spec (getChunkCount (transferStore conn) upload) total)
    as [Hshort|_].
  { exfalso.
    assert (total <= getChunkCount (transferStore conn) upload); [|lia].
    apply getChunkCount_lower; [lia | exact Hall]. }
  rewrite finalize_all_present by exact Hall.
  fold total computed.
  destruct (String.eqb_spec announced EmptyString) as [|_]; [contradiction|].
  destruct (String.eqb_spec computed announced) as [|_]; [congruence|].
  cbn [negb andb].
  set (asked := withExpectedFileChecksum transfer (Some announced)).
  set (warned := logEvent conn "transfer_checksum_mismatch").
  destruct (retransmitFrom_effect now warned fileId asked 0
              "CHECKSUM_MISMATCH" ltac:(cbn; fold meta total; lia))
    as (Hcalls & Hsent & (held & Hget & Hm & _ & He & Hr & _ & Hb) & _
        & Hchunks).
  destruct (retransmitFrom now warned fileId asked 0 "CHECKSUM_MISMATCH")
    as [after calls].
  cbn [fst snd] in *. subst calls.
  exists after. split; [reflexivity|]. split.
  { rewrite Hsent. reflexivity. }
  split.
  - exists held. split; [exact Hget|]. split; [exact Hm|].
    split; [exact He|]. split; [exact Hr|]. rewrite Hb.
    unfold Integrity.bytesForChunkIndex. lia.
  - intros i Hi. rewrite Hchunks.
    change (transferStore warned) with (transferStore conn).
    change (uploadId asked) with upload.
    rewrite getChunk_deleteChunksFrom.
    destruct (inKeyRange _ _ _) eqn:Hin; [reflexivity|].
    exfalso. apply not_true_iff_false in Hin. apply Hin.
    apply inKeyRange_true. cbn. split; [reflexivity | lia].
Qed.

End ReceiveRecovery.

Section RecoveryExamples.
Import TransferStore Transfer.

Lemma processFileChunk_ignored_witness :
  transferStore
    (fst (processFileChunk None (fun _ _ => Js.NaN) (fun _ _ => false) 30
            Samples.sampleConnection ["z"%byte]))
  = transferStore Samples.sampleConnection.
Proof.
  destruct (processFileChunk_ignored None (fun _ _ => Js.NaN)
              (fun _ _ => false) 30 Samples.sampleConnection ["z"%byte])
    as (_ & Hstore & _).
  - right. exact I.
  - exact Hstore.
Defined.

Lemma completeTransfer_missing_chunks_witness :
  exists after,
    completeTransfer None None 40
      (withTransferStore Samples.receivingConnection Samples.gapStore)
      "f" None
    = Some (after, []) /\
    sent after = [Control (RequestRetransmit "f" "u" 1 "missing_chunks")].
Proof.
  destruct (completeTransfer_missing_chunks None None 40
              (withTransferStore Samples.receivingConnection Samples.gapStore)
              "f" Samples.offeredTransfer None)
    as (after & Hdone & _ & _ & Hsent & _).
  - reflexivity.
  - reflexivity.
  - vm_compute. discriminate.
  - vm_compute. reflexivity.
  - exists after. split; [exact Hdone | exact Hsent].
Defined.

Lemma completeTransfer_checksum_mismatch_witness :
  exists after,
    completeTransfer None None 40
      (withTransferStore Samples.receivingConnection Samples.twoChunkStore)
      "f" (Some "00000000")
    = Some (after, []) /\
    sent after = [Control (RequestRetransmit "f" "u" 0 "CHECKSUM_MISMATCH")].
Proof.
  destruct (completeTransfer_checksum_mismatch None None 40
              (withTransferStore Samples.receivingConnection
                 Samples.twoChunkStore)
              "f" Samples.offeredTransfer "00000000")
    as (after & Hdone & Hsent & _).
  - reflexivity.
  - reflexivity.
  - vm_compute. split; discriminate.
  - intros i Hi. now apply twoChunkStore_present.
  - discriminate.
  - vm_compute. discriminate.
  - exists after. split; [exact Hdone | exact Hsent].
Defined.

End RecoveryExamples.


(** ** The send side: the checksum of the whole file *)

Section SenderChecksum.
Import Sender.

Variable subtleDigest : option (list byte -> list byte).

Lemma setIndex_inside {A : Type} (array : list (option A)) (i : nat) (item : A) :
  (i < length array)%nat ->
  Transfer.setIndex array (Z.of_nat i) item = <[i := Some item]> array.
Proof.
  intros Hi. unfold Transfer.setIndex.
  destruct (Z.ltb_spec (Z.of_nat i) 0); [lia|].
  destruct (Z.ltb_spec (Z.of_nat i) (Z.of_nat (length array))); [|lia].
  now rewrite Nat2Z.id.
Qed.

Lemma setIndex_next {A : Type} (array : list (option A)) (item : A) :
  Transfer.setIndex array (Z.of_nat (length array)) item
  = array ++ [Some item].
Proof.
  unfold Transfer.setIndex.
  destruct (Z.ltb_spec (Z.of_nat (length array)) 0); [lia|].
  destruct (Z.ltb_spec (Z.of_nat (length array)) (Z.of_nat (length array)));
    [lia|].
  rewrite Nat2Z.id, Nat.sub_diag. reflexivity.
Qed.

Lemma fillChecksums_spec (content : list byte) (chunkSize : Z)
    (remaining : nat) :
  let checksumOf i :=
    Integrity.hashArrayBuffer subtleDigest (chunkAt content chunkSize i) in
  forall (i : Z) (checksums : list (option string)),
    0 <= i ->
    (length checksums <= Z.to_nat i + remaining)%nat ->
    (forall j, 0 <= j < i ->
       checksums !! Z.to_nat j = Some (Some (checksumOf j))) ->
    (forall (j : nat) text,
       checksums !! j = Some (Some text) -> text <> EmptyString ->
       text = checksumOf (Z.of_nat j)) ->
    fillChecksums subtleDigest content chunkSize i remaining checksums
    = map (fun k => Some (checksumOf k)) (seqZ 0 (i + Z.of_nat remaining)).
Proof.
  intros checksumOf.
  induction remaining as [|remaining IH];
    intros i checksums Hi Hlength Hfilled Hknown; cbn [fillChecksums].
  - rewrite Z.add_0_r. apply list_eq. intros j.
    change (map (fun k => Some (checksumOf k)))
      with (fmap (M := list) (fun k => Some (checksumOf k))).
    rewrite list_lookup_fmap.
    destruct (Z.lt_ge_cases (Z.of_nat j) i) as [Hlt|Hge].
    + rewrite lookup_seqZ_lt by lia. cbn.
      specialize (Hfilled (Z.of_nat j) ltac:(lia)).
      now rewrite Nat2Z.id in Hfilled.
    + rewrite lookup_seqZ_ge by lia. cbn. apply lookup_ge_None. lia.
  - replace (i + Z.of_nat (S remaining))
      with (i + 1 + Z.of_nat remaining) by lia.
    assert (Z.to_nat i <= length checksums)%nat as Hreached.
    { destruct (Z.eq_dec i 0) as [->|Hpos]; [cbn; lia|].
      specialize (Hfilled (i - 1) ltac:(lia)).
      apply lookup_lt_Some in Hfilled. lia. }
    destruct (truthy (slot checksums i)) eqn:Hslot.
    + apply IH; [lia | lia | | exact Hknown].
      intros j Hj. destruct (Z.eq_dec j i) as [->|Hne];
        [|apply Hfilled; lia].
      unfold slot in Hslot. destruct (Z.ltb_spec i 0); [lia|].
      destruct (checksums !! Z.to_nat i) as [[text|]|] eqn:Hget;
        try discriminate.
      cbn in Hslot. apply negb_true_iff, String.eqb_neq in Hslot.
      rewrite (Hknown _ _ Hget Hslot). now rewrite Z2Nat.id by lia.
    + set (item := Integrity.hashArrayBuffer subtleDigest
                     (chunkAt content chunkSize i)).
      destruct (Nat.eq_dec (Z.to_nat i) (length checksums)) as [Hend|Hin].
      * assert (Transfer.setIndex checksums i item = checksums ++ [Some item])
          as ->.
        { replace i with (Z.of_nat (length checksums)) by lia.
          apply setIndex_next. }
        apply IH; [lia | rewrite length_app; cbn; lia | |].
        -- intros j Hj. destruct (Z.eq_dec j i) as [->|Hne].
           ++ rewrite Hend. rewrite list_lookup_middle by reflexivity.
              reflexivity.
           ++ rewrite lookup_app_l by lia. apply Hfilled. lia.
        -- intros j text Hget Htext.
           apply lookup_app_Some in Hget as [Hget|[Hge Hget]];
             [now apply Hknown|].
           destruct (j - length checksums)%nat as [|more] eqn:Hdiff;
             [|discriminate Hget].
           cbn in Hget. injection Hget as <-.
           replace (Z.of_nat j) with i by lia. reflexivity.
      * assert (Transfer.setIndex checksums i item
                = <[Z.to_nat i := Some item]> checksums) as ->.
        { rewrite <- (setIndex_inside checksums (Z.to_nat i) item) by lia.
          now rewrite Z2Nat.id by lia. }
        apply IH; [lia | rewrite length_insert; lia | |].
        -- intros j Hj. destruct (Z.eq_dec j i) as [->|Hne].
           ++ rewrite list_lookup_insert_eq by lia. reflexivity.
           ++ rewrite list_lookup_insert_ne by lia. apply Hfilled. lia.
        -- intros j text Hget Htext.
           destruct (Nat.eq_dec j (Z.to_nat i)) as [->|Hne].
           ++ rewrite list_lookup_insert_eq in Hget by lia.
              injection Hget as <-. now rewrite Z2Nat.id by lia.
           ++ rewrite list_lookup_insert_ne in Hget by lia.
              now apply Hknown.
Qed.

Lemma filter_length_bound {A : Type} (keep : A -> bool) (l : list A) :
  (length (List.filter keep l) <= length l)%nat.
Proof.
  induction l as [|y l IH]; [reflexivity|].
  cbn [List.filter]. destruct (keep y); cbn [length]; lia.
Qed.

Lemma filter_all_length {A : Type} (keep : A -> bool) (l : list A) :
  (length l <= length (List.filter keep l))%nat ->
  Forall (fun x => keep x = true) l.
Proof.
  induction l as [|x l IH]; intros Hlen; [constructor|].
  cbn [List.filter] in Hlen.
  pose proof (filter_length_bound keep l) as Hle.
  destruct (keep x) eqn:Hx; cbn [length] in Hlen.
  - constructor; [exact Hx | apply IH; lia].
  - lia.
Qed.

Lemma joined_present {A : Type} (f : A -> string) (l : list A) :
  joined (map (fun x => Some (f x)) l) = map f l.
Proof. unfold joined. rewrite map_map. reflexivity. Qed.

(** X29. The checksum that a sender announces is the checksum of the whole
    file, also after a resumed or interrupted send: when the chunk
    checksums that the session already holds are right, the missing ones
    are computed from the file, and the result is derived from the
    checksums of all chunks in order.  The session then holds them all,
    and remembers the result. *)
Theorem ensureRuntimeSessionChecksum_whole_file
    (session : OutgoingRuntimeSession) :
  let total := Types.totalChunks (metadata session) in
  let checksumOf i :=
    Integrity.hashArrayBuffer subtleDigest
      (chunkAt (file session) (Types.chunkSize (metadata session)) i) in
  let expected :=
    Integrity.deriveFileChecksumFromChunkChecksums subtleDigest
      (map checksumOf (seqZ 0 total)) in
  truthy (fileChecksum session) = false ->
  Z.of_nat (length (chunkChecksums session)) <= Z.max 0 total ->
  (forall (j : nat) text,
     chunkChecksums session !! j = Some (Some text) ->
     text <> EmptyString -> text = checksumOf (Z.of_nat j)) ->
  let result := ensureRuntimeSessionChecksum subtleDigest session in
  fst result = expected /\
  fileChecksum (snd result) = Some expected /\
  chunkChecksums (snd result)
  = map (fun i => Some (checksumOf i)) (seqZ 0 total) /\
  (expected <> EmptyString ->
   ensureRuntimeSessionChecksum subtleDigest (snd result)
   = (expected, snd result)).
Proof.
  intros total checksumOf expected Hfresh Hlength Hknown result.
  assert (chunkChecksums (snd result)
          = map (fun i => Some (checksumOf i)) (seqZ 0 total)) as Hall.
  { subst result. unfold ensureRuntimeSessionChecksum. rewrite Hfresh.
    cbn [snd chunkChecksums]. fold total.
    destruct (Z.ltb_spec
                (Z.of_nat (length (List.filter truthy (chunkChecksums session))))
                total) as [Hshort|Hfull].
    - pose proof (fillChecksums_spec (file session)
                    (Types.chunkSize (metadata session)) (Z.to_nat total) 0
                    (chunkChecksums session) ltac:(lia) ltac:(lia)) as Hfill.
      cbv zeta in Hfill. rewrite Hfill; [|intros j Hj; lia | exact Hknown].
      do 2 f_equal. lia.
    - destruct (Z.le_gt_cases total 0) as [Hnone|Hsome].
      + assert (chunkChecksums session = []) as ->
          by (destruct (chunkChecksums session); [reflexivity | cbn in *; lia]).
        now rewrite seqZ_nil by lia.
      + pose proof (filter_length_bound truthy (chunkChecksums session))
          as Hle.
        assert (Forall (fun entry => truthy entry = true)
                  (chunkChecksums session)) as Htruthy
          by (apply filter_all_length; lia).
        apply list_eq. intros j.
        change (map (fun i => Some (checksumOf i)))
          with (fmap (M := list) (fun i => Some (checksumOf i))).
        rewrite list_lookup_fmap.
        destruct (Z.lt_ge_cases (Z.of_nat j) total) as [Hlt|Hge].
        * rewrite lookup_seqZ_lt by lia. cbn.
          destruct (chunkChecksums session !! j) as [entry|] eqn:Hget;
            [|apply lookup_ge_None in Hget; lia].
          rewrite Forall_lookup in Htruthy. specialize (Htruthy j entry Hget).
          destruct entry as [text|]; [|discriminate].
          cbn in Htruthy. apply negb_true_iff, String.eqb_neq in Htruthy.
          now rewrite (Hknown j text Hget Htruthy).
        * rewrite lookup_seqZ_ge by lia. cbn. apply lookup_ge_None. lia. }
  assert (fst result = expected) as Hsum.
  { pose proof Hall as Hjoined. subst result.
    unfold ensureRuntimeSessionChecksum in *. rewrite Hfresh in *.
    cbn [fst snd chunkChecksums] in *. rewrite Hjoined.
    now rewrite joined_present. }
  assert (fileChecksum (snd result) = Some (fst result)) as Hcached.
  { subst result. unfold ensureRuntimeSessionChecksum. rewrite Hfresh.
    reflexivity. }
  split; [exact Hsum|]. split; [now rewrite Hcached, Hsum|].
  split; [exact Hall|].
  intros Hnonempty. unfold ensureRuntimeSessionChecksum at 1.
  rewrite Hcached, Hsum. cbn [truthy].
  destruct (String.eqb_spec expected EmptyString); [contradiction|].
  reflexivity.
Qed.

End SenderChecksum.

Section SenderChecksumExample.
Import Sender.

Lemma ensureRuntimeSessionChecksum_whole_file_witness :
  fst (ensureRuntimeSessionChecksum None
         {| file := ["a"%byte; "b"%byte; "c"%byte];
            metadata := Samples.twoChunkFile;
            chunkChecksums := [];
            fileChecksum := None |})
  = Integrity.deriveFileChecksumFromChunkChecksums None
      [Integrity.hashArrayBuffer None ["a"%byte; "b"%byte];
       Integrity.hashArrayBuffer None ["c"%byte]].
Proof.
  destruct (ensureRuntimeSessionChecksum_whole_file None
              {| file := ["a"%byte; "b"%byte; "c"%byte];
                 metadata := Samples.twoChunkFile;
                 chunkChecksums := [];
                 fileChecksum := None |})
    as (Hsum & _).
  - reflexivity.
  - vm_compute. discriminate.
  - intros j text Hget. discriminate Hget.
  - exact Hsum.
Defined.

End SenderChecksumExample.


(** ** The receive side: where a resumed transfer starts *)

Section ResumePoint.
Import TransferStore Transfer.







End ResumePoint.


Section ResumeExample.
Import TransferStore Transfer.


End ResumeExample.
